(** * Blueberry browser: realtime bridge and LLM orchestration core

    A shallow embedding of the main-process TypeScript sources
    ([BridgeServer.ts], [llm/ModelManager.ts], [chat/MessageStore.ts],
    [llm/Streamer.ts], [llm/Tools.ts], [page/PageInspector.ts] and
    [LLMClient.ts]) together with the properties of the design document
    that can be settled on them.

    Conventions.  A JavaScript string is the list of its UTF-16 code
    units.  A computation that may raise is a function into [outcome];
    stateful code threads its state explicitly and records every
    externally visible action (a frame written to a socket, an IPC
    message, a provider call) in an effect trace, in program order.
    [await] points are executed in sequence: a handler is modelled as
    one uninterrupted run. *)

From Stdlib Require Import ZArith NArith List Ascii String Lia Bool.
From stdpp Require Import base option list gmap.

Set Default Proof Using "Type".

(** ** JavaScript values *)

Module JS.

Abbreviation jsstring := (list N) (only parsing).

Definition lit (s : string) : jsstring :=
    map N_of_ascii (list_ascii_of_string s).
Arguments lit s%_string : simpl never.

  (** U+2014 EM DASH and U+2026 HORIZONTAL ELLIPSIS, used by the
      source in template literals. *)
Definition em_dash : jsstring := [8212%N].
Definition ellipsis : jsstring := [8230%N].

  (** [WhiteSpace] and [LineTerminator] of ECMAScript: what
      [String.prototype.trim] strips and what [\s] matches. *)
Definition is_space (c : N) : bool :=
    ((9 <=? c) && (c <=? 13) || (c =? 32) || (c =? 160) || (c =? 5760)
     || (8192 <=? c) && (c <=? 8202) || (c =? 8232) || (c =? 8233)
     || (c =? 8239) || (c =? 8287) || (c =? 12288) || (c =? 65279))%N.

  (** [\w] without the unicode flag: [A-Za-z0-9_]. *)
Definition is_word (c : N) : bool :=
    ((65 <=? c) && (c <=? 90) || (97 <=? c) && (c <=? 122)
     || (48 <=? c) && (c <=? 57) || (c =? 95))%N.

Fixpoint trimStart (s : jsstring) : jsstring :=
    match s with
    | c :: s' => if is_space c then trimStart s' else s
    | [] => []
    end.

Definition trim (s : jsstring) : jsstring :=
    rev (trimStart (rev (trimStart s))).

  (** [s.split(sep)] for a separator of one code unit. *)
Fixpoint split_on (sep : N) (s : jsstring) : list jsstring :=
    match s with
    | [] => [[]]
    | c :: s' =>
        if (c =? sep)%N then [] :: split_on sep s'
        else match split_on sep s' with
             | w :: ws => (c :: w) :: ws
             | [] => [[c]]
             end
    end.

  (** [s.split(/\s+/)]: the fields between maximal runs of white space. *)
Fixpoint split_ws_go (in_sep : bool) (s : jsstring) : list jsstring :=
    match s with
    | [] => [[]]
    | c :: s' =>
        if is_space c then
          if in_sep then split_ws_go true s' else [] :: split_ws_go true s'
        else match split_ws_go false s' with
             | w :: ws => (c :: w) :: ws
             | [] => [[c]]
             end
    end.
Definition split_ws (s : jsstring) : list jsstring := split_ws_go false s.

  (** [parts.join(sep)]. *)
Fixpoint join (sep : jsstring) (parts : list jsstring) : jsstring :=
    match parts with
    | [] => []
    | [p] => p
    | p :: ps => p ++ sep ++ join sep ps
    end.

  (** [s.slice(0, n)] and [arr.slice(0, n)] for [n >= 0]. *)
Definition slice0 {A} (n : nat) (l : list A) : list A := take n l.

  (** [hay.includes(needle)]. *)
Fixpoint starts_with (p s : jsstring) : bool :=
    match p, s with
    | [], _ => true
    | a :: p', b :: s' => (a =? b)%N && starts_with p' s'
    | _ :: _, [] => false
    end.
Fixpoint includes (needle hay : jsstring) : bool :=
    starts_with needle hay ||
    match hay with
    | [] => false
    | _ :: hay' => includes needle hay'
    end.

  (** Decimal rendering of a non-negative integer ([String(n)]). *)
Fixpoint dec_go (fuel : nat) (n : N) (acc : jsstring) : jsstring :=
    match fuel with
    | O => acc
    | S fuel' =>
        let acc' := (48 + n mod 10)%N :: acc in
        if (n / 10 =? 0)%N then acc' else dec_go fuel' (n / 10)%N acc'
    end.
Definition dec (n : N) : jsstring := dec_go (S (N.to_nat (N.log2 n))) n [].
Arguments dec n : simpl never.

  (** [String.prototype.toLowerCase], given per code unit.  Basic Latin
      and Latin-1 letters are mapped; U+0130 and U+212A are the only
      code units outside Basic Latin whose lower case contains a Basic
      Latin letter, and they are mapped too.  Every other code unit is
      left as it is: its lower case is outside Basic Latin and is not
      white space, so no pattern of this program can tell the
      difference. *)
Definition lower_unit (c : N) : jsstring :=
    if ((65 <=? c) && (c <=? 90))%N then [(c + 32)%N]
    else if ((192 <=? c) && (c <=? 222) && negb (c =? 215))%N then [(c + 32)%N]
    else if (c =? 304)%N then [105%N; 775%N]
    else if (c =? 8490)%N then [107%N]
    else [c].
Definition toLowerCase (s : jsstring) : jsstring := flat_map lower_unit s.

  (** Case folding of a regular expression with the [i] flag and
      without the [u] flag: a code unit outside Basic Latin never folds
      onto a Basic Latin one. *)
Definition fold_ascii (c : N) : N :=
    if ((65 <=? c) && (c <=? 90))%N then (c + 32)%N else c.

  (** Values that a [throw] can carry: an [Error] object with its
      [name] and [message], a primitive string, or [null]/[undefined]. *)
Inductive thrown :=
  | ThrownError (name message : jsstring)
  | ThrownString (s : jsstring)
  | ThrownNullish.

Definition is_error_object (e : thrown) : bool :=
    match e with ThrownError _ _ => true | _ => false end.

  (** [Error.prototype.toString]. *)
Definition error_toString (name message : jsstring) : jsstring :=
    match name, message with
    | [], _ => message
    | _, [] => name
    | _, _ => name ++ lit ": " ++ message
    end.

  (** [String(e?.message || e || dflt)] for a caught value [e]. *)
Definition describe_thrown (dflt : jsstring) (e : thrown) : jsstring :=
    match e with
    | ThrownError name [] => error_toString name []
    | ThrownError _ message => message
    | ThrownString [] => dflt
    | ThrownString s => s
    | ThrownNullish => dflt
    end.

Inductive outcome (A : Type) :=
  | Returns (a : A)
  | Throws (e : thrown).
Arguments Returns {A} a.
Arguments Throws {A} e.

  (** JSON values as they arrive in [args].  Numbers are restricted to
      integers; an array or object carries the string that [String]
      returns for it. *)
Inductive jsval :=
  | JNull
  | JBool (b : bool)
  | JNum (z : Z)
  | JStr (s : jsstring)
  | JObj (rendered : jsstring).

Definition truthy (v : option jsval) : bool :=
    match v with
    | None | Some JNull => false
    | Some (JBool b) => b
    | Some (JNum z) => negb (z =? 0)%Z
    | Some (JStr s) => match s with [] => false | _ => true end
    | Some (JObj _) => true
    end.

Definition dec_Z (z : Z) : jsstring :=
    match z with
    | Zneg p => lit "-" ++ dec (Npos p)
    | _ => dec (Z.to_N z)
    end.

Definition to_String (v : jsval) : jsstring :=
    match v with
    | JNull => lit "null"
    | JBool true => lit "true"
    | JBool false => lit "false"
    | JNum z => dec_Z z
    | JStr s => s
    | JObj rendered => rendered
    end.

  (** [String(v || "")]. *)
Definition string_or_empty (v : option jsval) : jsstring :=
    match v with
    | Some x => if truthy v then to_String x else []
    | None => []
    end.

  (** [process.env.X || dflt]: an unset or empty variable is falsy. *)
Definition env_or (v : option jsstring) (dflt : jsstring) : jsstring :=
    match v with
    | Some (c :: s) => c :: s
    | _ => dflt
    end.

Definition nonempty (s : jsstring) : bool :=
    match s with [] => false | _ => true end.

End JS.

(** ** The regular expressions of the sources

    Every regular expression literal of the program is an alternation
    of sequences of the atoms below.  Matching follows the backtracking
    order of ECMAScript: [step_atom] lists the positions reachable
    through one atom, preferred first, so the head of [match_seq] is
    the match that [RegExp.prototype.exec] reports. *)

Module Regex.
Import JS.

Inductive atom :=
| Chr (c : N)          (* a literal code unit *)
| OptChr (c : N)       (* [c?] *)
| Spaces               (* [\s+] *)
| NonSpaces            (* [\S+] *)
| Boundary.            (* [\b] *)

(** A position in the subject: the code unit before it, if any, and
    what is left. *)
Definition pos : Type := option N * list N.

Definition same_unit (ignoreCase : bool) (a b : N) : bool :=
  if ignoreCase then (fold_ascii a =? fold_ascii b)%N else (a =? b)%N.

(** The positions after one or more code units of class [p], longest
    run first. *)
Fixpoint many1 (p : N -> bool) (prev : option N) (s : list N) : list pos :=
  match s with
  | c :: s' => if p c then many1 p (Some c) s' ++ [(Some c, s')] else []
  | [] => []
  end.

Definition at_boundary (x : pos) : bool :=
  let before := match x.1 with Some c => is_word c | None => false end in
  let after := match x.2 with c :: _ => is_word c | [] => false end in
  xorb before after.

Definition step_atom (ignoreCase : bool) (a : atom) (x : pos) : list pos :=
  match a with
  | Chr c =>
      match x.2 with
      | d :: s' => if same_unit ignoreCase c d then [(Some d, s')] else []
      | [] => []
      end
  | OptChr c =>
      match x.2 with
      | d :: s' => if same_unit ignoreCase c d then [(Some d, s'); x] else [x]
      | [] => [x]
      end
  | Spaces => many1 is_space x.1 x.2
  | NonSpaces => many1 (fun c => negb (is_space c)) x.1 x.2
  | Boundary => if at_boundary x then [x] else []
  end.

Fixpoint match_seq (ignoreCase : bool) (p : list atom) (x : pos) : list pos :=
  match p with
  | [] => [x]
  | a :: p' => flat_map (match_seq ignoreCase p') (step_atom ignoreCase a x)
  end.

Definition match_alt (ignoreCase : bool) (alts : list (list atom)) (x : pos)
  : list pos :=
  flat_map (fun p => match_seq ignoreCase p x) alts.

(** [re.exec(s)]: the first start position with a match, and there the
    preferred match; the result is the matched text. *)
Fixpoint exec_from (ignoreCase : bool) (alts : list (list atom))
    (prev : option N) (s : list N) : option (list N) :=
  match match_alt ignoreCase alts (prev, s) with
  | (_, rest) :: _ => Some (take (length s - length rest) s)
  | [] =>
      match s with
      | c :: s' => exec_from ignoreCase alts (Some c) s'
      | [] => None
      end
  end.

Definition exec (ignoreCase : bool) (alts : list (list atom)) (s : list N)
  : option (list N) := exec_from ignoreCase alts None s.

(** [re.test(s)]. *)
Definition test (ignoreCase : bool) (alts : list (list atom)) (s : list N) : bool :=
  match exec ignoreCase alts s with Some _ => true | None => false end.

(** The atoms of a literal word. *)
Definition word (s : string) : list atom := map Chr (lit s).
Arguments word s%_string.

(** Words separated by [\s+]. *)
Fixpoint phrase (ws : list string) : list atom :=
  match ws with
  | [] => []
  | [w] => word w
  | w :: ws' => word w ++ Spaces :: phrase ws'
  end.

End Regex.

(** ** State, exceptions and an effect trace *)

Module Eff.
Import JS.

Section WithTypes.
Context {St Ev : Type}.

Definition M (A : Type) : Type := St -> outcome A * St * list Ev.

Definition ret {A} (a : A) : M A := fun s => (Returns a, s, []).

Definition bind {A B} (m : M A) (k : A -> M B) : M B :=
      fun s =>
        match m s with
        | (Returns a, s1, es1) =>
            let '(r, s2, es2) := k a s1 in (r, s2, es1 ++ es2)
        | (Throws e, s1, es1) => (Throws e, s1, es1)
        end.

Definition throw {A} (e : thrown) : M A := fun s => (Throws e, s, []).

    (** [try { body } catch (e) { handler e }]. *)
Definition try_catch {A} (body : M A) (handler : thrown -> M A) : M A :=
      fun s =>
        match body s with
        | (Returns a, s1, es1) => (Returns a, s1, es1)
        | (Throws e, s1, es1) =>
            let '(r, s2, es2) := handler e s1 in (r, s2, es1 ++ es2)
        end.

Definition get : M St := fun s => (Returns s, s, []).
Definition gets {A} (f : St -> A) : M A := fun s => (Returns (f s), s, []).
Definition modify (f : St -> St) : M unit := fun s => (Returns tt, f s, []).
Definition emit (e : Ev) : M unit := fun s => (Returns tt, s, [e]).
Definition lift_outcome {A} (o : outcome A) : M A := fun s => (o, s, []).

Fixpoint for_each {A} (l : list A) (f : A -> M unit) : M unit :=
      match l with
      | [] => ret tt
      | x :: l' => bind (f x) (fun _ => for_each l' f)
      end.

Definition when (b : bool) (m : M unit) : M unit := if b then m else ret tt.

Definition result_of {A} (r : outcome A * St * list Ev) : outcome A := r.1.1.
Definition state_of {A} (r : outcome A * St * list Ev) : St := r.1.2.
Definition trace_of {A} (r : outcome A * St * list Ev) : list Ev := r.2.
End WithTypes.

Arguments M : clear implicits.

#[export] Instance M_ret {St Ev} : MRet (M St Ev) := fun _ a => ret a.
#[export] Instance M_bind {St Ev} : MBind (M St Ev) := fun _ _ k m => bind m k.
End Eff.

(** ** Shared page types ([common/types.ts]) and [PageInspector] *)

Module Page.
Import JS.

Record Link := { link_text : jsstring; link_href : jsstring }.

Record PageInfo := {
    title : option jsstring;
    url : option jsstring;
    summary : jsstring;
    links : list Link;
  }.

  (** A [Tab] as the inspector sees it: its identity, its current title
      and URL, and what [getTabText()] and [runJs(LINK_SCRAPE_JS)]
      answer (either may reject). *)
Record Tab := {
    tab_id : jsstring;
    tab_title : jsstring;
    tab_url : jsstring;
    tab_text : outcome jsstring;
    tab_links : outcome (list Link);
  }.

  (** [x || null] on a string. *)
Definition or_null (s : jsstring) : option jsstring :=
    match s with [] => None | _ => Some s end.

  (** [PageInspector.getInfoForTab]. *)
Definition getInfoForTab (tab : Tab) : PageInfo :=
    {| title := or_null (tab_title tab);
       url := or_null (tab_url tab);
       summary :=
         match tab_text tab with
         | Returns text => join (lit " ") (slice0 200 (split_ws text))
         | Throws _ => []
         end;
       links :=
         match tab_links tab with
         | Returns ls => ls
         | Throws _ => []
         end |}.

Definition empty_info : PageInfo :=
    {| title := None; url := None; summary := []; links := [] |}.

  (** [PageInspector.getActivePageInfo]. *)
Definition getActivePageInfo (active : option Tab) : PageInfo :=
    match active with
    | None => empty_info
    | Some t => getInfoForTab t
    end.

  (** [PageInspector.openUrlAndGetInfo]: [created] is what
      [window.createTab(url)] followed by [switchActiveTab] gives, the
      new tab or an exception; a failing [loadURL] is swallowed. *)
Definition openUrlAndGetInfo (created : outcome Tab) (u : jsstring)
    : outcome PageInfo :=
    match created with
    | Returns tab =>
        let info := getInfoForTab tab in
        Returns {| title := title info; url := Some u;
                   summary := summary info; links := links info |}
    | Throws e => Throws e
    end.
End Page.

(** ** Frames shared by the bridge and its emitters *)

Module Frames.
Import JS Page.

Inductive Role := Browser | Assistant | User.

Record ToolResultPayload := {
    tr_title : option jsstring;
    tr_url : option jsstring;
    tr_linksCount : nat;
    tr_summaryShort : option jsstring;
    tr_links : option (list Link);
  }.

  (** The [data] member of the events this program emits. *)
Inductive evtdata :=
  | FeatureState (offlineMode : bool)
  | ActiveTab (tabId : option jsstring) (u : jsstring)
  | ToolCall (name : jsstring) (input_url : option jsstring)
  | ToolResult (name : jsstring) (result : ToolResultPayload)
  | PageOpened (u : jsstring) (ttl : jsstring).

  (** A call through the [BridgeChatEmitter] interface. *)
Inductive emission :=
  | EmitChat (role : Role) (text : jsstring)
  | EmitEvent (name : jsstring) (data : evtdata).
End Frames.

(** ** The realtime gateway ([BridgeServer.ts]) *)

Module Bridge.
Import JS Eff Page Frames.

(** A connection is identified with its [WebSocket] object. *)
Abbreviation conn := nat (only parsing).

Record BridgeCommand := {
  cmd_v : option N;
  cmd_id : jsstring;
  cmd_name : jsstring;
  cmd_args : option (gmap (list N) jsval);
}.

Inductive resdata :=
| PageData (ttl u : option jsstring) (status : N)
           (contentSummary : jsstring) (ls : list Link)
| EmptyData.

Record BridgeResponse := {
  res_v : N;
  res_id : jsstring;
  res_ok : bool;
  res_data : option resdata;
  res_error : option jsstring;
}.

Inductive frame :=
| ResFrame (r : BridgeResponse)
| ChatFrame (id : jsstring) (role : Role) (text : jsstring) (ts : N)
| EvtFrame (name : jsstring) (data : evtdata) (ts : N).

Inductive view := TopBar | Sidebar.

(** What the server does to the outside world. *)
Inductive effect :=
| WsSend (ws : conn) (f : frame)
| WsClose (ws : conn) (code : N) (reason : jsstring)
| WsTerminate (ws : conn)
| WsPing (ws : conn)
| IpcBridgeConnected (target : view) (connected : bool).

(** The upgrade request: its [sec-websocket-protocol] header. *)
Record Request := { sec_websocket_protocol : option jsstring }.

(** The part of [Window] that the server reads. *)
Record Window := {
  activeTab : option Tab;
  getTab : jsstring -> option Tab;
}.

(** What [JSON.parse(String(raw))] makes of an inbound frame. *)
Inductive inbound :=
| Unparseable
| NotCmd
| Cmd (msg : BridgeCommand).

Inductive event :=
| Connection (ws : conn) (req : Request)
| Pong (ws : conn)
| Message (ws : conn) (raw : inbound)
| Close (ws : conn)
| Tick
| ClockAdvance (t : N).

(** The orchestrator behind the bridge is any implementation of the
    three entry points the server calls; each may return, raise, and
    emit chat and event frames through the [BridgeChatEmitter] it was
    given. *)
Class Orchestrator (L : Type) := {
  llm_removeQrMessages : L -> L;
  llm_setOfflineMode : bool -> L -> outcome bool * L * list emission;
  llm_sendChatMessage :
    jsstring -> jsstring -> L -> outcome unit * L * list emission;
}.

(** [jwt_verify now token secret] tells whether
    [jwt.verify(token, secret)] returns rather than raises at time
    [now]. *)
Class Jwt := { jwt_verify : N -> jsstring -> jsstring -> bool }.

Section Server.
Context {L : Type} `{!Orchestrator L} `{!Jwt}.

Record Server := {
  clients : list conn;
  connectionAlive : gmap nat bool;
  listening : gset nat;
  ready : gset nat;
  window : Window;
  llm : L;
  now : N;
  BRIDGE_JWT_SECRET : option jsstring;
}.

Definition with_clients (f : list conn -> list conn) (s : Server) : Server :=
  {| clients := f (clients s); connectionAlive := connectionAlive s;
     listening := listening s; ready := ready s; window := window s;
     llm := llm s; now := now s; BRIDGE_JWT_SECRET := BRIDGE_JWT_SECRET s |}.

Definition with_alive (f : gmap nat bool -> gmap nat bool) (s : Server) : Server :=
  {| clients := clients s; connectionAlive := f (connectionAlive s);
     listening := listening s; ready := ready s; window := window s;
     llm := llm s; now := now s; BRIDGE_JWT_SECRET := BRIDGE_JWT_SECRET s |}.

Definition with_listening (f : gset nat -> gset nat) (s : Server) : Server :=
  {| clients := clients s; connectionAlive := connectionAlive s;
     listening := f (listening s); ready := ready s; window := window s;
     llm := llm s; now := now s; BRIDGE_JWT_SECRET := BRIDGE_JWT_SECRET s |}.

Definition with_ready (f : gset nat -> gset nat) (s : Server) : Server :=
  {| clients := clients s; connectionAlive := connectionAlive s;
     listening := listening s; ready := f (ready s); window := window s;
     llm := llm s; now := now s; BRIDGE_JWT_SECRET := BRIDGE_JWT_SECRET s |}.

Definition with_llm (l : L) (s : Server) : Server :=
  {| clients := clients s; connectionAlive := connectionAlive s;
     listening := listening s; ready := ready s; window := window s;
     llm := l; now := now s; BRIDGE_JWT_SECRET := BRIDGE_JWT_SECRET s |}.

Definition with_now (t : N) (s : Server) : Server :=
  {| clients := clients s; connectionAlive := connectionAlive s;
     listening := listening s; ready := ready s; window := window s;
     llm := llm s; now := t; BRIDGE_JWT_SECRET := BRIDGE_JWT_SECRET s |}.

Abbreviation B := (M Server effect) (only parsing).

(** [Set.prototype.add] and [Set.prototype.delete] on the insertion
    ordered set of clients. *)
Definition set_add (ws : conn) (l : list conn) : list conn :=
  if bool_decide (ws ∈ l) then l else l ++ [ws].
Definition set_delete (ws : conn) (l : list conn) : list conn :=
  filter (fun c => c ≠ ws) l.

(** [ws.send], [ws.close], [ws.terminate], [ws.ping]; each call site
    wraps them in [try {} catch {}]. *)
Definition ws_send (ws : conn) (f : frame) : B unit := emit (WsSend ws f).
Definition ws_close (ws : conn) (code : N) (reason : jsstring) : B unit :=
  emit (WsClose ws code reason);; modify (with_ready (fun r => r ∖ {[ws]})).
Definition ws_terminate (ws : conn) : B unit :=
  emit (WsTerminate ws);; modify (with_ready (fun r => r ∖ {[ws]})).
Definition ws_ping (ws : conn) : B unit := emit (WsPing ws).

Definition send (ws : conn) (payload : BridgeResponse) : B unit :=
  ws_send ws (ResFrame payload).

Definition emitAll (f : frame) : B unit :=
  s ← get;
  for_each (clients s)
    (fun c => when (bool_decide (c ∈ ready s)) (ws_send c f)).

Definition emitChat (role : Role) (text : jsstring) : B unit :=
  t ← gets now;
  emitAll (ChatFrame (lit "m-" ++ dec t) role text t).

Definition emitEvent (name : jsstring) (data : evtdata) : B unit :=
  t ← gets now;
  emitAll (EvtFrame name data t).

Definition broadcastActiveTab (u tabId : jsstring) : B unit :=
  emitEvent (lit "activeTab") (ActiveTab (Some tabId) u).

Definition notifyRendererConnected (connected : bool) : B unit :=
  emit (IpcBridgeConnected TopBar connected);;
  emit (IpcBridgeConnected Sidebar connected).

Definition deliver (e : emission) : B unit :=
  match e with
  | EmitChat role text => emitChat role text
  | EmitEvent name data => emitEvent name data
  end.

(** A call into the orchestrator; what it emits reaches the clients
    before the call returns or raises. *)
Definition call_llm {A} (f : L -> outcome A * L * list emission) : B A :=
  s ← get;
  let '(r, l', ems) := f (llm s) in
  modify (with_llm l');;
  for_each ems deliver;;
  lift_outcome r.

(** [authOk]. *)
Definition bearer_token (req : Request) : jsstring :=
  let proto := match sec_websocket_protocol req with
               | Some p => p
               | None => []
               end in
  let parts := map trim (split_on 44 proto) in
  match parts !! 2%nat with
  | Some token => token
  | None => []
  end.

Definition authOk (req : Request) (ws : conn) : B bool :=
  s ← get;
  let secret := env_or (BRIDGE_JWT_SECRET s) (lit "dev-secret") in
  if jwt_verify (now s) (bearer_token req) secret then mret true
  else ws_close ws 4001 (lit "unauthorized");; mret false.

(** [getPageInfo]. *)
Definition getPageInfo (tabId : jsstring) : B resdata :=
  w ← gets window;
  let tab := if nonempty tabId then getTab w tabId else activeTab w in
  match tab with
  | None => throw (ThrownError (lit "Error") (lit "No tab"))
  | Some t =>
      let info := getInfoForTab t in
      mret (PageData (title info) (url info) 200 (summary info) (links info))
  end.

Definition arg (msg : BridgeCommand) (k : jsstring) : option jsval :=
  cmd_args msg ≫= (fun m => m !! k).

Definition page_chat_text (data : resdata) : jsstring :=
  match data with
  | PageData ttl _ _ contentSummary _ =>
      default (lit "(untitled)") ttl ++ lit " " ++ em_dash ++ lit " "
        ++ slice0 140 contentSummary ++ ellipsis
  | EmptyData => []
  end.

Definition ok_response (msg : BridgeCommand) (data : resdata) : BridgeResponse :=
  {| res_v := 1; res_id := cmd_id msg; res_ok := true;
     res_data := Some data; res_error := None |}.

Definition error_response (msg : BridgeCommand) (err : jsstring) : BridgeResponse :=
  {| res_v := 1; res_id := cmd_id msg; res_ok := false;
     res_data := None; res_error := Some err |}.

(** The body of the [try] block of [handleCmd]. *)
Definition handleCmd_body (msg : BridgeCommand) (ws : conn) : B unit :=
  if bool_decide (cmd_name msg = lit "getPageInfo") then
    data ← getPageInfo (string_or_empty (arg msg (lit "tabId")));
    send ws (ok_response msg data);;
    emitChat Browser (page_chat_text data)
  else if bool_decide (cmd_name msg = lit "setFeature") then
    let key := string_or_empty (arg msg (lit "key")) in
    when (bool_decide (key = lit "offlineMode"))
      (let value := truthy (arg msg (lit "value")) in
       _ ← call_llm (llm_setOfflineMode value);
       emitEvent (lit "featureState") (FeatureState value));;
    send ws (ok_response msg EmptyData)
  else if bool_decide (cmd_name msg = lit "sendChat") then
    let text := string_or_empty (arg msg (lit "text")) in
    t ← gets now;
    let messageId := lit "ws-" ++ dec t in
    emitChat User text;;
    call_llm (llm_sendChatMessage text messageId);;
    send ws (ok_response msg EmptyData)
  else
    send ws (error_response msg (lit "Unknown command")).

Definition handleCmd (msg : BridgeCommand) (ws : conn) : B unit :=
  try_catch (handleCmd_body msg ws)
    (fun e => send ws (error_response msg (describe_thrown (lit "error") e))).

(** [onMessage]. *)
Definition onMessage (ws : conn) (raw : inbound) : B unit :=
  match raw with
  | Cmd msg => handleCmd msg ws
  | NotCmd | Unparseable => mret tt
  end.

(** The ["connection"] listener installed by [start]. *)
Definition onConnection (ws : conn) (req : Request) : B unit :=
  modify (with_ready (fun r => {[ws]} ∪ r));;
  ok ← authOk req ws;
  if negb ok then mret tt
  else
    modify (with_clients (set_add ws));;
    modify (with_alive (fun m => <[ws := true]> m));;
    modify (with_listening (fun r => {[ws]} ∪ r));;
    modify (fun s => with_llm (llm_removeQrMessages (llm s)) s);;
    notifyRendererConnected true;;
    w ← gets window;
    match activeTab w with
    | Some active => broadcastActiveTab (tab_url active) (tab_id active)
    | None => mret tt
    end.

(** The ["pong"] and ["close"] listeners of an admitted socket. *)
Definition onPong (ws : conn) : B unit :=
  modify (with_alive (fun m => <[ws := true]> m)).

Definition onClose (ws : conn) : B unit :=
  modify (with_clients (set_delete ws));;
  s ← get;
  when (bool_decide (length (clients s) = 0%nat)) (notifyRendererConnected false).

(** One round of the heartbeat timer. *)
Definition heartbeat_one (ws : conn) : B unit :=
  s ← get;
  if bool_decide (connectionAlive s !! ws = Some false) then
    ws_terminate ws;;
    modify (with_clients (set_delete ws))
  else
    modify (with_alive (fun m => <[ws := false]> m));;
    ws_ping ws.

Definition heartbeat : B unit :=
  s ← get;
  for_each (clients s) heartbeat_one.

(** The event loop: one listener runs per event.  The listeners of a
    socket exist only once it was admitted. *)
Definition step (ev : event) : B unit :=
  match ev with
  | Connection ws req => onConnection ws req
  | Pong ws =>
      s ← get; when (bool_decide (ws ∈ listening s)) (onPong ws)
  | Message ws raw =>
      s ← get; when (bool_decide (ws ∈ listening s)) (onMessage ws raw)
  | Close ws =>
      modify (with_ready (fun r => r ∖ {[ws]}));;
      s ← get; when (bool_decide (ws ∈ listening s)) (onClose ws)
  | Tick => heartbeat
  | ClockAdvance t => modify (with_now t)
  end.

Definition run (evs : list event) : B unit := for_each evs step.

(** The responses written to one socket, in order. *)
Definition responses_to (ws : conn) (es : list effect) : list BridgeResponse :=
  omap (fun e => match e with
                 | WsSend c (ResFrame r) => if bool_decide (c = ws) then Some r else None
                 | _ => None
                 end) es.

(** Vocabulary of the statements below. *)

(** A frame that is broadcast: a chat or an event frame. *)
Definition broadcast (e : effect) : Prop :=
  match e with
  | WsSend _ (ChatFrame _ _ _ _) | WsSend _ (EvtFrame _ _ _) => True
  | _ => False
  end.

(** The connection table: who is active, who is alive, which sockets
    have listeners and which are open. *)
Definition sockets (s : Server) : list conn * gmap nat bool * gset nat * gset nat :=
  (clients s, connectionAlive s, listening s, ready s).

Definition secret_of (s : Server) : jsstring :=
  env_or (BRIDGE_JWT_SECRET s) (lit "dev-secret").

Definition known_command (name : jsstring) : bool :=
  bool_decide (name = lit "getPageInfo") || bool_decide (name = lit "setFeature")
  || bool_decide (name = lit "sendChat").

(** Along the run of [evs] from [s], every handshake of [ws] carries a
    token that [jwt.verify] refuses at the time it is presented. *)
Fixpoint always_refused (ws : conn) (evs : list event) (s : Server) : Prop :=
  match evs with
  | [] => True
  | ev :: evs' =>
      match ev with
      | Connection ws' req =>
          ws' = ws -> jwt_verify (now s) (bearer_token req) (secret_of s) = false
      | _ => True
      end /\ always_refused ws evs' (state_of (step ev s))
  end.

(** [ws] is not active, or it has not answered the last probe. *)
Definition stale (ws : conn) (s : Server) : Prop :=
  ws ∉ clients s \/ connectionAlive s !! ws = Some false.

(** No pong of [ws] and no new handshake of [ws] among [evs]. *)
Definition silent (ws : conn) (evs : list event) : Prop :=
  Forall (fun ev => match ev with
                    | Pong ws' | Connection ws' _ => ws' ≠ ws
                    | _ => True
                    end) evs.

End Server.

Arguments Server L : clear implicits.
Arguments set_add ws l : simpl never.
Arguments set_delete ws l : simpl never.
End Bridge.


(** ** Provider selection ([llm/ModelManager.ts]) *)

Module ModelManager.
Import JS.

Inductive OnlineProvider := openai | anthropic.

Inductive LLMProvider :=
| Online (p : OnlineProvider)
| Apple.

(** A model handle, as returned by [openai(name)], [anthropic(name)]
    or [createAppleLanguageModel()]. *)
Inductive LanguageModel :=
| OpenAIModel (name : jsstring)
| AnthropicModel (name : jsstring)
| AppleModel.

Record AppleAvailability := { available : bool; reason : jsstring }.

(** What the manager reads from its surroundings at the time of a
    call: [process.env], the answer of [checkAppleAvailability()]
    (which never rejects) and the outcome of
    [createAppleLanguageModel()]. *)
Record Env := {
  LLM_PROVIDER : option jsstring;
  LLM_MODEL : option jsstring;
  OFFLINE_MODE : option jsstring;
  OPENAI_API_KEY : option jsstring;
  ANTHROPIC_API_KEY : option jsstring;
  checkAppleAvailability : AppleAvailability;
  createAppleLanguageModel : outcome LanguageModel;
}.

Record State := {
  baseOnlineProvider : OnlineProvider;
  provider : LLMProvider;
  modelName : option jsstring;
  model : option LanguageModel;
  offlineMode : bool;
  appleAvailabilityChecked : bool;
  appleAvailable : bool;
  appleUnavailableReason : option jsstring;
}.

Definition DEFAULT_MODELS (p : OnlineProvider) : jsstring :=
  match p with
  | openai => lit "gpt-4o-mini"
  | anthropic => lit "claude-3-5-sonnet-20241022"
  end.

(** [(process.env.X || "").toLowerCase()]. *)
Definition env_lower (v : option jsstring) : jsstring :=
  toLowerCase (env_or v []).

Definition getBaseOnlineProvider (env : Env) : OnlineProvider :=
  if bool_decide (env_lower (LLM_PROVIDER env) = lit "anthropic")
  then anthropic else openai.

Definition getInitialOfflineMode (env : Env) : bool :=
  let fromEnv := env_lower (OFFLINE_MODE env) in
  let providerEnv := env_lower (LLM_PROVIDER env) in
  bool_decide (fromEnv = lit "1") || bool_decide (fromEnv = lit "true")
  || bool_decide (providerEnv = lit "apple").

Definition getModelName (env : Env) (st : State) : option jsstring :=
  match provider st with
  | Apple => None
  | Online _ => Some (env_or (LLM_MODEL env) (DEFAULT_MODELS (baseOnlineProvider st)))
  end.

Definition getApiKey (env : Env) (base : OnlineProvider) : option jsstring :=
  match base with
  | anthropic => ANTHROPIC_API_KEY env
  | openai => OPENAI_API_KEY env
  end.

Definition set_provider (p : LLMProvider) (st : State) : State :=
  {| baseOnlineProvider := baseOnlineProvider st; provider := p;
     modelName := modelName st; model := model st;
     offlineMode := offlineMode st;
     appleAvailabilityChecked := appleAvailabilityChecked st;
     appleAvailable := appleAvailable st;
     appleUnavailableReason := appleUnavailableReason st |}.

Definition set_modelName (n : option jsstring) (st : State) : State :=
  {| baseOnlineProvider := baseOnlineProvider st; provider := provider st;
     modelName := n; model := model st;
     offlineMode := offlineMode st;
     appleAvailabilityChecked := appleAvailabilityChecked st;
     appleAvailable := appleAvailable st;
     appleUnavailableReason := appleUnavailableReason st |}.

Definition set_model (m : option LanguageModel) (st : State) : State :=
  {| baseOnlineProvider := baseOnlineProvider st; provider := provider st;
     modelName := modelName st; model := m;
     offlineMode := offlineMode st;
     appleAvailabilityChecked := appleAvailabilityChecked st;
     appleAvailable := appleAvailable st;
     appleUnavailableReason := appleUnavailableReason st |}.

Definition set_offlineMode (b : bool) (st : State) : State :=
  {| baseOnlineProvider := baseOnlineProvider st; provider := provider st;
     modelName := modelName st; model := model st;
     offlineMode := b;
     appleAvailabilityChecked := appleAvailabilityChecked st;
     appleAvailable := appleAvailable st;
     appleUnavailableReason := appleUnavailableReason st |}.

Definition set_apple (checked avail : bool) (why : option jsstring) (st : State)
  : State :=
  {| baseOnlineProvider := baseOnlineProvider st; provider := provider st;
     modelName := modelName st; model := model st;
     offlineMode := offlineMode st;
     appleAvailabilityChecked := checked;
     appleAvailable := avail;
     appleUnavailableReason := why |}.

(** [(e as Error)?.message || dflt]. *)
Definition message_or (dflt : jsstring) (e : thrown) : jsstring :=
  match e with
  | ThrownError _ (c :: m) => c :: m
  | _ => dflt
  end.

(** [initializeModel]. *)
Definition initializeModel (env : Env) (st : State) : State :=
  match provider st with
  | Apple =>
      let st1 :=
        if appleAvailabilityChecked st then st
        else
          let availability := checkAppleAvailability env in
          set_apple true (available availability)
            (Page.or_null (reason availability)) st in
      if negb (appleAvailable st1) then set_model None st1
      else
        match createAppleLanguageModel env with
        | Returns m => set_model (Some m) st1
        | Throws e =>
            set_apple (appleAvailabilityChecked st1) false
              (Some (lit "load-failed:" ++ message_or (lit "unknown") e))
              (set_model None st1)
        end
  | Online _ =>
      match getApiKey env (baseOnlineProvider st) with
      | Some (c :: k) =>
          let name p := match modelName st with
                        | Some (d :: n) => d :: n
                        | _ => DEFAULT_MODELS p
                        end in
          match baseOnlineProvider st with
          | anthropic => set_model (Some (AnthropicModel (name anthropic))) st
          | openai => set_model (Some (OpenAIModel (name openai))) st
          end
      | _ => set_model None st
      end
  end.

(** The constructor, and [init]. *)
Definition new (env : Env) : State :=
  let base := getBaseOnlineProvider env in
  let offline := getInitialOfflineMode env in
  let st := {| baseOnlineProvider := base;
               provider := if offline then Apple else Online base;
               modelName := None; model := None; offlineMode := offline;
               appleAvailabilityChecked := false; appleAvailable := false;
               appleUnavailableReason := None |} in
  set_modelName (getModelName env st) st.

Definition init (env : Env) (st : State) : State := initializeModel env st.

(** Select a provider, recompute the model name, build the handle. *)
Definition switch_to (p : LLMProvider) (env : Env) (st : State) : State :=
  let st1 := set_provider p st in
  let st2 := set_modelName (getModelName env st1) st1 in
  initializeModel env st2.
Arguments switch_to p env st : simpl never.

(** [setOfflineMode]: the resolved value and the state left behind. *)
Definition setOfflineMode (enabled : bool) (env : Env) (st : State) : bool * State :=
  if Bool.eqb (offlineMode st) enabled then (offlineMode st, st)
  else if enabled then
    let st1 := switch_to Apple env st in
    match model st1 with
    | None =>
        let st2 := switch_to (Online (baseOnlineProvider st1)) env st1 in
        (false, set_offlineMode false st2)
    | Some _ => (true, set_offlineMode true st1)
    end
  else
    let st1 := switch_to (Online (baseOnlineProvider st)) env st in
    (false, set_offlineMode false st1).

(** Vocabulary of the statements below. *)

(** What the manager will take Apple's availability to be: the cached
    answer once the check has run, the answer of the check otherwise. *)
Definition apple_reported_available (env : Env) (st : State) : bool :=
  if appleAvailabilityChecked st then appleAvailable st
  else available (checkAppleAvailability env).

(** The on-device provider cannot be brought up: it is reported
    unavailable, or creating its model raises. *)
Definition apple_unavailable (env : Env) (st : State) : Prop :=
  apple_reported_available env st = false
  \/ exists e, createAppleLanguageModel env = Throws e.

(** The reason that ends up recorded in that case. *)
Definition unavailability_reason (env : Env) (st : State) : option jsstring :=
  if apple_reported_available env st then
    match createAppleLanguageModel env with
    | Throws e => Some (lit "load-failed:" ++ message_or (lit "unknown") e)
    | Returns _ => appleUnavailableReason st
    end
  else if appleAvailabilityChecked st then appleUnavailableReason st
  else Page.or_null (reason (checkAppleAvailability env)).

(** The manager's mode and provider agree. *)
Definition coherent (st : State) : Prop :=
  offlineMode st = true <-> provider st = Apple.

End ModelManager.

(** ** The orchestrator's view of the outside world *)

Module Orch.
Import JS Page Frames ModelManager.

Inductive MsgRole := system | user | assistant.

Inductive Part :=
| TextPart (text : jsstring)
| ImagePart
| OtherPart.

(** The content of a [CoreMessage]: a string or an array of parts. *)
Inductive Content :=
| Text (s : jsstring)
| Parts (ps : list Part).

Record CoreMessage := { role : MsgRole; content : Content }.

(** [String(content || "")]. *)
Definition content_String (c : Content) : jsstring :=
  match c with
  | Text s => s
  | Parts ps => join (lit ",") (map (fun _ => lit "[object Object]") ps)
  end.

Inductive call_site :=
| Primary         (* the generation call of a turn *)
| FollowUp        (* the tool-free follow-up of [sendChatMessage] *)
| LocaleRetry.    (* the retry started by [handleStreamError] *)

Inductive inspector_op :=
| OpenUrl (u : jsstring)
| ActivePage.

Inductive view := TopBar | Sidebar.

(** Everything the orchestrator does that can be observed from
    outside, in program order. *)
Inductive effect :=
| ChatMessagesUpdated (msgs : list CoreMessage)
| ChatResponse (messageId content : jsstring) (isComplete : bool)
| OfflineModeUpdated (target : view) (enabled : bool)
| ToBridge (e : emission)
| ProviderCall (site : call_site) (p : LLMProvider)
| ToolRun (name : jsstring)
| PageInspection (op : inspector_op).

End Orch.

(** ** The conversation log ([chat/MessageStore.ts]) *)

Module MessageStore.
Import JS Eff Frames Orch.

Record Store := {
  messages : list CoreMessage;
  streamingIndex : option nat;
  bridge : bool;
}.

Definition with_messages (f : list CoreMessage -> list CoreMessage) (s : Store) : Store :=
  {| messages := f (messages s); streamingIndex := streamingIndex s;
     bridge := bridge s |}.

Definition with_streamingIndex (i : option nat) (s : Store) : Store :=
  {| messages := messages s; streamingIndex := i; bridge := bridge s |}.


Local Abbreviation S := (M Store effect) (only parsing).

Definition new : Store :=
  {| messages := []; streamingIndex := None; bridge := false |}.

Definition emitToRenderer : S unit :=
  s ← get; emit (ChatMessagesUpdated (messages s)).

Definition bridgeSafeChat (text : jsstring) : S unit :=
  s ← get; when (bridge s) (emit (ToBridge (EmitChat Assistant text))).

Definition getAll : S (list CoreMessage) := gets messages.

Definition setAll (msgs : list CoreMessage) : S unit :=
  modify (with_messages (fun _ => msgs));; emitToRenderer.


Definition clear : S unit :=
  modify (with_messages (fun _ => []));; emitToRenderer.

Definition push (m : CoreMessage) : S unit :=
  modify (with_messages (fun ms => ms ++ [m])).

Definition addAssistant (c : jsstring) : S unit :=
  push {| role := assistant; content := Text c |};; emitToRenderer.

Definition addUser (c : Content) : S unit :=
  push {| role := user; content := c |};; emitToRenderer.

Definition beginStream (firstChunk : jsstring) : S unit :=
  s ← get;
  modify (with_streamingIndex (Some (length (messages s))));;
  push {| role := assistant; content := Text firstChunk |};;
  emitToRenderer;;
  bridgeSafeChat firstChunk.

(** Reading [.content] of a missing array element raises. *)
Definition undefined_content : thrown :=
  ThrownError (lit "TypeError")
    (lit "Cannot read properties of undefined (reading 'content')").

Definition appendStream (chunk : jsstring) : S unit :=
  s ← get;
  match streamingIndex s with
  | None => beginStream chunk
  | Some i =>
      match messages s !! i with
      | None => throw undefined_content
      | Some m =>
          let prev := content_String (content m) in
          let next := prev ++ chunk in
          modify (with_messages
                    (fun ms => <[i := {| role := assistant; content := Text next |}]> ms));;
          emitToRenderer;;
          bridgeSafeChat chunk
      end
  end.

Definition endStream : S unit :=
  modify (with_streamingIndex None);; emitToRenderer.

(** [appendStream(c1); ...; appendStream(cN)]. *)
Definition appendAll (chunks : list jsstring) : S unit :=
  for_each chunks appendStream.

(** [beginStream(c0); appendStream(c1); ...; appendStream(cN); endStream()]. *)
Definition streamAll (c0 : jsstring) (chunks : list jsstring) : S unit :=
  beginStream c0;; appendAll chunks;; endStream.

(** Vocabulary of the statements below. *)

Definition streamed (text : jsstring) : CoreMessage :=
  {| role := assistant; content := Text text |}.

(** The open slot: the last message, with the text streamed so far. *)
Definition open_slot (pre : list CoreMessage) (acc : jsstring) (s : Store) : Prop :=
  messages s = pre ++ [streamed acc] /\ streamingIndex s = Some (length pre).

End MessageStore.

(** ** Stream consumption ([llm/Streamer.ts]) *)

Module Streamer.
Import JS Eff Orch MessageStore.

(** The loop variables of [consume]. *)
Record Loop := { finalText : jsstring; first : bool }.

Definition start : Loop := {| finalText := []; first := true |}.

(** One iteration of the [for await] loop of [consume]. *)
Definition consume_chunk (chunk : jsstring) (l : Loop) : M Store effect Loop :=
  if negb (nonempty chunk) then mret l
  else
    let l' := {| finalText := finalText l ++ chunk; first := false |} in
    (if first l then beginStream chunk else appendStream chunk);;
    mret l'.

(** After the loop. *)
Definition consume_end (l : Loop) : M Store effect jsstring :=
  (if negb (first l) then endStream else mret tt);;
  mret (finalText l).

Fixpoint consume_loop (chunks : list jsstring) (l : Loop) : M Store effect Loop :=
  match chunks with
  | [] => mret l
  | c :: chunks' => l' ← consume_chunk c l; consume_loop chunks' l'
  end.

(** [consume]: the stream yields [chunks] and then ends, or rejects
    with [failure]. *)
Definition consume (chunks : list jsstring) (failure : option thrown)
  : M Store effect jsstring :=
  l ← consume_loop chunks start;
  match failure with
  | Some e => throw e
  | None => consume_end l
  end.

(** The loop invariant of [consume]: nothing was streamed yet, or the
    text so far sits in the open slot. *)
Definition consuming (pre : list CoreMessage) (l : Loop) (s : Store) : Prop :=
  if first l then finalText l = [] /\ messages s = pre
  else finalText l ≠ [] /\ open_slot pre (finalText l) s.

End Streamer.

(** ** Tools ([llm/Tools.ts]) *)

Module Tools.
Import JS Page Frames.

(** The two operations of [PageInspector] that the tools use, as they
    answer at the time of the call. *)
Record Inspector := {
  openUrlAndGetInfo : jsstring -> outcome PageInfo;
  getActivePageInfo : outcome PageInfo;
}.

(** What a tool handler does, in order: calls to the [emit] callback,
    the inspector operation it runs, the call to [setLast]. *)
Inductive action :=
| Emit (name : jsstring) (data : evtdata)
| Execute (op : Orch.inspector_op)
| SetLast (info : PageInfo).

(** What the handler resolves to: the page info, or [{ error }]. *)
Inductive tool_return :=
| PageResult (info : PageInfo)
| ErrorObject (error : jsstring).

Inductive bundle := AiSdk | Native.

Inductive tool := open_url | get_page_info.

Definition tool_name (t : tool) : jsstring :=
  match t with
  | open_url => lit "open_url"
  | get_page_info => lit "get_page_info"
  end.

(** The [result] member of a [toolResult] event. *)
Definition result_payload (b : bundle) (info : PageInfo) : ToolResultPayload :=
  match b with
  | AiSdk =>
      {| tr_title := title info; tr_url := url info;
         tr_linksCount := length (links info);
         tr_summaryShort := None; tr_links := None |}
  | Native =>
      {| tr_title := title info; tr_url := url info;
         tr_linksCount := length (links info);
         tr_summaryShort := Some (slice0 300 (summary info));
         tr_links := Some (slice0 8 (links info)) |}
  end.

Definition failed (e : thrown) : tool_return :=
  ErrorObject (describe_thrown (lit "failed") e).

(** The [execute]/[handler] of [open_url], in either bundle. *)
Definition run_open_url (b : bundle) (inspector : Inspector) (u : jsstring)
  : list action * tool_return :=
  let call := Emit (lit "toolCall") (ToolCall (lit "open_url") (Some u)) in
  match openUrlAndGetInfo inspector u with
  | Returns info =>
      ([call; Execute (Orch.OpenUrl u); SetLast info;
        Emit (lit "toolResult") (ToolResult (lit "open_url") (result_payload b info))],
       PageResult info)
  | Throws e => ([call; Execute (Orch.OpenUrl u)], failed e)
  end.

(** The [execute]/[handler] of [get_page_info], in either bundle. *)
Definition run_get_page_info (b : bundle) (inspector : Inspector)
  : list action * tool_return :=
  match getActivePageInfo inspector with
  | Returns info =>
      ([Execute Orch.ActivePage; SetLast info;
        Emit (lit "toolResult")
          (ToolResult (lit "get_page_info") (result_payload b info))],
       PageResult info)
  | Throws e => ([Execute Orch.ActivePage], failed e)
  end.

(** One invocation: the tool and, for [open_url], its [url] input. *)
Inductive invocation :=
| InvokeOpenUrl (u : jsstring)
| InvokeGetPageInfo.

Definition tool_of (i : invocation) : tool :=
  match i with
  | InvokeOpenUrl _ => open_url
  | InvokeGetPageInfo => get_page_info
  end.

Definition op_of (i : invocation) : Orch.inspector_op :=
  match i with
  | InvokeOpenUrl u => Orch.OpenUrl u
  | InvokeGetPageInfo => Orch.ActivePage
  end.

Definition invoke (b : bundle) (inspector : Inspector) (i : invocation)
  : list action * tool_return :=
  match i with
  | InvokeOpenUrl u => run_open_url b inspector u
  | InvokeGetPageInfo => run_get_page_info b inspector
  end.

(** Vocabulary of the statements below. *)

Definition is_toolCall (t : tool) (a : action) : bool :=
  match a with
  | Emit name (ToolCall n _) =>
      bool_decide (name = lit "toolCall") && bool_decide (n = tool_name t)
  | _ => false
  end.

Definition is_toolResult (t : tool) (a : action) : bool :=
  match a with
  | Emit name (ToolResult n _) =>
      bool_decide (name = lit "toolResult") && bool_decide (n = tool_name t)
  | _ => false
  end.

(** What the inspector answers to an invocation. *)
Definition inspector_answer (inspector : Inspector) (i : invocation)
  : outcome PageInfo :=
  match i with
  | InvokeOpenUrl u => openUrlAndGetInfo inspector u
  | InvokeGetPageInfo => getActivePageInfo inspector
  end.

(** The size limits of a [toolResult] payload. *)
Definition size_limited (p : ToolResultPayload) : Prop :=
  match tr_summaryShort p with Some sm => length sm <= 300 | None => True end /\
  match tr_links p with Some ls => length ls <= 8 | None => True end.

End Tools.

(** ** The orchestrator ([LLMClient.ts]) *)

Module LLMClient.
Import JS Eff Page Frames Orch ModelManager MessageStore Streamer Regex.

Record ChatRequest := { message : jsstring; messageId : jsstring }.

(** What a provider does during one generation call: it yields text
    chunks and invokes tools, then the stream ends or rejects. *)
Inductive gen_action :=
| Yield (chunk : jsstring)
| CallTool (i : Tools.invocation).

Record Generation := { actions : list gen_action; failure : option thrown }.

(** The surroundings of the orchestrator: [process.env] and the Apple
    SDK as [ModelManager] sees them, the answer of the connectivity
    probe [isOnline()], what [window.createTab(url)] gives, and the
    behaviour of the providers in the generation calls still to come. *)
Record World := {
  env : Env;
  online : bool;
  createTab : jsstring -> outcome Tab;
  pending : list Generation;
}.

Definition with_pending (p : list Generation) (w : World) : World :=
  {| env := env w; online := online w; createTab := createTab w; pending := p |}.

Record Window := { activeTab : option Tab }.

Record Client := {
  manager : ModelManager.State;
  messageStore : Store;
  lastToolResult : option PageInfo;
  baseOnlineProvider : OnlineProvider;
  provider : LLMProvider;
  modelName : option jsstring;
  model : option LanguageModel;
  messages : list CoreMessage;
  offlineMode : bool;
  appleAvailable : bool;
  appleUnavailableReason : option jsstring;
  didAppleLocaleFallback : bool;
  bridgeEmitter : bool;
  window : option Window;
  world : World;
}.

Definition with_manager (m : ModelManager.State) (c : Client) : Client :=
  {| manager := m; messageStore := messageStore c;
     lastToolResult := lastToolResult c;
     baseOnlineProvider := baseOnlineProvider c; provider := provider c;
     modelName := modelName c; model := model c; messages := messages c;
     offlineMode := offlineMode c; appleAvailable := appleAvailable c;
     appleUnavailableReason := appleUnavailableReason c;
     didAppleLocaleFallback := didAppleLocaleFallback c;
     bridgeEmitter := bridgeEmitter c; window := window c; world := world c |}.

Definition with_store (st : Store) (c : Client) : Client :=
  {| manager := manager c; messageStore := st;
     lastToolResult := lastToolResult c;
     baseOnlineProvider := baseOnlineProvider c; provider := provider c;
     modelName := modelName c; model := model c; messages := messages c;
     offlineMode := offlineMode c; appleAvailable := appleAvailable c;
     appleUnavailableReason := appleUnavailableReason c;
     didAppleLocaleFallback := didAppleLocaleFallback c;
     bridgeEmitter := bridgeEmitter c; window := window c; world := world c |}.

Definition with_lastToolResult (r : option PageInfo) (c : Client) : Client :=
  {| manager := manager c; messageStore := messageStore c;
     lastToolResult := r; baseOnlineProvider := baseOnlineProvider c;
     provider := provider c; modelName := modelName c; model := model c;
     messages := messages c; offlineMode := offlineMode c;
     appleAvailable := appleAvailable c;
     appleUnavailableReason := appleUnavailableReason c;
     didAppleLocaleFallback := didAppleLocaleFallback c;
     bridgeEmitter := bridgeEmitter c; window := window c; world := world c |}.

Definition with_legacy_messages (ms : list CoreMessage) (c : Client) : Client :=
  {| manager := manager c; messageStore := messageStore c;
     lastToolResult := lastToolResult c;
     baseOnlineProvider := baseOnlineProvider c; provider := provider c;
     modelName := modelName c; model := model c; messages := ms;
     offlineMode := offlineMode c; appleAvailable := appleAvailable c;
     appleUnavailableReason := appleUnavailableReason c;
     didAppleLocaleFallback := didAppleLocaleFallback c;
     bridgeEmitter := bridgeEmitter c; window := window c; world := world c |}.

Definition with_fallback_flag (b : bool) (c : Client) : Client :=
  {| manager := manager c; messageStore := messageStore c;
     lastToolResult := lastToolResult c;
     baseOnlineProvider := baseOnlineProvider c; provider := provider c;
     modelName := modelName c; model := model c; messages := messages c;
     offlineMode := offlineMode c; appleAvailable := appleAvailable c;
     appleUnavailableReason := appleUnavailableReason c;
     didAppleLocaleFallback := b; bridgeEmitter := bridgeEmitter c;
     window := window c; world := world c |}.


Definition with_window (w : option Window) (c : Client) : Client :=
  {| manager := manager c; messageStore := messageStore c;
     lastToolResult := lastToolResult c;
     baseOnlineProvider := baseOnlineProvider c; provider := provider c;
     modelName := modelName c; model := model c; messages := messages c;
     offlineMode := offlineMode c; appleAvailable := appleAvailable c;
     appleUnavailableReason := appleUnavailableReason c;
     didAppleLocaleFallback := didAppleLocaleFallback c;
     bridgeEmitter := bridgeEmitter c; window := w; world := world c |}.

Definition with_world (w : World) (c : Client) : Client :=
  {| manager := manager c; messageStore := messageStore c;
     lastToolResult := lastToolResult c;
     baseOnlineProvider := baseOnlineProvider c; provider := provider c;
     modelName := modelName c; model := model c; messages := messages c;
     offlineMode := offlineMode c; appleAvailable := appleAvailable c;
     appleUnavailableReason := appleUnavailableReason c;
     didAppleLocaleFallback := didAppleLocaleFallback c;
     bridgeEmitter := bridgeEmitter c; window := window c; world := w |}.


Local Abbreviation C := (M Client effect) (only parsing).

Definition is_apple (p : LLMProvider) : bool :=
  match p with Apple => true | Online _ => false end.

(** A method call on the [MessageStore] owned by the client. *)
Definition on_store {A} (m : M Store effect A) : C A :=
  fun c =>
    let '(r, st, es) := m (messageStore c) in (r, with_store st c, es).

(** [this.bridgeEmitter?.emitChat(...)] and [?.emitEvent(...)]. *)
Definition toBridge (e : emission) : C unit :=
  c ← get; when (bridgeEmitter c) (emit (ToBridge e)).

(** The constructor, up to the point where it starts [init()]. *)
Definition new (w : World) : Client :=
  let base := getBaseOnlineProvider (env w) in
  let offline := getInitialOfflineMode (env w) in
  let p := if offline then Apple else Online base in
  {| manager := ModelManager.new (env w);
     messageStore := MessageStore.new;
     lastToolResult := None;
     baseOnlineProvider := base;
     provider := p;
     modelName := match p with
                  | Apple => None
                  | Online _ => Some (env_or (LLM_MODEL (env w)) (DEFAULT_MODELS base))
                  end;
     model := None;
     messages := [];
     offlineMode := offline;
     appleAvailable := false;
     appleUnavailableReason := None;
     didAppleLocaleFallback := false;
     bridgeEmitter := false;
     window := None;
     world := w |}.

(** [syncFromManager]. *)
Definition syncFromManager : C unit :=
  modify (fun c =>
    let m := manager c in
    {| manager := m; messageStore := messageStore c;
       lastToolResult := lastToolResult c;
       baseOnlineProvider := baseOnlineProvider c;
       provider := ModelManager.provider m;
       modelName := getModelName (env (world c)) m;
       model := ModelManager.model m;
       messages := messages c;
       offlineMode := ModelManager.offlineMode m;
       appleAvailable := match ModelManager.model m with Some _ => true | None => false end;
       appleUnavailableReason := ModelManager.appleUnavailableReason m;
       didAppleLocaleFallback := didAppleLocaleFallback c;
       bridgeEmitter := bridgeEmitter c; window := window c; world := world c |}).

(** The continuation of [modelManager.init()] in the constructor. *)
Definition initialized (w : World) : Client :=
  let c := new w in
  state_of (syncFromManager (with_manager (ModelManager.init (env w) (manager c)) c)).

Definition setWindow (w : Window) : C unit := modify (with_window (Some w)).


Definition setOfflineMode (enabled : bool) : C bool :=
  c ← get;
  let '(r, m) := ModelManager.setOfflineMode enabled (env (world c)) (manager c) in
  modify (with_manager m);;
  syncFromManager;;
  mret r.

Definition getApiKey (c : Client) : option jsstring :=
  ModelManager.getApiKey (env (world c)) (baseOnlineProvider c).

Definition addAssistantMessage (content : jsstring) : C unit :=
  on_store (addAssistant content).

Definition sendStreamChunk (messageId content : jsstring) (isComplete : bool) : C unit :=
  emit (ChatResponse messageId content isComplete).

Definition sendErrorMessage (messageId errorMessage : jsstring) : C unit :=
  sendStreamChunk messageId errorMessage true.

Definition broadcastOfflineMode (enabled : bool) : C unit :=
  c ← get;
  match window c with
  | None => mret tt
  | Some _ =>
      emit (OfflineModeUpdated TopBar enabled);;
      emit (OfflineModeUpdated Sidebar enabled);;
      toBridge (EmitEvent (lit "featureState") (FeatureState enabled))
  end.

Definition clearMessages : C unit := on_store clear.

(** [removeQrMessages]. *)
Definition is_qr_message (m : CoreMessage) : bool :=
  match role m, content m with
  | assistant, Text s => includes (lit "data:image/png;base64") s
  | _, _ => false
  end.

Definition removeQrMessages : C unit :=
  on_store (ms ← getAll; setAll (filter (fun m => negb (is_qr_message m)) ms)).

(** [sendMessagesToRenderer]. *)
Definition sendMessagesToRenderer : C unit :=
  on_store (ms ← getAll; setAll ms).

(** [detectWhatPageQuestion]. *)
Definition what_page_patterns : list (list atom) :=
  [ phrase ["what"; "page"; "am"; "i"; "on"]%string;
    phrase ["what"; "page"; "am"; "i"; "on"]%string ++ [Chr 63];
    phrase ["what"; "page"; "am"; "i"; "on"]%string ++ [Boundary];
    phrase ["what"; "page"; "is"; "this"]%string;
    phrase ["which"; "page"; "am"; "i"; "on"]%string;
    phrase ["what"; "site"; "am"; "i"; "on"]%string;
    phrase ["what"; "url"; "am"; "i"; "on"]%string;
    phrase ["what"; "apge"; "am"; "i"; "on"]%string ].

Definition detectWhatPageQuestion (text : jsstring) : bool :=
  let lower := toLowerCase text in
  existsb (fun re => test false [re] lower) what_page_patterns.

(** [extractLastUserText]. *)
Definition first_text_part (ps : list Part) : jsstring :=
  match List.find (fun p => match p with TextPart _ => true | _ => false end) ps with
  | Some (TextPart t) => t
  | _ => []
  end.

Fixpoint last_user_text (rev_msgs : list CoreMessage) : jsstring :=
  match rev_msgs with
  | [] => []
  | m :: rest =>
      match role m with
      | user =>
          match content m with
          | Text s => s
          | Parts ps => first_text_part ps
          end
      | _ => last_user_text rest
      end
  end.

Definition extractLastUserText (c : Client) : jsstring :=
  last_user_text (rev (MessageStore.messages (messageStore c))).

(** The two patterns of the on-device navigation shortcut. *)
Definition url_pattern : list (list atom) :=
  [ word "http" ++ [OptChr 115] ++ word "://" ++ [NonSpaces] ].

Definition wants_open_pattern : list (list atom) :=
  [ Boundary :: word "open" ++ [Boundary];
    Boundary :: word "visit" ++ [Boundary];
    Boundary :: word "go to" ++ [Boundary];
    Boundary :: word "navigate" ++ [Boundary] ].

(** The locale failure of the on-device provider. *)
Definition locale_pattern : list (list atom) :=
  [ word "unsupported language"; word "unsupported locale"; word "locale was used" ].

Definition is_locale_error (e : thrown) : bool :=
  match e with
  | ThrownError _ msg => test true locale_pattern msg
  | _ => false
  end.

(** [getErrorMessage]. *)
Definition getErrorMessage (e : thrown) : jsstring :=
  match e with
  | ThrownError _ msg =>
      let m := toLowerCase msg in
      if includes (lit "unsupported language") m || includes (lit "unsupported locale") m
         || includes (lit "locale was used") m
      then lit "Apple on-device AI isn't available for your current macOS language/locale. Set System Language to a supported language (e.g., English) and ensure Apple Intelligence is enabled. Then retry."
      else if includes (lit "401") m || includes (lit "unauthorized") m
      then lit "Authentication error: Please check your API key in the .env file."
      else if includes (lit "429") m || includes (lit "rate limit") m
      then lit "Rate limit exceeded. Please try again in a few moments."
      else if includes (lit "network") m || includes (lit "fetch") m
              || includes (lit "econnrefused") m
      then lit "Network error: Please check your internet connection."
      else if includes (lit "timeout") m
      then lit "Request timeout: The service took too long to respond. Please try again."
      else lit "Sorry, I encountered an error while processing your request. Please try again."
  | _ => lit "An unexpected error occurred. Please try again."
  end.

(** The [PageInspector] of the client, over its window and world.
    Before [setWindow] there is none, and calling into it raises. *)
Definition no_inspector : thrown :=
  ThrownError (lit "TypeError") (lit "Cannot read properties of null").

Definition inspector_of (c : Client) : Tools.Inspector :=
  match window c with
  | Some w =>
      {| Tools.openUrlAndGetInfo :=
           fun u => Page.openUrlAndGetInfo (createTab (world c) u) u;
         Tools.getActivePageInfo := Returns (Page.getActivePageInfo (activeTab w)) |}
  | None =>
      {| Tools.openUrlAndGetInfo := fun _ => Throws no_inspector;
         Tools.getActivePageInfo := Throws no_inspector |}
  end.

(** The inspector at work: opening a URL makes the new tab the active
    one. *)
Definition inspect (op : inspector_op) : C unit :=
  emit (PageInspection op);;
  match op with
  | OpenUrl u =>
      modify (fun c =>
        match window c, createTab (world c) u with
        | Some _, Returns tab => with_window (Some {| activeTab := Some tab |}) c
        | _, _ => c
        end)
  | ActivePage => mret tt
  end.

(** The callbacks handed to [buildTools]/[buildNativeTools]. *)
Definition perform (a : Tools.action) : C unit :=
  match a with
  | Tools.Emit name data => toBridge (EmitEvent name data)
  | Tools.Execute op => inspect op
  | Tools.SetLast info => modify (with_lastToolResult (Some info))
  end.

Definition run_tool (b : Tools.bundle) (i : Tools.invocation) : C unit :=
  c ← get;
  emit (ToolRun (Tools.tool_name (Tools.tool_of i)));;
  for_each (Tools.invoke b (inspector_of c) i).1 perform.

(** One generation call: [streamText] or the native [chat], with or
    without tools, its text stream consumed by the [Streamer]. *)
Definition next_generation : C Generation :=
  c ← get;
  match pending (world c) with
  | g :: rest => modify (with_world (with_pending rest (world c)));; mret g
  | [] => mret {| actions := []; failure := None |}
  end.

Fixpoint play (tools : option Tools.bundle) (acts : list gen_action) (l : Loop)
  : C Loop :=
  match acts with
  | [] => mret l
  | Yield chunk :: acts' =>
      l' ← on_store (consume_chunk chunk l); play tools acts' l'
  | CallTool i :: acts' =>
      match tools with
      | Some b => run_tool b i
      | None => mret tt
      end;;
      play tools acts' l
  end.

Definition run_generation (tools : option Tools.bundle) : C jsstring :=
  g ← next_generation;
  l ← play tools (actions g) start;
  match failure g with
  | Some e => throw e
  | None => on_store (consume_end l)
  end.

Definition generate (site : call_site) (tools : option Tools.bundle) : C jsstring :=
  c ← get;
  emit (ProviderCall site (provider c));;
  run_generation tools.

(** [openUrlAndSummarize]. *)
Definition openUrlAndSummarize (u : jsstring) : C unit :=
  try_catch
    (c ← get;
     match window c with
     | None => mret tt
     | Some _ =>
         inspect (OpenUrl u);;
         info ← lift_outcome (Tools.openUrlAndGetInfo (inspector_of c) u);
         let ttl := env_or (title info) (lit "(untitled)") in
         let sm := join (lit " ") (slice0 80 (split_ws (summary info))) in
         let lines :=
           [lit "Opened " ++ u; lit "Title: " ++ ttl;
            if nonempty sm then lit "Summary: " ++ sm ++ ellipsis else []] in
         let assistantMessage :=
           {| role := assistant;
              content := Text (join (lit (String (ascii_of_nat 10) EmptyString))
                                 (filter (fun l => nonempty l = true) lines)) |} in
         modify (fun c => with_legacy_messages (messages c ++ [assistantMessage]) c);;
         sendMessagesToRenderer;;
         toBridge (EmitEvent (lit "pageOpened") (PageOpened u ttl));;
         when (nonempty sm)
           (toBridge (EmitChat Assistant
              (lit "Opened " ++ u ++ lit " " ++ em_dash ++ lit " "
               ++ slice0 140 sm ++ ellipsis)))
     end)
    (fun _ => addAssistantMessage (lit "Failed to open " ++ u)).

(** The preflight of a turn: without a key or without network, try to
    go offline. *)
Definition preflight : C unit :=
  c ← get;
  if is_apple (provider c) then mret tt
  else
    let haveKey := nonempty (env_or (getApiKey c) []) in
    if negb haveKey || negb (online (world c)) then
      switched ← setOfflineMode true;
      when switched (broadcastOfflineMode true)
    else mret tt.

Definition page_reply (c : Client) : jsstring :=
  match window c ≫= activeTab with
  | Some active =>
      lit "You are on: "
      ++ (if nonempty (tab_title active) then tab_title active else lit "(untitled)")
      ++ lit " " ++ em_dash ++ lit " "
      ++ (if nonempty (tab_url active) then tab_url active else lit "(no url)")
  | None => lit "There is no active tab right now."
  end.

Definition apple_unavailable_text : jsstring :=
  lit "Apple on-device AI is unavailable. Ensure macOS with Apple Intelligence is enabled.".

Definition has_model (c : Client) : bool :=
  match model c with Some _ => true | None => false end.

(** The generation part of a turn, reached with a model handle. *)
Definition converse : C unit :=
  c ← get;
  finalText ←
    (if is_apple (provider c) then generate Primary (Some Tools.Native)
     else generate Primary (Some Tools.AiSdk));
  c1 ← get;
  match lastToolResult c1 with
  | Some _ =>
      when (negb (nonempty (trim finalText)))
        (generate FollowUp None;;
         modify (with_lastToolResult None))
  | None => mret tt
  end.

(** The turn from the model check on: the configuration notice, the
    on-device navigation shortcut, or a generation. *)
Definition answer_with_model (request : ChatRequest) : C unit :=
  c ← get;
  if negb (has_model c) then
    sendErrorMessage (messageId request)
      (if is_apple (provider c) then lit "Apple on-device AI is unavailable."
       else lit "LLM service is not configured. Please add your API key to the .env file.")
  else
    let userText := extractLastUserText c in
    match (if is_apple (provider c) then exec true url_pattern userText else None) with
    | Some u =>
        if test true wants_open_pattern userText then openUrlAndSummarize u
        else converse
    | None => converse
    end.

(** The [try] block of [sendChatMessage].  The deterministic answer has
    a [try] of its own: were it to raise, the turn would go on to the
    model check. *)
Definition sendChatMessage_body (request : ChatRequest) : C unit :=
  on_store (addUser (Text (message request)));;
  toBridge (EmitChat User (message request));;
  preflight;;
  c ← get;
  if is_apple (provider c) && (negb (has_model c) || negb (appleAvailable c)) then
    addAssistantMessage apple_unavailable_text;;
    sendErrorMessage (messageId request) apple_unavailable_text
  else if detectWhatPageQuestion (message request) then
    answered ←
      try_catch
        (let reply := page_reply c in
         addAssistantMessage reply;;
         toBridge (EmitChat Assistant reply);;
         mret true)
        (fun _ => mret false);
    if answered : bool then mret tt else answer_with_model request
  else answer_with_model request.

(** [handleStreamError].  The retry runs in a detached [async] block;
    it is run to its end here. *)
Definition handleStreamError (e : thrown) (messageId : jsstring) : C unit :=
  c ← get;
  let errorMessage := getErrorMessage e in
  if is_apple (provider c) && negb (didAppleLocaleFallback c) && is_locale_error e then
    try_catch
      (modify (with_fallback_flag true);;
       addAssistantMessage
         (lit "Apple on-device AI is unavailable for this locale. Switching to online model...");;
       switched ← setOfflineMode false;
       c1 ← get;
       when (negb switched && negb (is_apple (provider c1))) (broadcastOfflineMode false);;
       if negb (has_model c1) then sendErrorMessage messageId errorMessage
       else
         finalText ← generate LocaleRetry (Some Tools.AiSdk);
         when (negb (nonempty finalText)) (sendErrorMessage messageId errorMessage))
      (fun _ => sendErrorMessage messageId errorMessage)
  else sendErrorMessage messageId errorMessage.

Definition sendChatMessage (request : ChatRequest) : C unit :=
  try_catch (sendChatMessage_body request)
    (fun e => handleStreamError e (messageId request)).

(** Vocabulary of the statements below. *)

Definition is_retry (e : effect) : bool :=
  match e with ProviderCall LocaleRetry _ => true | _ => false end.

(** The number of retries started against a provider in a trace. *)
Definition retries (es : list effect) : nat :=
  length (filter (fun e => is_retry e = true) es).
Arguments retries es : simpl never.

(** No generation call, no tool invocation, no page inspection. *)
Definition model_free (e : effect) : Prop :=
  match e with
  | ProviderCall _ _ | ToolRun _ | PageInspection _ => False
  | _ => True
  end.

(** The client's copy of the provider state agrees with its manager,
    and the manager's mode agrees with its provider. *)
Definition in_sync (c : Client) : Prop :=
  provider c = ModelManager.provider (manager c)
  /\ model c = ModelManager.model (manager c)
  /\ ModelManager.baseOnlineProvider (manager c) = baseOnlineProvider c
  /\ coherent (manager c).

(** What a turn's [try] block never changes: the one-shot guard, the
    environment, the base provider, and the agreement with the manager. *)
Definition steady (flag : bool) (e : Env) (base : OnlineProvider) (c : Client) : Prop :=
  in_sync c /\ didAppleLocaleFallback c = flag /\ env (world c) = e
  /\ baseOnlineProvider c = base.

Definition no_retry (e : effect) : Prop := is_retry e = false.

(** An effect that, if it is a retry, goes to the online provider. *)
Definition retry_online (base : OnlineProvider) (ef : effect) : Prop :=
  no_retry ef \/ ef = ProviderCall LocaleRetry (Online base).

(** The [try] block of a turn ended in the locale failure of the
    on-device provider. *)
Definition locale_failed (body : outcome unit * Client * list effect) : bool :=
  match result_of body with
  | Throws e => is_apple (provider (state_of body)) && is_locale_error e
  | Returns _ => false
  end.

(** The on-device provider is selected but cannot answer. *)
Definition apple_down (c : Client) : Prop :=
  provider c = Apple /\ (model c = None \/ appleAvailable c = false).

End LLMClient.

(** ** Wiring ([index.ts])

    [new BridgeServer(window, window.sidebar.client)]: the orchestrator
    behind the bridge is the [LLMClient], and what it sends to its
    bridge emitter is what the bridge fans out. *)

Module Wiring.
Import JS Eff Frames Orch.

Definition emissions (es : list effect) : list emission :=
  omap (fun e => match e with ToBridge x => Some x | _ => None end) es.

Definition through_bridge {A} (m : M LLMClient.Client effect A) (c : LLMClient.Client)
  : outcome A * LLMClient.Client * list emission :=
  let '(r, c', es) := m c in (r, c', emissions es).

#[export] Instance client_orchestrator : Bridge.Orchestrator LLMClient.Client :=
  {| Bridge.llm_removeQrMessages := fun c => state_of (LLMClient.removeQrMessages c);
     Bridge.llm_setOfflineMode := fun b => through_bridge (LLMClient.setOfflineMode b);
     Bridge.llm_sendChatMessage :=
       fun text id =>
         through_bridge
           (LLMClient.sendChatMessage
              {| LLMClient.message := text; LLMClient.messageId := id |}) |}.

End Wiring.

(** ** Further vocabulary for [ModelManager] *)

Module ModelManagerTerms.
Import JS ModelManager.

(** The handle that [initializeModel] builds for an online provider
    whose key is configured. *)
Definition online_handle (env : Env) (base : OnlineProvider) : LanguageModel :=
  let name := env_or (LLM_MODEL env) (DEFAULT_MODELS base) in
  match base with
  | openai => OpenAIModel name
  | anthropic => AnthropicModel name
  end.

(** The model handle, if there is one, belongs to the selected
    provider. *)
Definition model_fits (env : Env) (st : State) : Prop :=
  match model st with
  | None => True
  | Some m =>
      match provider st with
      | Apple => createAppleLanguageModel env = Returns m
      | Online _ => m = online_handle env (baseOnlineProvider st)
      end
  end.

(** A manager whose mode, provider, model name and model handle agree
    with each other. *)
Definition settled (env : Env) (st : State) : Prop :=
  coherent st
  /\ (forall p, provider st = Online p -> p = baseOnlineProvider st)
  /\ modelName st = getModelName env st
  /\ model_fits env st.

(** The surroundings with another answer of the availability probe. *)
Definition with_probe (a : AppleAvailability) (env : Env) : Env :=
  {| LLM_PROVIDER := LLM_PROVIDER env; LLM_MODEL := LLM_MODEL env;
     OFFLINE_MODE := OFFLINE_MODE env; OPENAI_API_KEY := OPENAI_API_KEY env;
     ANTHROPIC_API_KEY := ANTHROPIC_API_KEY env;
     checkAppleAvailability := a;
     createAppleLanguageModel := createAppleLanguageModel env |}.

End ModelManagerTerms.

(** ** Further vocabulary for the conversation log *)

Module MessageStoreTerms.
Import JS Eff Frames Orch MessageStore.

(** The public mutators of [MessageStore], as calls. *)
Inductive store_call :=
| CallSetAll (msgs : list CoreMessage)
| CallClear
| CallAddAssistant (c : jsstring)
| CallAddUser (c : Content)
| CallBeginStream (firstChunk : jsstring)
| CallAppendStream (chunk : jsstring)
| CallEndStream.

Definition perform_call (c : store_call) : M Store effect unit :=
  match c with
  | CallSetAll msgs => setAll msgs
  | CallClear => clear
  | CallAddAssistant t => addAssistant t
  | CallAddUser t => addUser t
  | CallBeginStream t => beginStream t
  | CallAppendStream t => appendStream t
  | CallEndStream => endStream
  end.

(** The logs sent to the renderer on ["chat-messages-updated"]. *)
Definition renderer_updates (es : list effect) : list (list CoreMessage) :=
  omap (fun e => match e with ChatMessagesUpdated ms => Some ms | _ => None end) es.

(** The assistant texts mirrored to the bridge. *)
Definition bridge_chats (es : list effect) : list jsstring :=
  omap (fun e => match e with
                 | ToBridge (EmitChat Assistant t) => Some t
                 | _ => None
                 end) es.

Arguments renderer_updates es : simpl never.
Arguments bridge_chats es : simpl never.

End MessageStoreTerms.

(** ** Further vocabulary for the realtime gateway *)

Module BridgeTerms.
Import JS Eff Page Frames Bridge.

(** The connection an effect is addressed to. *)
Definition target (e : effect) : option conn :=
  match e with
  | WsSend c _ | WsClose c _ _ | WsTerminate c | WsPing c => Some c
  | IpcBridgeConnected _ _ => None
  end.

(** An effect that, if it is addressed to [ws], is the refusal of a
    handshake. *)
Definition refusal_only (ws : conn) (e : effect) : Prop :=
  target e = Some ws -> e = WsClose ws 4001 (lit "unauthorized").


(** What the top bar was last told on ["bridge-connected"]: the last
    value sent along [es], or [before] when none was sent. *)
Fixpoint shown_connected (before : bool) (es : list effect) : bool :=
  match es with
  | [] => before
  | IpcBridgeConnected TopBar b :: es' => shown_connected b es'
  | _ :: es' => shown_connected before es'
  end.

(** An effect that neither terminates nor closes [ws]. *)
Definition spares (ws : conn) (e : effect) : Prop :=
  match e with
  | WsTerminate c | WsClose c _ _ => c ≠ ws
  | _ => True
  end.

(** [ws] answers every probe: along [evs] a pong of [ws] arrives
    between any two heartbeat ticks ([fresh] tells whether one has
    arrived since the last tick), and [ws] neither closes nor starts a
    new handshake. *)
Fixpoint answers (ws : conn) (fresh : bool) (evs : list event) : Prop :=
  match evs with
  | [] => True
  | Tick :: evs' => fresh = true /\ answers ws false evs'
  | Pong ws' :: evs' => answers ws (fresh || bool_decide (ws' = ws)) evs'
  | Close ws' :: evs' => ws' ≠ ws /\ answers ws fresh evs'
  | Connection ws' _ :: evs' => ws' ≠ ws /\ answers ws fresh evs'
  | _ :: evs' => answers ws fresh evs'
  end.

Section Server.
Context {L : Type} `{!Orchestrator L} `{!Jwt}.

(** A frame written to a connection of the active set of [s]. *)
Definition to_active (s : Server L) (e : effect) : Prop :=
  match e with
  | WsSend c _ => c ∈ clients s
  | _ => False
  end.

(** The frames that [emitAll] writes: one per active connection that
    is open, in the order of the active set. *)
Definition fan_out (s : Server L) (f : frame) : list effect :=
  map (fun c => WsSend c f) (filter (fun c => c ∈ ready s) (clients s)).

(** The frame that [emitChat] or [emitEvent] builds at time [t]. *)
Definition frame_of (t : N) (e : emission) : frame :=
  match e with
  | EmitChat role text => ChatFrame (lit "m-" ++ dec t) role text t
  | EmitEvent name data => EvtFrame name data t
  end.

End Server.
End BridgeTerms.

(** ** The QR code of the bridge ([bridge/BridgeQr.ts]) *)

Module BridgeQr.
Import JS.

(** An entry of [os.networkInterfaces()]. *)
Record NetworkInterface := {
  internal : bool;
  family : jsstring;
  address : jsstring;
}.

(** The address an entry contributes, if any: entries that are
    missing, internal, not IPv4 or without an address are skipped. *)
Definition usable (iface : option NetworkInterface) : option jsstring :=
  match iface with
  | Some i =>
      if internal i then None
      else if bool_decide (family i = lit "IPv4") && nonempty (address i)
           then Some (address i) else None
  | None => None
  end.

(** [getLocalIpAddress]: [ifaces] is what [os.networkInterfaces()]
    gives, its keys in order, each with its list ([undefined] lists
    count as empty); the first usable address wins. *)
Definition getLocalIpAddress
    (ifaces : outcome (list (jsstring * option (list (option NetworkInterface)))))
  : jsstring :=
  match ifaces with
  | Returns l =>
      match omap usable (flat_map (fun kv => default [] kv.2) l) with
      | a :: _ => a
      | [] => lit "127.0.0.1"
      end
  | Throws _ => lit "127.0.0.1"
  end.

(** [s.replace(/\/$/, "")]. *)
Definition strip_final_slash (s : jsstring) : jsstring :=
  match rev s with
  | 47%N :: r => rev r
  | _ => s
  end.

(** What [createBridgeQrDataUrl] reads and calls: the environment, the
    text that the template literal prints for
    [Number(process.env.BRIDGE_PORT || 4939)], the network interfaces,
    what [jwt.sign] returns for the claims and the secret built here,
    and [QRCode.toDataURL] on the JSON text of a payload. *)
Record Payload := { payload_url : jsstring; proto : jsstring }.

Record World := {
  BRIDGE_PUBLIC_URL : option jsstring;
  port_text : jsstring;
  networkInterfaces :
    outcome (list (jsstring * option (list (option NetworkInterface))));
  jwt_sign : outcome jsstring;
  toDataURL : Payload -> outcome jsstring;
}.

Definition bridge_url (w : World) : jsstring :=
  let lan := lit "ws://" ++ getLocalIpAddress (networkInterfaces w) ++ lit ":"
             ++ port_text w ++ lit "/bridge" in
  match BRIDGE_PUBLIC_URL w with
  | Some publicUrl =>
      if nonempty publicUrl && nonempty (trim publicUrl)
      then strip_final_slash publicUrl ++ lit "/bridge"
      else lan
  | None => lan
  end.

Definition proto_of (token : jsstring) : jsstring := lit "blueberry,v1," ++ token.

(** The payload that is encoded, when [jwt.sign] returns. *)
Definition qr_payload (w : World) : outcome Payload :=
  let u := bridge_url w in
  match jwt_sign w with
  | Returns token => Returns {| payload_url := u; proto := proto_of token |}
  | Throws e => Throws e
  end.

Record Result := { ok : bool; dataUrl : option jsstring }.

(** [createBridgeQrDataUrl]: any failure is caught. *)
Definition createBridgeQrDataUrl (w : World) : Result :=
  match qr_payload w with
  | Returns p =>
      match toDataURL w p with
      | Returns d => {| ok := true; dataUrl := Some d |}
      | Throws _ => {| ok := false; dataUrl := None |}
      end
  | Throws _ => {| ok := false; dataUrl := None |}
  end.

End BridgeQr.

(** ** IPC handlers for the model ([events/LLMEvents.ts]) *)

Module LLMEvents.
Import JS Eff Page Frames Orch ModelManager MessageStore LLMClient.

Local Abbreviation C := (M Client effect) (only parsing).

Definition not_up_to_spec (reason : option jsstring) : jsstring :=
  lit "OOh I see what you are trying to do here Pelle but your mac is not up to spec for that hehe"
  ++ match reason with
     | Some (c :: r) => lit " (Reason: " ++ (c :: r) ++ lit ")"
     | _ => []
     end.

(** The handler of ["get-offline-mode"]. *)
Definition get_offline_mode : C bool := gets offlineMode.

(** The handler of ["set-offline-mode"]. *)
Definition set_offline_mode (enabled : bool) : C bool :=
  result ← LLMClient.setOfflineMode enabled;
  when (enabled && negb result)
    (c ← get; addAssistantMessage (not_up_to_spec (appleUnavailableReason c)));;
  c ← get;
  emit (OfflineModeUpdated TopBar (offlineMode c));;
  mret result.

Definition qr_message (dataUrl : jsstring) : jsstring :=
  join [10%N]
    [ lit "Scan this QR code with the Blueberry mobile app (expires in 5 minutes):";
      [];
      lit "![](" ++ dataUrl ++ lit ")" ].

(** The handler of ["generate-bridge-qr"]; [qr] is what
    [createBridgeQrDataUrl()] resolved to. *)
Definition generate_bridge_qr (qr : BridgeQr.Result) : C bool :=
  match BridgeQr.ok qr, BridgeQr.dataUrl qr with
  | true, Some (c :: d) => addAssistantMessage (qr_message (c :: d));; mret true
  | _, _ => mret false
  end.

End LLMEvents.

(** ** Network monitoring ([events/SystemEvents.ts]) *)

Module SystemEvents.
Import JS Eff Page Frames Orch ModelManager MessageStore LLMClient.

(** The variables of [registerSystemEvents] and the client they
    reach through [mainWindow.sidebar.client]. *)
Record Monitor := { lastOnline : option bool; client : Client }.





Definition start (c : Client) : Monitor := {| lastOnline := None; client := c |}.



End SystemEvents.

(** ** The offline toggle of the top bar ([AddressBar.tsx]) *)

Module TopBar.
Import JS Eff Page Frames Orch ModelManager MessageStore LLMClient.

(** The state of the component that the toggle touches, next to the
    client in the main process that [topBarAPI.setOfflineMode]
    reaches through the ["set-offline-mode"] handler. *)
Record State := {
  offline : bool;
  offlineBlinkError : bool;
  main : Client;
}.

Definition invoke {A} (m : M Client effect A) : M State effect A :=
  fun st =>
    let '(r, c, es) := m (main st) in
    (r, {| offline := offline st; offlineBlinkError := offlineBlinkError st;
           main := c |}, es).

Definition setOffline (b : bool) : M State effect unit :=
  modify (fun st => {| offline := b; offlineBlinkError := offlineBlinkError st;
                       main := main st |}).

Definition setOfflineBlinkError (b : bool) : M State effect unit :=
  modify (fun st => {| offline := offline st; offlineBlinkError := b;
                       main := main st |}).

(** [toggleOffline], up to the timer that ends the blink. *)
Definition toggleOffline : M State effect unit :=
  st ← get;
  let next := negb (offline st) in
  confirmed ← invoke (LLMEvents.set_offline_mode next);
  setOffline confirmed;;
  when (next && negb confirmed) (setOfflineBlinkError true).

(** The effect that loads the initial mode. *)
Definition loadOfflineMode : M State effect unit :=
  v ← invoke LLMEvents.get_offline_mode;
  setOffline v.

End TopBar.

(** ** Vocabulary for the text patterns *)

Module TextTerms.
Import JS Regex.

(** [w] stands at the start of [s], compared as a regular expression
    with the [i] flag compares literal code units. *)
Fixpoint starts_fold (w s : jsstring) : bool :=
  match w, s with
  | [], _ => true
  | c :: w', d :: s' => same_unit true c d && starts_fold w' s'
  | _ :: _, [] => false
  end.

(** [w] stands somewhere in [s], compared in that way. *)
Fixpoint includes_fold (w s : jsstring) : bool :=
  starts_fold w s ||
  match s with
  | [] => false
  | _ :: s' => includes_fold w s'
  end.

(** A Basic Latin code unit that is no capital letter and neither [i]
    nor [k]: lower-casing produces it from itself and from its capital
    only. *)
Definition plain (c : N) : bool :=
  ((c <? 128) && negb ((65 <=? c) && (c <=? 90)) && negb (c =? 105)
   && negb (c =? 107))%N.

(** [s] begins with the words [ws], one after the other, each two
    separated by a run of one or more white-space code units. *)
Fixpoint says (ws : list jsstring) (s : jsstring) : Prop :=
  match ws with
  | [] => True
  | w :: ws' =>
      match ws' with
      | [] => exists rest, s = w ++ rest
      | _ :: _ =>
          exists gap rest,
            gap <> [] /\ Forall (fun c => is_space c = true) gap /\
            s = w ++ gap ++ rest /\ says ws' rest
      end
  end.

(** The words [ws] are said somewhere in [s]. *)
Definition mentions (ws : list jsstring) (s : jsstring) : Prop :=
  exists pre rest, s = pre ++ rest /\ says ws rest.

(** The phrasings that ask for the current page. *)
Definition what_page_phrases : list (list string) :=
  [ ["what"; "page"; "am"; "i"; "on"];
    ["what"; "page"; "is"; "this"];
    ["which"; "page"; "am"; "i"; "on"];
    ["what"; "site"; "am"; "i"; "on"];
    ["what"; "url"; "am"; "i"; "on"];
    ["what"; "apge"; "am"; "i"; "on"] ]%string.

(** The notice that [getErrorMessage] gives for a locale failure of the
    on-device provider. *)
Definition locale_notice : jsstring :=
  lit "Apple on-device AI isn't available for your current macOS language/locale. Set System Language to a supported language (e.g., English) and ensure Apple Intelligence is enabled. Then retry.".

End TextTerms.

(** ** Vocabulary for the conversation log of a turn *)

Module LLMClientTerms.
Import JS Eff Orch MessageStore Streamer LLMClient.

(** A property of the message store that the client owns. *)
Definition on_log (R : Store -> Prop) (c : Client) : Prop := R (messageStore c).

Definition any_effect (e : effect) : Prop := True.

(** An effect that is neither a generation call nor a tool run. *)
Definition calls_no_model (e : effect) : Prop :=
  match e with
  | ProviderCall _ _ | ToolRun _ => False
  | _ => True
  end.

(** The log still begins with [old]. *)
Definition kept (old : list CoreMessage) (st : Store) : Prop :=
  old `prefix_of` MessageStore.messages st.

(** The slot of a stream that is open, if there is one, lies behind
    [old]. *)
Definition slot_after (old : list CoreMessage) (st : Store) : Prop :=
  forall i, streamingIndex st = Some i -> length old <= i.

(** The invariant of the loop of [consume] with respect to [old]: once
    the loop has streamed a chunk, the open slot is its own. *)
Definition streaming_behind (old : list CoreMessage) (l : Loop) (st : Store) : Prop :=
  kept old st /\ (first l = false -> slot_after old st).

End LLMClientTerms.

(** ** Prompt construction ([llm/PromptBuilder.ts]) *)

Module PromptBuilder.
Import JS Orch.

Definition MAX_CONTEXT_LENGTH : nat := 4000.

(** [text.replace(/\s+/g, " ")]: every maximal run of white space
    becomes one U+0020. *)
Fixpoint collapse_ws_go (in_sep : bool) (s : jsstring) : jsstring :=
  match s with
  | [] => []
  | c :: s' =>
      if is_space c then
        if in_sep then collapse_ws_go true s' else 32%N :: collapse_ws_go true s'
      else c :: collapse_ws_go false s'
  end.
Definition collapse_ws (s : jsstring) : jsstring := collapse_ws_go false s.

(** [truncate]. *)
Definition truncate (text : jsstring) (maxLength : nat) : jsstring :=
  if length text <=? maxLength then text
  else take maxLength text ++ lit "...".

(** The excerpt that [buildAppleContext] takes from a page text. *)
Definition excerpt_of (pageText : jsstring) : jsstring :=
  let normalized := trim (collapse_ws pageText) in
  truncate normalized (Nat.min 800 MAX_CONTEXT_LENGTH).

(** [buildAppleContext]. *)
Definition buildAppleContext (url title pageText : option jsstring)
  : option CoreMessage :=
  let nl := [10%N] in
  let parts :=
    match url with Some (c :: u) => [lit "URL: " ++ c :: u] | _ => [] end
    ++ match title with Some (c :: t) => [lit "Title: " ++ c :: t] | _ => [] end
    ++ match pageText with
       | Some (c :: t) =>
           let excerpt := excerpt_of (c :: t) in
           if nonempty excerpt then [lit "Excerpt: " ++ excerpt] else []
       | _ => []
       end in
  match parts with
  | [] => None
  | _ :: _ =>
      Some {| role := assistant;
              content :=
                Text (lit "Page Context" ++ nl ++ join (nl ++ nl) parts ++ nl ++ nl
                      ++ lit "Use this context to answer the next questions.") |}
  end.

End PromptBuilder.

(** ** Fixtures

    Concrete surroundings on which the definitions above are run. *)

Module Fixtures.
Import JS Page Frames Orch ModelManager.

(** Machines: without the on-device model and started in offline mode;
    without it and started online; with it, without and with a cloud
    key. *)
Definition env_no_apple : Env :=
  {| LLM_PROVIDER := None;
     LLM_MODEL := None;
     OFFLINE_MODE := Some (lit "1");
     OPENAI_API_KEY := Some (lit "sk-test");
     ANTHROPIC_API_KEY := None;
     checkAppleAvailability :=
       {| available := false; reason := lit "unavailable-or-not-installed" |};
     createAppleLanguageModel :=
       Throws (ThrownError (lit "Error") (lit "Cannot find module")) |}.

Definition env_online : Env :=
  {| LLM_PROVIDER := None;
     LLM_MODEL := None;
     OFFLINE_MODE := None;
     OPENAI_API_KEY := Some (lit "sk-test");
     ANTHROPIC_API_KEY := None;
     checkAppleAvailability :=
       {| available := false; reason := lit "unavailable-or-not-installed" |};
     createAppleLanguageModel :=
       Throws (ThrownError (lit "Error") (lit "Cannot find module")) |}.

Definition env_apple_no_key : Env :=
  {| LLM_PROVIDER := Some (lit "apple");
     LLM_MODEL := None;
     OFFLINE_MODE := None;
     OPENAI_API_KEY := None;
     ANTHROPIC_API_KEY := None;
     checkAppleAvailability := {| available := true; reason := [] |};
     createAppleLanguageModel := Returns AppleModel |}.

Definition env_apple_with_key : Env :=
  {| LLM_PROVIDER := Some (lit "apple");
     LLM_MODEL := None;
     OFFLINE_MODE := None;
     OPENAI_API_KEY := Some (lit "sk-test");
     ANTHROPIC_API_KEY := None;
     checkAppleAvailability := {| available := true; reason := [] |};
     createAppleLanguageModel := Returns AppleModel |}.

(** A page, an inspector that finds it, and one whose window refuses
    to create a tab. *)
Definition sample_page : PageInfo :=
  {| title := Some (lit "Example");
     url := Some (lit "https://example.com");
     summary := lit "Example Domain";
     links := [ {| link_text := lit "More information";
                   link_href := lit "https://www.iana.org/domains/example" |} ] |}.

Definition working_inspector : Tools.Inspector :=
  {| Tools.openUrlAndGetInfo := fun _ => Returns sample_page;
     Tools.getActivePageInfo := Returns sample_page |}.

Definition broken_inspector : Tools.Inspector :=
  {| Tools.openUrlAndGetInfo :=
       fun _ => Throws (ThrownError (lit "Error") (lit "Window is closed"));
     Tools.getActivePageInfo :=
       Throws (ThrownError (lit "Error") (lit "Window is closed")) |}.

Definition example_reply : jsstring :=
  lit "You are on: Example " ++ em_dash ++ lit " https://example.com".

Definition example_tab : Tab :=
  {| tab_id := lit "tab-1"; tab_title := lit "Example";
     tab_url := lit "https://example.com";
     tab_text := Returns (lit "Example Domain");
     tab_links := Returns [] |}.


(** Worlds with a network, a window that opens [example_tab] for any
    URL, and the given provider behaviours; and clients started in
    them, after [init] and [setWindow]. *)
Definition world_of (e : Env) (gens : list LLMClient.Generation) : LLMClient.World :=
  {| LLMClient.env := e; LLMClient.online := true;
     LLMClient.createTab := fun _ => Returns example_tab;
     LLMClient.pending := gens |}.

Definition client_of (e : Env) (gens : list LLMClient.Generation) : LLMClient.Client :=
  LLMClient.with_window (Some {| LLMClient.activeTab := Some example_tab |})
    (LLMClient.initialized (world_of e gens)).

Definition what_page_request : LLMClient.ChatRequest :=
  {| LLMClient.message := lit "What page am I on?"; LLMClient.messageId := lit "m-1" |}.

Definition hello_request : LLMClient.ChatRequest :=
  {| LLMClient.message := lit "Hello"; LLMClient.messageId := lit "m-2" |}.

(** A generation that rejects with the locale failure of the on-device
    provider, and one that answers. *)
Definition locale_failure : thrown :=
  ThrownError (lit "Error") (lit "Unsupported language or locale was used").

Definition failing_generation : LLMClient.Generation :=
  {| LLMClient.actions := []; LLMClient.failure := Some locale_failure |}.

Definition answering_generation : LLMClient.Generation :=
  {| LLMClient.actions := [LLMClient.Yield (lit "Hi "); LLMClient.Yield (lit "there")];
     LLMClient.failure := None |}.

(** A stand-in for [jsonwebtoken] on tokens of the form
    [signature.exp], [exp] in seconds: the token verifies when its
    signature is the secret and it has not expired. *)
Definition digits_value (s : list N) : N :=
  fold_left (fun acc c => (acc * 10 + (c - 48))%N) s 0%N.

Definition fixture_jwt : Bridge.Jwt :=
  {| Bridge.jwt_verify := fun now token secret =>
       match split_on 46 token with
       | [signature; exp] =>
           bool_decide (signature = secret) && (now / 1000 <? digits_value exp)%N
       | _ => false
       end |}.

(** A server at time 2 000 000 ms with two active connections, the
    second of which has not answered the last probe. *)
Definition bridge_window : Bridge.Window :=
  {| Bridge.activeTab := Some example_tab; Bridge.getTab := fun _ => None |}.

Definition server_with_two : Bridge.Server LLMClient.Client :=
  {| Bridge.clients := [1; 2]%nat;
     Bridge.connectionAlive := {[ 1%nat := true; 2%nat := false ]};
     Bridge.listening := {[ 1%nat; 2%nat ]};
     Bridge.ready := {[ 1%nat; 2%nat ]};
     Bridge.window := bridge_window;
     Bridge.llm := client_of env_online [];
     Bridge.now := 2000000%N;
     Bridge.BRIDGE_JWT_SECRET := None |}.

Definition expired_handshake : Bridge.Request :=
  {| Bridge.sec_websocket_protocol := Some (lit "blueberry, v1, dev-secret.1000") |}.

Definition reboot_command : Bridge.BridgeCommand :=
  {| Bridge.cmd_v := Some 1%N; Bridge.cmd_id := lit "c-17";
     Bridge.cmd_name := lit "reboot"; Bridge.cmd_args := None |}.

End Fixtures.

(** ** Further fixtures *)

Module MoreFixtures.
Import JS Page Frames Orch ModelManager Fixtures.

(** A handshake whose token [fixture_jwt] accepts at time 2 000 000 ms
    under the default secret. *)
Definition valid_handshake : Bridge.Request :=
  {| Bridge.sec_websocket_protocol := Some (lit "blueberry, v1, dev-secret.9999") |}.

Definition page_command : Bridge.BridgeCommand :=
  {| Bridge.cmd_v := Some 1%N; Bridge.cmd_id := lit "c-18";
     Bridge.cmd_name := lit "getPageInfo"; Bridge.cmd_args := None |}.

(** [setFeature] asking for offline mode, and a chat message, as they
    arrive over the bridge. *)
Definition offline_command : Bridge.BridgeCommand :=
  {| Bridge.cmd_v := Some 1%N; Bridge.cmd_id := lit "c-19";
     Bridge.cmd_name := lit "setFeature";
     Bridge.cmd_args :=
       Some {[ lit "key" := JStr (lit "offlineMode"); lit "value" := JBool true ]} |}.



(** A desktop on a home network, with no public bridge URL; the QR
    library answers with a PNG data URL. *)
Definition qr_world : BridgeQr.World :=
  {| BridgeQr.BRIDGE_PUBLIC_URL := None;
     BridgeQr.port_text := lit "4939";
     BridgeQr.networkInterfaces :=
       Returns
         [ (lit "lo0",
            Some [ Some {| BridgeQr.internal := true;
                           BridgeQr.family := lit "IPv4";
                           BridgeQr.address := lit "127.0.0.1" |} ]);
           (lit "en0",
            Some [ Some {| BridgeQr.internal := false;
                           BridgeQr.family := lit "IPv6";
                           BridgeQr.address := lit "fe80::1" |};
                   Some {| BridgeQr.internal := false;
                           BridgeQr.family := lit "IPv4";
                           BridgeQr.address := lit "192.168.1.20" |} ]) ];
     BridgeQr.jwt_sign := Returns (lit "dev-secret.9999");
     BridgeQr.toDataURL := fun _ => Returns (lit "data:image/png;base64,iVBORw0KGgo=") |}.

(** A desktop with no API key and no on-device model. *)
Definition env_unconfigured : Env :=
  {| LLM_PROVIDER := None;
     LLM_MODEL := None;
     OFFLINE_MODE := None;
     OPENAI_API_KEY := None;
     ANTHROPIC_API_KEY := None;
     checkAppleAvailability :=
       {| available := false; reason := lit "unavailable-or-not-installed" |};
     createAppleLanguageModel :=
       Throws (ThrownError (lit "Error") (lit "Cannot find module")) |}.

(** A request to open a page, as typed in the sidebar. *)
Definition open_request : LLMClient.ChatRequest :=
  {| LLMClient.message := lit "open https://example.com";
     LLMClient.messageId := lit "m-3" |}.

End MoreFixtures.

(** * Properties *)

(** ** Reasoning about the effect monad *)

Module EffFacts.
Import JS Eff.
Section WithTypes.
Context {St Ev : Type}.
Implicit Types (P : St -> Prop) (Q : Ev -> Prop).
Local Abbreviation M := (Eff.M St Ev).

(** [keeps P Q m]: whatever its outcome, [m] keeps the state invariant
    [P] and only produces effects in [Q]. *)
Definition keeps (P : St -> Prop) (Q : Ev -> Prop) {A} (m : M A) : Prop :=
  forall s, P s -> P (state_of (m s)) /\ Forall Q (trace_of (m s)).

(** [total m]: [m] never raises. *)
Definition total {A} (m : M A) : Prop :=
  forall s, exists a, result_of (m s) = Returns a.

Lemma keeps_ret P Q {A} (a : A) : keeps P Q (ret a).
Proof. intros s HP; cbn; eauto. Qed.

Lemma keeps_throw P Q {A} e : keeps P Q (throw (A:=A) e).
Proof. intros s HP; cbn; eauto. Qed.

Lemma keeps_lift P Q {A} (o : outcome A) : keeps P Q (lift_outcome o).
Proof. intros s HP; cbn; eauto. Qed.

Lemma keeps_bind P Q {A B} (m : M A) (k : A -> M B) :
  keeps P Q m -> (forall a, keeps P Q (k a)) -> keeps P Q (bind m k).
Proof.
  intros Hm Hk s HP. destruct (Hm s HP) as (HP1 & HQ1).
  unfold bind, state_of, trace_of in *.
  destruct (m s) as [[[a|e] s1] es1]; cbn in *; [|done].
  destruct (Hk a s1 HP1) as (HP2 & HQ2).
  unfold state_of, trace_of in *.
  destruct (k a s1) as [[r2 s2] es2]; cbn in *.
  split; [done|]. by apply Forall_app.
Qed.

Lemma keeps_try_catch P Q {A} (m : M A) (h : thrown -> M A) :
  keeps P Q m -> (forall e, keeps P Q (h e)) -> keeps P Q (try_catch m h).
Proof.
  intros Hm Hh s HP. destruct (Hm s HP) as (HP1 & HQ1).
  unfold try_catch, state_of, trace_of in *.
  destruct (m s) as [[[a|e] s1] es1]; cbn in *; [done|].
  destruct (Hh e s1 HP1) as (HP2 & HQ2).
  unfold state_of, trace_of in *.
  destruct (h e s1) as [[r2 s2] es2]; cbn in *.
  split; [done|]. by apply Forall_app.
Qed.

Lemma keeps_for_each P Q {A} (l : list A) (f : A -> M unit) :
  (forall x, keeps P Q (f x)) -> keeps P Q (for_each l f).
Proof.
  intros Hf. induction l as [|x l IH]; cbn [for_each].
  - apply keeps_ret.
  - apply keeps_bind; [apply Hf | intros _; apply IH].
Qed.

Lemma keeps_when P Q (b : bool) (m : M unit) : keeps P Q m -> keeps P Q (when b m).
Proof. destruct b; cbn; [done | intros _; apply keeps_ret]. Qed.

Lemma keeps_emit P (Q : Ev -> Prop) (e : Ev) : Q e -> keeps P Q (emit e).
Proof. intros He s HP; cbn; eauto. Qed.

Lemma keeps_modify (P : St -> Prop) Q (f : St -> St) :
  (forall s, P s -> P (f s)) -> keeps P Q (modify f).
Proof. intros Hf s HP; cbn; eauto. Qed.

Lemma keeps_gets P Q {A} (f : St -> A) : keeps P Q (gets f).
Proof. intros s HP; cbn; eauto. Qed.

Lemma keeps_get P Q : keeps P Q get.
Proof. intros s HP; cbn; eauto. Qed.

Lemma keeps_get_bind P Q {B} (k : St -> M B) :
  (forall s, P s -> keeps P Q (k s)) -> keeps P Q (bind get k).
Proof.
  intros Hk s HP. specialize (Hk s HP s HP).
  unfold bind, get, state_of, trace_of in *; cbn.
  by destruct (k s s) as [[r2 s2] es2].
Qed.

Lemma total_ret {A} (a : A) : total (ret a).
Proof. intros s; cbn; eauto. Qed.

Lemma total_bind {A B} (m : M A) (k : A -> M B) :
  total m -> (forall a, total (k a)) -> total (bind m k).
Proof.
  intros Hm Hk s. destruct (Hm s) as [a Ha].
  unfold bind, result_of in *.
  destruct (m s) as [[r s1] es1]; cbn in *; subst r.
  destruct (Hk a s1) as [b Hb]. unfold result_of in *.
  destruct (k a s1) as [[r2 s2] es2]; cbn in *; eauto.
Qed.

Lemma total_try_catch {A} (m : M A) (h : thrown -> M A) :
  (forall e, total (h e)) -> total (try_catch m h).
Proof.
  intros Hh s. unfold try_catch, result_of.
  destruct (m s) as [[[a|e] s1] es1]; cbn; [eauto|].
  destruct (Hh e s1) as [b Hb]. unfold result_of in *.
  destruct (h e s1) as [[r2 s2] es2]; cbn in *; eauto.
Qed.

Lemma total_for_each {A} (l : list A) (f : A -> M unit) :
  (forall x, total (f x)) -> total (for_each l f).
Proof.
  intros Hf. induction l as [|x l IH]; cbn [for_each].
  - apply total_ret.
  - apply total_bind; [apply Hf | intros _; apply IH].
Qed.

Lemma total_when (b : bool) (m : M unit) : total m -> total (when b m).
Proof. destruct b; cbn; [done | intros _; apply total_ret]. Qed.

Lemma total_emit (e : Ev) : total (emit e).
Proof. intros s; cbn; eauto. Qed.

Lemma total_modify (f : St -> St) : total (modify f).
Proof. intros s; cbn; eauto. Qed.

Lemma total_gets {A} (f : St -> A) : total (gets f).
Proof. intros s; cbn; eauto. Qed.

Lemma total_get : total get.
Proof. intros s; cbn; eauto. Qed.

Lemma for_each_app {A} (l1 l2 : list A) (f : A -> M unit) s :
  for_each (l1 ++ l2) f s = bind (for_each l1 f) (fun _ => for_each l2 f) s.
Proof.
  revert s. induction l1 as [|x l1 IH]; intros s; cbn [for_each app].
  - unfold bind, ret. by destruct (for_each l2 f s) as [[r s2] es2].
  - unfold bind. destruct (f x s) as [[[[]|e] s1] es1]; [|done].
    rewrite IH. unfold bind.
    destruct (for_each l1 f s1) as [[[[]|e] s2] es2]; [|done].
    destruct (for_each l2 f s2) as [[r s3] es3]. by rewrite app_assoc.
Qed.
End WithTypes.
End EffFacts.

(** ** The realtime gateway *)

Module BridgeSpec.
Import JS Eff EffFacts Page Frames Bridge.

Section Facts.
Context {L : Type} `{!Orchestrator L} `{!Jwt}.
Implicit Types (s : Server L) (ws : nat) (msg : BridgeCommand).

Lemma responses_to_app ws (es1 es2 : list effect) :
  responses_to ws (es1 ++ es2) = responses_to ws es1 ++ responses_to ws es2.
Proof. apply omap_app. Qed.

Lemma responses_to_broadcast ws (es : list effect) :
  Forall broadcast es -> responses_to ws es = [].
Proof.
  induction 1 as [|e es He _ IH]; [done|].
  unfold responses_to in *; cbn. rewrite IH.
  by destruct e as [c [r| |]| | | |].
Qed.

Lemma for_each_send (f : frame) (l : list nat) (r : gset nat) s :
  for_each l (fun c => when (bool_decide (c ∈ r)) (ws_send c f)) s
  = (Returns tt, s, map (fun c => WsSend c f) (filter (fun c => c ∈ r) l)).
Proof.
  induction l as [|c l IH]; [done|].
  cbn [for_each]. unfold bind. rewrite filter_cons.
  case_bool_decide; cbn; rewrite IH.
  - by rewrite decide_True.
  - by rewrite decide_False.
Qed.

Lemma emitAll_run (f : frame) s :
  emitAll f s
  = (Returns tt, s, map (fun c => WsSend c f) (filter (fun c => c ∈ ready s) (clients s))).
Proof.
  unfold emitAll, mbind, M_bind, bind; cbn. by rewrite for_each_send.
Qed.

Lemma broadcast_sends (f : frame) (l : list nat) :
  (match f with ResFrame _ => False | _ => True end) ->
  Forall broadcast (map (fun c => WsSend c f) l).
Proof. intros Hf. apply Forall_map, Forall_true. intros c. by destruct f. Qed.

Lemma emitChat_run role text s :
  exists es, emitChat role text s = (Returns tt, s, es) /\ Forall broadcast es.
Proof.
  unfold emitChat, mbind, M_bind, bind; cbn. rewrite emitAll_run.
  eexists; split; [done|]. by apply broadcast_sends.
Qed.

Lemma emitEvent_run name data s :
  exists es, emitEvent name data s = (Returns tt, s, es) /\ Forall broadcast es.
Proof.
  unfold emitEvent, mbind, M_bind, bind; cbn. rewrite emitAll_run.
  eexists; split; [done|]. by apply broadcast_sends.
Qed.

Lemma deliver_all_run (ems : list emission) s :
  exists es, for_each ems deliver s = (Returns tt, s, es) /\ Forall broadcast es.
Proof.
  induction ems as [|e ems (es & IH & Hes)]; [by exists []|].
  cbn [for_each]. unfold bind.
  assert (exists es1, deliver e s = (Returns tt, s, es1) /\ Forall broadcast es1)
    as (es1 & -> & Hes1)
    by (destruct e; [apply emitChat_run | apply emitEvent_run]).
  rewrite IH. eexists; split; [done|]. by apply Forall_app.
Qed.

Lemma call_llm_run {A} (f : L -> outcome A * L * list emission) s :
  exists es,
    call_llm f s = ((f (llm s)).1.1, with_llm (f (llm s)).1.2 s, es)
    /\ Forall broadcast es.
Proof.
  unfold call_llm, mbind, M_bind, bind; cbn.
  destruct (f (llm s)) as [[r l'] ems]; cbn.
  destruct (deliver_all_run ems (with_llm l' s)) as (es & -> & Hes).
  destruct r; eexists; (split; [done|]); by rewrite ?app_nil_r.
Qed.

Lemma getPageInfo_run tabId s :
  getPageInfo tabId s = (Throws (ThrownError (lit "Error") (lit "No tab")), s, [])
  \/ exists data, getPageInfo tabId s = (Returns data, s, []).
Proof.
  unfold getPageInfo, mbind, M_bind, bind; cbn.
  destruct (if nonempty tabId then _ else _); cbn; eauto.
Qed.

(** The [try] block of [handleCmd] either raises before any response
    was written, or returns having written exactly one. *)
Lemma handleCmd_body_run msg ws s :
  let r := handleCmd_body msg ws s in
  sockets (state_of r) = sockets s /\
  match result_of r with
  | Throws _ => Forall broadcast (trace_of r)
  | Returns _ =>
      exists resp pre post,
        trace_of r = pre ++ WsSend ws (ResFrame resp) :: post
        /\ Forall broadcast pre /\ Forall broadcast post
        /\ res_id resp = cmd_id msg
        /\ if known_command (cmd_name msg)
           then res_ok resp = true /\ res_error resp = None
           else resp = error_response msg (lit "Unknown command")
  end.
Proof.
  unfold handleCmd_body, known_command.
  case_bool_decide as Hget; [|case_bool_decide as Hset; [|case_bool_decide as Hchat]];
    cbn [orb]; unfold mbind, M_bind, bind, send, ws_send, emit, when.
  - destruct (getPageInfo_run (string_or_empty (arg msg (lit "tabId"))) s)
      as [-> | [data ->]]; cbn; [done|].
    destruct (emitChat_run Browser (page_chat_text data) s) as (es & -> & Hes); cbn.
    split; [done|]. exists (ok_response msg data), [], es. by split_and!.
  - set (value := truthy (arg msg (lit "value"))).
    case_bool_decide as Hkey; cbn.
    + destruct (call_llm_run (llm_setOfflineMode value) s) as (es & -> & Hes).
      destruct (llm_setOfflineMode value (llm s)) as [[[b|e] l'] ems]; cbn; [|done].
      destruct (emitEvent_run (lit "featureState") (FeatureState value) (with_llm l' s))
        as (es2 & -> & Hes2); cbn.
      split; [done|]. exists (ok_response msg EmptyData), (es ++ es2), [].
      split_and!; auto. by apply Forall_app.
    + split; [done|]. exists (ok_response msg EmptyData), [], []. by split_and!.
  - cbn.
    destruct (emitChat_run User (string_or_empty (arg msg (lit "text"))) s)
      as (es & -> & Hes); cbn.
    destruct (call_llm_run
                (llm_sendChatMessage (string_or_empty (arg msg (lit "text")))
                   (lit "ws-" ++ dec (now s))) s) as (es2 & -> & Hes2).
    destruct (llm_sendChatMessage _ _ (llm s)) as [[[[]|e] l'] ems]; cbn.
    + split; [done|]. exists (ok_response msg EmptyData), (es ++ es2), [].
      split_and!; auto; [by rewrite app_assoc | by apply Forall_app].
    + split; [done|]. by apply Forall_app.
  - cbn. split; [done|].
    exists (error_response msg (lit "Unknown command")), [], []. by split_and!.
Qed.

Lemma responses_to_other ws ws' resp (pre post : list effect) :
  ws' ≠ ws -> Forall broadcast pre -> Forall broadcast post ->
  responses_to ws' (pre ++ WsSend ws (ResFrame resp) :: post) = [].
Proof.
  intros Hne Hpre Hpost. rewrite responses_to_app, (responses_to_broadcast _ pre) by done.
  unfold responses_to at 1; cbn. rewrite bool_decide_false by done.
  by apply responses_to_broadcast.
Qed.

Lemma responses_to_self ws resp (pre post : list effect) :
  Forall broadcast pre -> Forall broadcast post ->
  responses_to ws (pre ++ WsSend ws (ResFrame resp) :: post) = [resp].
Proof.
  intros Hpre Hpost. rewrite responses_to_app, (responses_to_broadcast _ pre) by done.
  unfold responses_to at 1; cbn. rewrite bool_decide_true by done.
  fold (responses_to ws post). by rewrite responses_to_broadcast.
Qed.

Lemma handleCmd_sockets msg ws s :
  sockets (state_of (handleCmd msg ws s)) = sockets s.
Proof.
  destruct (handleCmd_body_run msg ws s) as [Hsock _].
  unfold handleCmd, try_catch, state_of in *.
  by destruct (handleCmd_body msg ws s) as [[[[]|e] s1] es1].
Qed.

Lemma handleCmd_total msg ws : total (handleCmd (L:=L) msg ws).
Proof.
  apply total_try_catch. intros e s. unfold send, ws_send, emit.
  cbn. eauto.
Qed.

(** C1.  Every command handed to [handleCmd] is answered by exactly one
    response frame, written to the socket the command came from and to
    no other, and carrying the command's [id]: [ok = true] when a known
    command ran to completion, [ok = false] with ["Unknown command"]
    for an unknown name, and [ok = false] with the text of the caught
    value (for an [Error] with a message, that message) when handling
    raised.  The handler itself never raises. *)
Theorem handleCmd_one_response msg ws s :
  let r := handleCmd msg ws s in
  result_of r = Returns tt /\
  exists resp,
    (forall ws', responses_to ws' (trace_of r)
                 = if bool_decide (ws' = ws) then [resp] else []) /\
    res_id resp = cmd_id msg /\
    match result_of (handleCmd_body msg ws s) with
    | Returns _ =>
        if known_command (cmd_name msg)
        then res_ok resp = true /\ res_error resp = None
        else res_ok resp = false /\ res_error resp = Some (lit "Unknown command")
    | Throws e =>
        res_ok resp = false /\
        res_error resp = Some (describe_thrown (lit "error") e) /\
        match e with
        | ThrownError _ (c :: m) => res_error resp = Some (c :: m)
        | _ => True
        end
    end.
Proof.
  destruct (handleCmd_body_run msg ws s) as [_ Hrun].
  unfold handleCmd, try_catch, result_of, state_of, trace_of in *.
  destruct (handleCmd_body msg ws s) as [[[[]|e] s1] es1]; cbn in *.
  - destruct Hrun as (resp & pre & post & -> & Hpre & Hpost & Hid & Hok).
    split; [done|]. exists resp. split_and!; [|done|].
    + intros ws'. case_bool_decide as Hws; [subst ws'|].
      * by apply responses_to_self.
      * by apply responses_to_other.
    + destruct (known_command (cmd_name msg)); [done|by subst resp].
  - split; [done|].
    exists (error_response msg (describe_thrown (lit "error") e)).
    rewrite <- (app_nil_r [WsSend _ _]), <- app_comm_cons.
    split_and!; try done.
    + intros ws'. case_bool_decide as Hws; [subst ws'|].
      * by apply responses_to_self.
      * by apply responses_to_other.
    + by destruct e as [name [|c m]| |].
Qed.

(** C4.  A command whose name is none of [getPageInfo], [setFeature],
    [sendChat] is answered with [ok = false] and the non-empty error
    ["Unknown command"]; that response is all the handler does: it
    closes or terminates no socket and leaves the server state, hence
    the active set, as it was. *)
Theorem unknown_command_keeps_connection msg ws s :
  cmd_name msg ≠ lit "getPageInfo" ->
  cmd_name msg ≠ lit "setFeature" ->
  cmd_name msg ≠ lit "sendChat" ->
  let r := handleCmd msg ws s in
  exists resp,
    trace_of r = [WsSend ws (ResFrame resp)] /\
    res_id resp = cmd_id msg /\ res_ok resp = false /\
    (exists c err, res_error resp = Some (c :: err)) /\
    state_of r = s /\
    (ws ∈ clients s -> ws ∈ clients (state_of r)) /\
    (forall c code reason, WsClose c code reason ∉ trace_of r) /\
    (forall c, WsTerminate c ∉ trace_of r).
Proof.
  intros Hget Hset Hchat.
  unfold handleCmd, try_catch, handleCmd_body.
  rewrite !bool_decide_false by done. cbn.
  exists (error_response msg (lit "Unknown command")).
  split_and!; try done.
  - by eexists _, _.
  - intros c code reason Hin. by apply list_elem_of_singleton in Hin.
  - intros c Hin. by apply list_elem_of_singleton in Hin.
Qed.

(** *** Admission *)

Ltac run_m :=
  unfold notifyRendererConnected, send, ws_send, ws_close, ws_terminate, ws_ping,
    mbind, M_bind, mret, M_ret, bind, ret, get, gets, modify, emit, when,
    lift_outcome, throw; cbn.

Ltac use_emit :=
  match goal with
  | |- context [emitEvent ?n ?d ?st] =>
      let es := fresh "es" in
      destruct (emitEvent_run n d st) as (es & -> & ?); cbn
  | |- context [emitChat ?r ?t ?st] =>
      let es := fresh "es" in
      destruct (emitChat_run r t st) as (es & -> & ?); cbn
  end.

Lemma refused_connection_run ws req s :
  jwt_verify (now s) (bearer_token req) (secret_of s) = false ->
  step (Connection ws req) s
  = (Returns tt,
     with_ready (fun r => r ∖ {[ws]}) (with_ready (fun r => {[ws]} ∪ r) s),
     [WsClose ws 4001 (lit "unauthorized")]).
Proof.
  intros Hv. cbn [step]. unfold onConnection, authOk, mbind, M_bind, bind; cbn.
  unfold secret_of in Hv. by rewrite Hv.
Qed.

Lemma admitted_connection_clients ws req s :
  jwt_verify (now s) (bearer_token req) (secret_of s) = true ->
  clients (state_of (step (Connection ws req) s)) = set_add ws (clients s).
Proof.
  intros Hv. cbn [step]. unfold onConnection, authOk, mbind, M_bind, bind; cbn.
  unfold secret_of in Hv. rewrite Hv; cbn.
  unfold notifyRendererConnected; run_m.
  destruct (activeTab (window s)) as [active|]; cbn; [|done].
  unfold broadcastActiveTab. by use_emit.
Qed.

Lemma elem_of_set_delete (c ws : nat) (l : list nat) :
  c ∈ set_delete ws l <-> c ∈ l /\ c ≠ ws.
Proof. unfold set_delete. by rewrite list_elem_of_filter, (comm and). Qed.

Lemma elem_of_set_add (c ws : nat) (l : list nat) :
  c ∈ set_add ws l <-> c ∈ l \/ c = ws.
Proof.
  unfold set_add. case_bool_decide as Hin.
  - split; [by left|]. by intros [?| ->].
  - by rewrite elem_of_app, list_elem_of_singleton.
Qed.

Lemma heartbeat_one_run c s :
  heartbeat_one c s =
  if bool_decide (connectionAlive s !! c = Some false)
  then (Returns tt,
        with_clients (set_delete c) (with_ready (fun r => r ∖ {[c]}) s),
        [WsTerminate c])
  else (Returns tt, with_alive (fun m => <[c:=false]> m) s, [WsPing c]).
Proof.
  unfold heartbeat_one, mbind, M_bind, bind; cbn. by case_bool_decide.
Qed.

(** Events that can only shrink the active set, or leave it alone. *)
Lemma step_clients_subseteq ev s c :
  (forall ws req, ev = Connection ws req ->
     jwt_verify (now s) (bearer_token req) (secret_of s) = false) ->
  c ∈ clients (state_of (step ev s)) -> c ∈ clients s.
Proof.
  intros Hconn. destruct ev as [ws req|ws|ws raw|ws| |t];
    [by rewrite refused_connection_run by eauto|cbn [step]..].
  - unfold mbind, M_bind, bind; cbn. by case_bool_decide.
  - unfold mbind, M_bind, bind; cbn. case_bool_decide; cbn; [|done].
    destruct raw as [| |msg]; cbn; try done.
    pose proof (handleCmd_sockets msg ws s) as Hs.
    unfold state_of in *. destruct (handleCmd msg ws s) as [[r s1] es1]; cbn in *.
    unfold sockets in Hs. injection Hs as Hc _ _ _. by rewrite Hc.
  - unfold mbind, M_bind, bind; cbn. case_bool_decide; cbn; [|done].
    unfold onClose; run_m.
    case_bool_decide; cbn; rewrite elem_of_set_delete; tauto.
  - unfold heartbeat, mbind, M_bind, bind; cbn.
    assert (keeps (fun s' => c ∈ clients s' -> c ∈ clients s) (fun _ => True)
              (for_each (clients s) heartbeat_one)) as Hk.
    { apply keeps_for_each. intros x s' HP. rewrite heartbeat_one_run.
      case_bool_decide; cbn; (split; [|by repeat constructor]); [|done].
      rewrite elem_of_set_delete. tauto. }
    destruct (Hk s) as [Hc _]; [done|]. unfold state_of in *.
    by destruct (for_each (clients s) heartbeat_one s) as [[r s1] es1].
  - done.
Qed.

Lemma step_total ev s : exists s' es, step ev s = (Returns tt, s', es).
Proof.
  assert (total (step ev)) as Ht.
  { destruct ev as [ws req|ws|ws raw|ws| |t]; cbn [step].
    - unfold onConnection. apply total_bind; [apply total_modify|intros _].
      apply total_bind.
      { unfold authOk. apply total_bind; [apply total_get|intros s0].
        destruct (jwt_verify _ _ _); [apply total_ret|].
        apply total_bind; [|intros; apply total_ret].
        apply total_bind; [apply total_emit|intros; apply total_modify]. }
      intros [|]; cbn; [|apply total_ret].
      repeat (apply total_bind; [apply total_modify|intros _]).
      apply total_bind.
      { apply total_bind; [apply total_emit|intros; apply total_emit]. }
      intros _. apply total_bind; [apply total_gets|intros w].
      destruct (activeTab w); [|apply total_ret].
      intros s0. destruct (emitEvent_run (lit "activeTab")
        (ActiveTab (Some (tab_id t)) (tab_url t)) s0) as (es & Hrun & _).
      unfold broadcastActiveTab, result_of. rewrite Hrun. eauto.
    - apply total_bind; [apply total_get|intros s0].
      apply total_when, total_modify.
    - apply total_bind; [apply total_get|intros s0].
      apply total_when. destruct raw; cbn [onMessage]; try (intros ?; cbn; by eauto).
      intros s1. destruct (handleCmd_total msg ws s1) as [[] Hr].
      destruct (handleCmd msg ws s1) as [[r s2] es]. eauto.
    - apply total_bind; [apply total_modify|intros _].
      apply total_bind; [apply total_get|intros s0].
      apply total_when. apply total_bind; [apply total_modify|intros _].
      apply total_bind; [apply total_get|intros s1].
      apply total_when.
      apply total_bind; [apply total_emit|intros; apply total_emit].
    - apply total_bind; [apply total_get|intros s0].
      apply total_for_each. intros c s1. rewrite heartbeat_one_run.
      case_bool_decide; cbn; eauto.
    - apply total_modify. }
  destruct (Ht s) as [[] Hr]. unfold result_of in Hr.
  destruct (step ev s) as [[r s'] es]; cbn in *; subst. eauto.
Qed.

Lemma run_cons ev evs s :
  state_of (run (ev :: evs) s) = state_of (run evs (state_of (step ev s))).
Proof.
  unfold run; cbn [for_each]. unfold bind, state_of.
  destruct (step_total ev s) as (s' & es & ->); cbn.
  by destruct (for_each evs step s') as [[r s2] es2].
Qed.

Lemma refused_never_admitted ws evs s :
  ws ∉ clients s -> always_refused ws evs s ->
  ws ∉ clients (state_of (run evs s)).
Proof.
  revert s. induction evs as [|ev evs IH]; intros s Hnot Href; [done|].
  destruct Href as [Hev Hrest]. rewrite run_cons. apply IH; [|done].
  destruct ev as [ws' req| | | | |];
    try (intros Hin; apply Hnot; revert Hin; by apply step_clients_subseteq).
  destruct (jwt_verify (now s) (bearer_token req) (secret_of s)) eqn:Hv.
  - rewrite admitted_connection_clients, elem_of_set_add by done.
    intros [?| ->]; [done|]. by specialize (Hev eq_refl).
  - by rewrite refused_connection_run.
Qed.

(** C2.  A handshake whose bearer token (the third comma-separated
    entry of the subprotocol header) is refused by [jwt.verify], for a
    bad signature or for its time bounds such as an [exp] in the past,
    is answered by closing the socket with code 4001 and nothing else;
    the active set and its size are unchanged.  As long as every
    handshake of that socket is refused, no run of the server ever puts
    it into the active set. *)
Theorem unauthorized_never_active ws req s :
  jwt_verify (now s) (bearer_token req) (secret_of s) = false ->
  let r := step (Connection ws req) s in
  trace_of r = [WsClose ws 4001 (lit "unauthorized")] /\
  clients (state_of r) = clients s /\
  length (clients (state_of r)) = length (clients s) /\
  forall evs s0,
    ws ∉ clients s0 -> always_refused ws evs s0 ->
    ws ∉ clients (state_of (run evs s0)).
Proof.
  intros Hv. rewrite refused_connection_run by done. cbn.
  split_and!; try done. intros evs s0. apply refused_never_admitted.
Qed.

(** *** Heartbeat *)

Lemma admitted_connection_sockets ws req s :
  jwt_verify (now s) (bearer_token req) (secret_of s) = true ->
  sockets (state_of (step (Connection ws req) s))
  = (set_add ws (clients s), <[ws:=true]> (connectionAlive s),
     {[ws]} ∪ listening s, {[ws]} ∪ ready s).
Proof.
  intros Hv. cbn [step]. unfold onConnection, authOk, mbind, M_bind, bind; cbn.
  unfold secret_of in Hv. rewrite Hv; cbn.
  unfold notifyRendererConnected; run_m.
  destruct (activeTab (window s)) as [active|]; cbn; [|done].
  unfold broadcastActiveTab. by use_emit.
Qed.

Lemma heartbeat_one_stale c ws s :
  c = ws \/ stale ws s -> stale ws (state_of (heartbeat_one c s)).
Proof.
  rewrite heartbeat_one_run. unfold stale.
  case_bool_decide as Hc; cbn; rewrite ?elem_of_set_delete.
  - intros [->|[?|?]]; tauto.
  - destruct (decide (c = ws)) as [->|Hne].
    + intros _. right. apply lookup_insert_eq.
    + rewrite lookup_insert_ne by done. tauto.
Qed.

Lemma heartbeat_one_absent c ws s :
  ws ∉ clients s -> ws ∉ clients (state_of (heartbeat_one c s)).
Proof.
  rewrite heartbeat_one_run.
  case_bool_decide; cbn; rewrite ?elem_of_set_delete; tauto.
Qed.

Lemma heartbeat_one_subseteq c ws s :
  ws ∈ clients (state_of (heartbeat_one c s)) -> ws ∈ clients s.
Proof.
  rewrite heartbeat_one_run.
  case_bool_decide; cbn; rewrite ?elem_of_set_delete; tauto.
Qed.

Lemma heartbeat_loop_absent l ws s :
  ws ∉ clients s -> ws ∉ clients (state_of (for_each l heartbeat_one s)).
Proof.
  intros Hnot.
  destruct (keeps_for_each (fun s' => ws ∉ clients s') (fun _ => True)
              l heartbeat_one) with (s := s) as [Hc _]; [|done..].
  intros c s' HP. split; [by apply heartbeat_one_absent|].
  rewrite heartbeat_one_run. case_bool_decide; by repeat constructor.
Qed.

Lemma for_each_cons_state {A} (f : A -> M (Server L) effect unit) x l s :
  total (f x) ->
  state_of (for_each (x :: l) f s) = state_of (for_each l f (state_of (f x s))).
Proof.
  intros Ht. destruct (Ht s) as [[] Hr]. cbn [for_each].
  unfold bind, state_of, result_of in *.
  destruct (f x s) as [[r s1] es1]; cbn in *; subst r.
  by destruct (for_each l f s1) as [[r s2] es2].
Qed.

Lemma heartbeat_one_total c : total (heartbeat_one (L:=L) c).
Proof. intros s. rewrite heartbeat_one_run. case_bool_decide; cbn; eauto. Qed.

Lemma heartbeat_loop_stale l ws s :
  ws ∈ l \/ stale ws s -> stale ws (state_of (for_each l heartbeat_one s)).
Proof.
  revert s. induction l as [|c l IH]; intros s.
  - intros [Hin|?]; [by apply elem_of_nil in Hin|done].
  - rewrite for_each_cons_state by apply heartbeat_one_total.
    rewrite elem_of_cons. intros [[->|Hin]|Hst]; apply IH.
    + right. apply heartbeat_one_stale. by left.
    + by left.
    + right. apply heartbeat_one_stale. by right.
Qed.

Lemma heartbeat_loop_evicts l ws s :
  stale ws s -> (ws ∈ clients s -> ws ∈ l) ->
  ws ∉ clients (state_of (for_each l heartbeat_one s)).
Proof.
  revert s. induction l as [|c l IH]; intros s Hst Hin.
  - cbn. intros Hc. by apply Hin, elem_of_nil in Hc.
  - rewrite for_each_cons_state by apply heartbeat_one_total.
    destruct (decide (c = ws)) as [->|Hne].
    + apply heartbeat_loop_absent. rewrite heartbeat_one_run.
      destruct Hst as [Hnot|Hfalse].
      * case_bool_decide; cbn; rewrite ?elem_of_set_delete; tauto.
      * rewrite bool_decide_true by done; cbn. rewrite elem_of_set_delete. tauto.
    + apply IH; [apply heartbeat_one_stale; by right|].
      intros Hc. apply heartbeat_one_subseteq, Hin, elem_of_cons in Hc.
      by destruct Hc as [->|].
Qed.

Lemma tick_state s :
  state_of (step Tick s) = state_of (for_each (clients s) heartbeat_one s).
Proof.
  cbn [step]. unfold heartbeat, mbind, M_bind, bind, get, state_of; cbn.
  by destruct (for_each (clients s) heartbeat_one s) as [[r s1] es1].
Qed.

Lemma tick_trace s :
  trace_of (step Tick s) = trace_of (for_each (clients s) heartbeat_one s).
Proof.
  cbn [step]. unfold heartbeat, mbind, M_bind, bind, get, trace_of; cbn.
  by destruct (for_each (clients s) heartbeat_one s) as [[r s1] es1].
Qed.

Lemma tick_stale ws s : stale ws (state_of (step Tick s)).
Proof.
  rewrite tick_state. apply heartbeat_loop_stale.
  destruct (decide (ws ∈ clients s)); [by left|by right; left].
Qed.

Lemma tick_evicts ws s : stale ws s -> ws ∉ clients (state_of (step Tick s)).
Proof. intros Hst. rewrite tick_state. by apply heartbeat_loop_evicts. Qed.

Lemma silent_step_stale ev ws s :
  match ev with
  | Pong ws' | Connection ws' _ => ws' ≠ ws
  | _ => True
  end ->
  stale ws s -> stale ws (state_of (step ev s)).
Proof.
  intros Hev Hst. destruct ev as [ws' req|ws'|ws' raw|ws'| |t].
  - destruct (jwt_verify (now s) (bearer_token req) (secret_of s)) eqn:Hv.
    + pose proof (admitted_connection_sockets ws' req s Hv) as Hs.
      unfold sockets in Hs. injection Hs as Hc Ha _ _.
      unfold stale. cbn [step] in *.
      rewrite Hc, Ha, elem_of_set_add, lookup_insert_ne by done.
      destruct Hst; [left|by right]. intros [?|?]; by subst.
    + by rewrite refused_connection_run.
  - cbn [step]; unfold onPong; run_m. case_bool_decide; cbn; [|done].
    unfold stale in *; cbn. by rewrite lookup_insert_ne.
  - cbn [step]; run_m. case_bool_decide; cbn; [|done].
    destruct raw as [| |msg]; cbn; try done.
    pose proof (handleCmd_sockets msg ws' s) as Hs.
    unfold state_of in *. destruct (handleCmd msg ws' s) as [[r s1] es1]; cbn in *.
    unfold sockets in Hs. injection Hs as Hc Ha _ _.
    unfold stale. by rewrite Hc, Ha.
  - cbn [step]; unfold onClose; run_m. case_bool_decide; cbn; [|done].
    unfold stale in *.
    case_bool_decide; cbn; rewrite elem_of_set_delete; tauto.
  - apply tick_stale.
  - done.
Qed.

Lemma run_app evs1 evs2 s :
  state_of (run (evs1 ++ evs2) s) = state_of (run evs2 (state_of (run evs1 s))).
Proof.
  revert s. induction evs1 as [|ev evs1 IH]; intros s; [done|].
  by rewrite <- app_comm_cons, !run_cons, IH.
Qed.

Lemma silent_run_stale evs ws s :
  silent ws evs -> stale ws s -> stale ws (state_of (run evs s)).
Proof.
  intros Hsil. revert s. induction Hsil as [|ev evs Hev _ IH]; intros s Hst; [done|].
  rewrite run_cons. by apply IH, silent_step_stale.
Qed.

Lemma heartbeat_loop_other l ws s :
  ws ∉ l ->
  let r := for_each l heartbeat_one s in
  connectionAlive (state_of r) !! ws = connectionAlive s !! ws /\
  (ws ∈ clients (state_of r) <-> ws ∈ clients s).
Proof.
  revert s. induction l as [|c l IH]; intros s Hnot; [done|].
  apply not_elem_of_cons in Hnot as [Hne Hnot]. cbn zeta.
  rewrite for_each_cons_state by apply heartbeat_one_total.
  destruct (IH (state_of (heartbeat_one c s)) Hnot) as [-> ->].
  rewrite heartbeat_one_run.
  case_bool_decide; cbn; rewrite ?elem_of_set_delete, ?lookup_insert_ne by done;
    tauto.
Qed.

Lemma for_each_total_run {A} (f : A -> M (Server L) effect unit) l s :
  (forall x, total (f x)) ->
  for_each l f s
  = (Returns tt, state_of (for_each l f s), trace_of (for_each l f s)).
Proof.
  intros Ht. destruct (total_for_each l f Ht s) as [[] Hr].
  unfold result_of, state_of, trace_of in *.
  destruct (for_each l f s) as [[r s1] es1]; cbn in *. by subst.
Qed.

(** C3.  At a heartbeat tick every active connection is visited once:
    one whose liveness flag is [false] is terminated and leaves the
    active set; any other has its flag set to [false], is sent a probe
    and stays.  A pong sets the flag of its connection to [true].
    Hence a connection that sends no pong between two ticks is out of
    the active set after the second of them, that is, no later than the
    second probe after its last pong. *)
Theorem heartbeat_evicts_silent_connection ws :
  (forall s, NoDup (clients s) -> ws ∈ clients s ->
     let r := step Tick s in
     if bool_decide (connectionAlive s !! ws = Some false)
     then WsTerminate ws ∈ trace_of r /\ ws ∉ clients (state_of r)
     else WsPing ws ∈ trace_of r /\ ws ∈ clients (state_of r)
          /\ connectionAlive (state_of r) !! ws = Some false) /\
  (forall s, ws ∈ listening s ->
     connectionAlive (state_of (step (Pong ws) s)) !! ws = Some true) /\
  (forall s evs, silent ws evs ->
     ws ∉ clients (state_of (run (Tick :: evs ++ [Tick]) s))).
Proof.
  split_and!.
  - intros s Hnd Hin. cbn zeta. rewrite tick_state, tick_trace.
    apply list_elem_of_split in Hin as (l1 & l2 & Hl). rewrite Hl in Hnd |- *.
    apply NoDup_app in Hnd as (_ & Hl1 & Hl2).
    apply NoDup_cons in Hl2 as [Hl2 _].
    assert (ws ∉ l1) as Hl1' by (intros ?; eapply Hl1; [done|by left]).
    rewrite for_each_app. unfold bind.
    rewrite (for_each_total_run _ l1) by apply heartbeat_one_total.
    destruct (heartbeat_loop_other l1 ws s Hl1') as [Ha1 Hc1].
    set (s1 := state_of (for_each l1 heartbeat_one s)) in *.
    cbn [for_each]. unfold bind. rewrite heartbeat_one_run, <- Ha1.
    assert (ws ∈ clients s1) as Hin1.
    { apply Hc1. rewrite Hl, elem_of_app, elem_of_cons. tauto. }
    case_bool_decide as Hflag.
    + rewrite (for_each_total_run _ l2) by apply heartbeat_one_total.
      unfold trace_of at 1, state_of at 1; cbn. split.
      * rewrite elem_of_app, elem_of_cons. tauto.
      * apply heartbeat_loop_absent; cbn. rewrite elem_of_set_delete. tauto.
    + rewrite (for_each_total_run _ l2) by apply heartbeat_one_total.
      unfold trace_of at 1, state_of at 1 3; cbn.
      destruct (heartbeat_loop_other l2 ws
                  (with_alive (fun m => <[ws:=false]> m) s1) Hl2) as [-> ->].
      cbn. split_and!; [|done|apply lookup_insert_eq].
      rewrite elem_of_app, elem_of_cons. tauto.
  - intros s Hl. cbn [step]; unfold onPong; run_m.
    rewrite bool_decide_true by done; cbn. apply lookup_insert_eq.
  - intros s evs Hsil.
    rewrite run_cons, run_app, run_cons. cbn.
    apply tick_evicts, silent_run_stale, tick_stale. done.
Qed.

End Facts.

Import Fixtures Wiring.
#[local] Existing Instance fixture_jwt.

Lemma unknown_command_keeps_connection_witness :
  let r := handleCmd reboot_command 1 server_with_two in
  exists resp,
    trace_of r = [WsSend 1 (ResFrame resp)] /\
    res_id resp = lit "c-17" /\ res_ok resp = false /\
    (exists c err, res_error resp = Some (c :: err)) /\
    state_of r = server_with_two /\
    (1 ∈ clients server_with_two -> 1 ∈ clients (state_of r)) /\
    (forall c code reason, WsClose c code reason ∉ trace_of r) /\
    (forall c, WsTerminate c ∉ trace_of r).
Proof.
  apply (unknown_command_keeps_connection reboot_command 1 server_with_two);
    by vm_compute.
Defined.

Lemma unauthorized_never_active_witness :
  let r := step (Connection 7 expired_handshake) server_with_two in
  trace_of r = [WsClose 7 4001 (lit "unauthorized")] /\
  clients (state_of r) = [1; 2] /\
  length (clients (state_of r)) = 2 /\
  forall evs s0,
    7 ∉ clients s0 -> always_refused 7 evs s0 ->
    7 ∉ clients (state_of (run evs s0)).
Proof.
  apply (unauthorized_never_active 7 expired_handshake server_with_two).
  by vm_compute.
Defined.

Lemma heartbeat_evicts_silent_connection_witness :
  (let r := step Tick server_with_two in
   WsPing 1 ∈ trace_of r /\ 1 ∈ clients (state_of r)
   /\ connectionAlive (state_of r) !! 1 = Some false) /\
  connectionAlive (state_of (step (Pong 1) server_with_two)) !! 1 = Some true /\
  1 ∉ clients (state_of (run (Tick :: [Message 1 NotCmd; Pong 2] ++ [Tick])
                            server_with_two)).
Proof.
  destruct (heartbeat_evicts_silent_connection (L:=LLMClient.Client) 1)
    as (Htick & Hpong & Hevict).
  split_and!.
  - apply (Htick server_with_two).
    + apply NoDup_cons. split; [by intros ?%list_elem_of_singleton|apply NoDup_singleton].
    + by left.
  - apply (Hpong server_with_two). cbn. set_solver.
  - apply (Hevict server_with_two). by repeat constructor.
Defined.

End BridgeSpec.

(** ** Provider selection *)

Module ModelManagerSpec.
Import JS ModelManager Fixtures.

Lemma initializeModel_online env st p :
  provider st = Online p ->
  let st' := initializeModel env st in
  provider st' = provider st /\
  baseOnlineProvider st' = baseOnlineProvider st /\
  offlineMode st' = offlineMode st /\
  appleAvailabilityChecked st' = appleAvailabilityChecked st /\
  appleAvailable st' = appleAvailable st /\
  appleUnavailableReason st' = appleUnavailableReason st.
Proof.
  intros Hp. unfold initializeModel. rewrite Hp.
  destruct (getApiKey env (baseOnlineProvider st)) as [[|c k]|]; try done.
  by destruct (baseOnlineProvider st) eqn:Hb; cbn.
Qed.

Lemma initializeModel_frame env st :
  let st' := initializeModel env st in
  provider st' = provider st /\
  baseOnlineProvider st' = baseOnlineProvider st /\
  offlineMode st' = offlineMode st.
Proof.
  destruct (provider st) as [p|] eqn:Hp.
  - destruct (initializeModel_online env st p Hp) as (H1 & H2 & H3 & _).
    by rewrite Hp in H1.
  - unfold initializeModel. rewrite Hp.
    destruct (appleAvailabilityChecked st); cbn.
    + destruct (appleAvailable st); cbn; [|done].
      by destruct (createAppleLanguageModel env).
    + destruct (available (checkAppleAvailability env)); cbn; [|done].
      by destruct (createAppleLanguageModel env).
Qed.

(** What bringing up the on-device provider leaves behind when it
    cannot be brought up. *)
Lemma switch_to_apple_unavailable env st :
  apple_unavailable env st ->
  let st1 := switch_to Apple env st in
  model st1 = None /\
  baseOnlineProvider st1 = baseOnlineProvider st /\
  appleAvailable st1 = false /\
  appleUnavailableReason st1 = unavailability_reason env st.
Proof.
  unfold apple_unavailable, unavailability_reason, apple_reported_available,
    switch_to, initializeModel; cbn.
  intros Hun. destruct (appleAvailabilityChecked st); cbn.
  - destruct (appleAvailable st) eqn:Hav; cbn; [|done].
    destruct Hun as [?|[e He]]; [done|]. by rewrite He.
  - destruct (available (checkAppleAvailability env)) eqn:Hav; cbn; [|done].
    destruct Hun as [?|[e He]]; [done|]. by rewrite He.
Qed.

Lemma setOfflineMode_false_result env st : (setOfflineMode false env st).1 = false.
Proof.
  unfold setOfflineMode. by destruct (offlineMode st) eqn:Hoff.
Qed.

Lemma switch_to_frame p env st :
  provider (switch_to p env st) = p /\
  baseOnlineProvider (switch_to p env st) = baseOnlineProvider st.
Proof.
  unfold switch_to.
  match goal with |- context [initializeModel env ?x] =>
    pose proof (initializeModel_frame env x) as (Hp & Hb & _) end.
  by rewrite Hp, Hb.
Qed.

Lemma switch_to_online env st p :
  let st' := switch_to (Online p) env st in
  provider st' = Online p /\
  appleAvailable st' = appleAvailable st /\
  appleUnavailableReason st' = appleUnavailableReason st.
Proof.
  unfold switch_to.
  match goal with |- context [initializeModel env ?x] =>
    destruct (initializeModel_online env x p eq_refl)
      as (Hp & _ & _ & _ & Hav & Hwhy) end.
  cbn zeta. by rewrite Hp, Hav, Hwhy.
Qed.

Lemma setOfflineMode_coherent enabled env st :
  coherent st -> coherent (setOfflineMode enabled env st).2.
Proof.
  unfold coherent, setOfflineMode. intros Hco.
  destruct (Bool.eqb (offlineMode st) enabled); [done|].
  destruct enabled; [destruct (model (switch_to Apple env st))|]; cbn;
    rewrite (proj1 (switch_to_frame _ _ _)); done.
Qed.

Lemma setOfflineMode_base enabled env st :
  baseOnlineProvider (setOfflineMode enabled env st).2 = baseOnlineProvider st.
Proof.
  unfold setOfflineMode.
  destruct (Bool.eqb (offlineMode st) enabled); [done|].
  destruct enabled; [destruct (model (switch_to Apple env st))|]; cbn;
    rewrite ?(proj2 (switch_to_frame _ _ _)); done.
Qed.

(** Going offline never leaves the manager on the Apple provider
    without a model. *)
Lemma setOfflineMode_true_usable env st :
  offlineMode st = false ->
  provider (setOfflineMode true env st).2 = Apple ->
  model (setOfflineMode true env st).2 <> None.
Proof.
  unfold setOfflineMode. intros ->; cbn.
  destruct (model (switch_to Apple env st)) eqn:Hm; cbn; [by rewrite Hm|].
  by rewrite (proj1 (switch_to_frame _ _ _)).
Qed.

(** Going online: the provider is the base online provider, and there
    is a model exactly when its API key is configured. *)
Lemma setOfflineMode_false_online env st :
  offlineMode st = true ->
  let r := setOfflineMode false env st in
  provider r.2 = Online (baseOnlineProvider st) /\
  (model r.2 <> None <-> nonempty (env_or (getApiKey env (baseOnlineProvider st)) []) = true).
Proof.
  unfold setOfflineMode. intros ->; cbn.
  split; [by rewrite (proj1 (switch_to_frame _ _ _))|].
  unfold switch_to, initializeModel; cbn.
  destruct (getApiKey env (baseOnlineProvider st)) as [[|c k]|]; cbn; try done.
  by destruct (baseOnlineProvider st).
Qed.

(** C5, as the code has it.  When [setOfflineMode(true)] is called
    while the on-device provider cannot be brought up (it is reported
    unavailable, or the creation of its model raises): a manager that is
    not in offline mode resolves the call to [false] and is left on its
    online provider, not in offline mode, with the reason of the failure
    recorded in [appleUnavailableReason]; a manager that already is in
    offline mode resolves it to [true] and is left as it was. *)
Theorem setOfflineMode_unavailable_falls_back env st :
  apple_unavailable env st ->
  let r := setOfflineMode true env st in
  if offlineMode st then r = (true, st)
  else
    r.1 = false /\
    provider r.2 = Online (baseOnlineProvider st) /\
    offlineMode r.2 = false /\
    appleAvailable r.2 = false /\
    appleUnavailableReason r.2 = unavailability_reason env st.
Proof.
  intros Hun. destruct (offlineMode st) eqn:Hoff.
  { unfold setOfflineMode. by rewrite Hoff. }
  destruct (switch_to_apple_unavailable env st Hun) as (Hm & Hb & Hav & Hwhy).
  unfold setOfflineMode. rewrite Hoff; cbn. rewrite Hm; cbn.
  destruct (switch_to_online env (switch_to Apple env st)
              (baseOnlineProvider (switch_to Apple env st))) as (Hp & Hav2 & Hwhy2).
  by rewrite Hp, Hav2, Hwhy2, Hb.
Qed.

Lemma setOfflineMode_unavailable_falls_back_witness :
  let r := setOfflineMode true env_online (init env_online (new env_online)) in
  r.1 = false /\
  provider r.2 = Online openai /\
  offlineMode r.2 = false /\
  appleAvailable r.2 = false /\
  appleUnavailableReason r.2 = Some (lit "unavailable-or-not-installed").
Proof.
  apply (setOfflineMode_unavailable_falls_back env_online
           (init env_online (new env_online))).
  left. reflexivity.
Defined.

(** C5 as stated fails: a manager that was started in offline mode on
    a machine without the on-device model is on the Apple provider
    with no model; [setOfflineMode(true)] then resolves to [true] and
    leaves it there. *)
Lemma setOfflineMode_already_offline_counterexample :
  let st := init env_no_apple (new env_no_apple) in
  let r := setOfflineMode true env_no_apple st in
  apple_unavailable env_no_apple st /\
  r.1 = true /\ provider r.2 = Apple /\ model r.2 = None.
Proof. cbn zeta. split; [left|]; by vm_compute. Qed.

(** C10.  [setOfflineMode(false)] resolves to [false] on every call,
    whether or not the switch to the online provider produced a model
    handle: both outcomes occur, so only the provider state tells them
    apart. *)
Theorem setOfflineMode_false_always_false :
  (forall env st, (setOfflineMode false env st).1 = false) /\
  (let r := setOfflineMode false env_apple_with_key
              (init env_apple_with_key (new env_apple_with_key)) in
   r.1 = false /\ provider r.2 = Online openai /\ offlineMode r.2 = false /\
   model r.2 = Some (OpenAIModel (lit "gpt-4o-mini"))) /\
  (let r := setOfflineMode false env_apple_no_key
              (init env_apple_no_key (new env_apple_no_key)) in
   r.1 = false /\ provider r.2 = Online openai /\ offlineMode r.2 = false /\
   model r.2 = None).
Proof.
  split; [apply setOfflineMode_false_result|]. split; by vm_compute.
Qed.

(** The manager as constructed and as initialised is coherent. *)
Lemma new_coherent env : coherent (new env).
Proof. unfold coherent, new; cbn. by destruct (getInitialOfflineMode env). Qed.

Lemma init_coherent env st : coherent st -> coherent (init env st).
Proof.
  unfold coherent, init. intros Hco.
  destruct (initializeModel_frame env st) as (-> & _ & ->). done.
Qed.

End ModelManagerSpec.

(** ** The conversation log *)

Module MessageStoreSpec.
Import JS Eff EffFacts Frames Orch MessageStore.

Lemma beginStream_run c0 s :
  exists s' es,
    beginStream c0 s = (Returns tt, s', es) /\
    open_slot (messages s) c0 s' /\ bridge s' = bridge s.
Proof.
  unfold beginStream, emitToRenderer, bridgeSafeChat, push, mbind, M_bind, bind,
    get, modify, emit, when; cbn.
  destruct (bridge s) eqn:Hb; cbn; eexists _, _; (split; [done|]);
    unfold open_slot; cbn; by rewrite ?Hb.
Qed.

Lemma appendStream_run pre acc c s :
  open_slot pre acc s ->
  exists s' es,
    appendStream c s = (Returns tt, s', es) /\
    open_slot pre (acc ++ c) s' /\ bridge s' = bridge s.
Proof.
  intros [Hm Hi].
  unfold appendStream, emitToRenderer, bridgeSafeChat, mbind, M_bind, bind,
    get, modify, emit, when; cbn.
  rewrite Hi, Hm. rewrite list_lookup_middle by done. cbn.
  destruct (bridge s) eqn:Hb; cbn; eexists _, _; (split; [done|]); cbn;
    unfold open_slot; cbn; rewrite Hm, Hi;
    by rewrite insert_app_r_alt, Nat.sub_diag by done.
Qed.

Lemma appendAll_run pre acc chunks s :
  open_slot pre acc s ->
  exists s' es,
    appendAll chunks s = (Returns tt, s', es) /\
    open_slot pre (acc ++ concat chunks) s' /\ bridge s' = bridge s.
Proof.
  revert acc s. induction chunks as [|c chunks IH]; intros acc s Hopen.
  - exists s, []. cbn. by rewrite app_nil_r.
  - destruct (appendStream_run pre acc c s Hopen) as (s1 & es1 & Hrun1 & Hopen1 & Hb1).
    destruct (IH (acc ++ c) s1 Hopen1) as (s2 & es2 & Hrun2 & Hopen2 & Hb2).
    exists s2, (es1 ++ es2). unfold appendAll in *. cbn [for_each]. unfold bind.
    rewrite Hrun1, Hrun2. cbn [concat]. rewrite app_assoc.
    split_and!; [done|done|congruence].
Qed.

(** C6.  [beginStream(c0)], [appendStream(c1)], ..., [appendStream(cN)],
    [endStream()] run to the end without raising, whatever the log held
    before; afterwards the log is the old log, untouched, followed by
    one assistant message whose content is [c0 + c1 + ... + cN], and no
    stream is open. *)
Theorem stream_builds_concatenation c0 chunks s :
  let r := streamAll c0 chunks s in
  result_of r = Returns tt /\
  messages (state_of r) = messages s ++ [streamed (c0 ++ concat chunks)] /\
  last (messages (state_of r)) = Some (streamed (c0 ++ concat chunks)) /\
  (forall i m, messages s !! i = Some m -> messages (state_of r) !! i = Some m) /\
  streamingIndex (state_of r) = None.
Proof.
  destruct (beginStream_run c0 s) as (s1 & es1 & Hrun1 & Hopen1 & _).
  destruct (appendAll_run (messages s) c0 chunks s1 Hopen1)
    as (s2 & es2 & Hrun2 & [Hm2 _] & _).
  unfold streamAll, endStream, emitToRenderer, mbind, M_bind, bind, get, modify, emit.
  rewrite Hrun1, Hrun2; cbn. rewrite Hm2.
  split_and!; try done.
  - apply last_snoc.
  - intros i m Hi. by apply lookup_app_l_Some.
Qed.

End MessageStoreSpec.

(** ** Stream consumption *)

Module StreamerSpec.
Import JS Eff EffFacts Frames Orch MessageStore Streamer MessageStoreSpec.

Lemma consume_chunk_run pre c l s :
  consuming pre l s ->
  exists l' s' es,
    consume_chunk c l s = (Returns l', s', es) /\
    consuming pre l' s' /\ finalText l' = finalText l ++ c.
Proof.
  intros Hinv. unfold consume_chunk.
  destruct c as [|u c]; cbn [nonempty negb].
  - exists l, s, []. rewrite app_nil_r. by split_and!.
  - unfold consuming in Hinv. destruct (first l) eqn:Hfirst.
    + destruct Hinv as [Hft Hm].
      destruct (beginStream_run (u :: c) s) as (s1 & es1 & Hrun & Hopen & _).
      unfold mbind, M_bind, bind. rewrite Hrun; cbn.
      eexists _, _, _. split; [done|]. unfold consuming; cbn.
      rewrite Hft; cbn. rewrite <- Hm. by split_and!.
    + destruct Hinv as [Hne Hinv].
      destruct (appendStream_run pre (finalText l) (u :: c) s Hinv)
        as (s1 & es1 & Hrun & Hopen & _).
      unfold mbind, M_bind, bind. rewrite Hrun; cbn.
      eexists _, _, _. split; [done|]. unfold consuming; cbn.
      split_and!; try done. by destruct (finalText l).
Qed.

Lemma consume_loop_run pre chunks l s :
  consuming pre l s ->
  exists l' s' es,
    consume_loop chunks l s = (Returns l', s', es) /\
    consuming pre l' s' /\ finalText l' = finalText l ++ concat chunks /\
    (first l' = true -> finalText l' = []).
Proof.
  revert l s. induction chunks as [|c chunks IH]; intros l s Hinv.
  - exists l, s, []. cbn. rewrite app_nil_r. split_and!; try done.
    unfold consuming in Hinv. intros Hf. rewrite Hf in Hinv. tauto.
  - destruct (consume_chunk_run pre c l s Hinv) as (l1 & s1 & es1 & Hrun1 & Hinv1 & Hft1).
    destruct (IH l1 s1 Hinv1) as (l2 & s2 & es2 & Hrun2 & Hinv2 & Hft2 & Hfirst2).
    exists l2, s2, (es1 ++ es2). cbn [consume_loop]. unfold mbind, M_bind, bind.
    rewrite Hrun1, Hrun2. cbn [concat]. split_and!; try done.
    by rewrite Hft2, Hft1, app_assoc.
Qed.

(** [consume] on a stream that ends: the chunks, empty ones skipped,
    end up concatenated in one new assistant message, or in none when
    the whole stream was empty; the resolved text is the same
    concatenation. *)
Lemma consume_builds_concatenation chunks s :
  let r := consume chunks None s in
  result_of r = Returns (concat chunks) /\
  messages (state_of r)
  = (if nonempty (concat chunks)
     then messages s ++ [streamed (concat chunks)] else messages s).
Proof.
  destruct (consume_loop_run (messages s) chunks start s) as
    (l & s1 & es & Hrun & Hinv & Hft & Hfirst); [done|].
  cbn in Hft. unfold consume, mbind, M_bind, bind. rewrite Hrun.
  unfold consume_end, endStream, emitToRenderer, mbind, M_bind, mret, M_ret,
    bind, ret, get, modify, emit.
  unfold consuming in Hinv. destruct (first l) eqn:Hf; cbn.
  - destruct Hinv as [Hnil Hm]. rewrite <- Hft, Hnil. by cbn.
  - destruct Hinv as (Hne & Hm & Hi). rewrite <- Hft. split; [done|].
    destruct (finalText l) as [|u t] eqn:Hl; cbn; done.
Qed.

End StreamerSpec.

(** ** Tools *)

Module ToolsSpec.
Import JS Page Frames Tools Fixtures.

Lemma result_payload_limited b info : size_limited (result_payload b info).
Proof.
  destruct b; unfold size_limited, slice0; cbn; [done|].
  rewrite !length_take. lia.
Qed.

(** C8 as stated fails twice.  A successful [get_page_info] emits a
    [toolResult] but no [toolCall]; and an [open_url] whose inspector
    raises emits its [toolCall] but no [toolResult]. *)
Lemma tool_events_counterexample :
  (let r := invoke Native working_inspector InvokeGetPageInfo in
   r.2 = PageResult sample_page /\
   filter (fun a => is_toolCall get_page_info a = true) r.1 = [] /\
   length (filter (fun a => is_toolResult get_page_info a = true) r.1) = 1) /\
  (let r := invoke Native broken_inspector (InvokeOpenUrl (lit "https://example.com")) in
   length (filter (fun a => is_toolCall open_url a = true) r.1) = 1 /\
   filter (fun a => is_toolResult open_url a = true) r.1 = []).
Proof. by vm_compute. Qed.

(** C8, as the code has it.  Every invocation of [open_url] first
    emits a [toolCall] event and then runs the inspector.  An
    invocation of either tool whose inspector call succeeds ends with
    running the inspector, recording the result with [setLast] and
    emitting one [toolResult] event, whose payload carries the title,
    the URL and the number of links and, in the native bundle, the
    summary cut to 300 code units and at most 8 links; the page info is
    what the model gets back.  When the inspector call raises, the
    model gets back an [{ error }] object with the text of the failure
    and no [toolResult] event is emitted. *)
Theorem tool_events_and_results b inspector i :
  let r := invoke b inspector i in
  match i with
  | InvokeOpenUrl u =>
      exists rest,
        r.1 = Emit (lit "toolCall") (ToolCall (lit "open_url") (Some u))
              :: Execute (Orch.OpenUrl u) :: rest
  | InvokeGetPageInfo => True
  end /\
  match inspector_answer inspector i with
  | Returns info =>
      (exists pre,
         r.1 = pre ++ [Execute (op_of i); SetLast info;
                       Emit (lit "toolResult")
                         (ToolResult (tool_name (tool_of i)) (result_payload b info))]
         /\ Forall (fun a => is_toolResult (tool_of i) a = false) pre)
      /\ size_limited (result_payload b info)
      /\ r.2 = PageResult info
  | Throws e =>
      r.2 = ErrorObject (describe_thrown (lit "failed") e)
      /\ Forall (fun a => is_toolResult (tool_of i) a = false) r.1
  end.
Proof.
  destruct i as [u|]; cbn.
  - unfold run_open_url. destruct (openUrlAndGetInfo inspector u) as [info|e]; cbn.
    + split; [by eexists|].
      split_and!; [|apply result_payload_limited|done].
      eexists [_]. split; [done|]. by repeat constructor.
    + split; [by eexists|].
      split; [done|]. by repeat constructor.
  - unfold run_get_page_info. destruct (getActivePageInfo inspector) as [info|e]; cbn.
    + split; [done|].
      split_and!; [|apply result_payload_limited|done].
      exists []. by split.
    + split; [done|]. split; [done|]. by repeat constructor.
Qed.

End ToolsSpec.

(** ** The orchestrator *)

Module LLMClientSpec.
Import JS Eff EffFacts Page Frames Orch ModelManager MessageStore Streamer Regex LLMClient Fixtures.

Lemma on_store_run {A} (m : M Store effect A) c :
  on_store m c
  = ((m (messageStore c)).1.1, with_store (m (messageStore c)).1.2 c,
     (m (messageStore c)).2).
Proof. unfold on_store. by destruct (m (messageStore c)) as [[r st] es]. Qed.

Lemma toBridge_run e c :
  toBridge e c = (Returns tt, c, if bridgeEmitter c then [ToBridge e] else []).
Proof. unfold toBridge, mbind, M_bind, bind, get, when; cbn. by destruct (bridgeEmitter c). Qed.

Lemma addAssistantMessage_run text c :
  addAssistantMessage text c
  = (Returns tt,
     with_store (with_messages (fun ms => ms ++ [{| role := assistant; content := Text text |}])
                   (messageStore c)) c,
     [ChatMessagesUpdated
        (MessageStore.messages (messageStore c)
         ++ [{| role := assistant; content := Text text |}])]).
Proof. reflexivity. Qed.

Lemma addUser_run content c :
  on_store (addUser content) c
  = (Returns tt,
     with_store (with_messages (fun ms => ms ++ [{| role := user; content := content |}])
                   (messageStore c)) c,
     [ChatMessagesUpdated
        (MessageStore.messages (messageStore c)
         ++ [{| role := user; content := content |}])]).
Proof. reflexivity. Qed.

(** The state left by [setOfflineMode]: the manager's new state, and
    the client's copies refreshed from it. *)
Lemma setOfflineMode_run enabled c :
  let rm := ModelManager.setOfflineMode enabled (env (world c)) (manager c) in
  exists c',
    setOfflineMode enabled c = (Returns rm.1, c', []) /\
    manager c' = rm.2 /\
    provider c' = ModelManager.provider rm.2 /\
    model c' = ModelManager.model rm.2 /\
    appleAvailable c' = match ModelManager.model rm.2 with Some _ => true | None => false end /\
    messageStore c' = messageStore c /\ window c' = window c /\
    world c' = world c /\ bridgeEmitter c' = bridgeEmitter c /\
    lastToolResult c' = lastToolResult c /\
    baseOnlineProvider c' = baseOnlineProvider c /\
    didAppleLocaleFallback c' = didAppleLocaleFallback c.
Proof.
  cbn zeta. unfold setOfflineMode, syncFromManager, mbind, M_bind, bind, get, modify.
  destruct (ModelManager.setOfflineMode enabled (env (world c)) (manager c)) as [r m].
  cbn. eexists. split; [done|]. by split_and!.
Qed.

Lemma setOfflineMode_in_sync enabled c :
  in_sync c -> in_sync (state_of (setOfflineMode enabled c)).
Proof.
  intros (Hp & Hm & Hb & Hco).
  destruct (setOfflineMode_run enabled c)
    as (c' & Hrun & Hman & Hp' & Hm' & _ & _ & _ & _ & _ & _ & Hb' & _).
  rewrite Hrun; cbn. unfold in_sync. rewrite Hman, Hp', Hm', Hb'.
  split_and!; try done.
  - by rewrite ModelManagerSpec.setOfflineMode_base.
  - by apply ModelManagerSpec.setOfflineMode_coherent.
Qed.

Lemma not_apple_offline c :
  in_sync c -> is_apple (provider c) = false ->
  ModelManager.offlineMode (manager c) = false.
Proof.
  intros (Hp & _ & _ & Hco) Hna. unfold coherent in Hco.
  destruct (ModelManager.offlineMode (manager c)); [|done].
  rewrite Hp, (proj1 Hco eq_refl) in Hna. done.
Qed.

Lemma broadcastOfflineMode_run b c :
  exists es, broadcastOfflineMode b c = (Returns tt, c, es) /\ Forall model_free es.
Proof.
  unfold broadcastOfflineMode, mbind, M_bind, bind, get, emit; cbn.
  destruct (window c); cbn; [|by eexists].
  rewrite toBridge_run. eexists; split; [done|].
  destruct (bridgeEmitter c); by repeat constructor.
Qed.

(** The preflight leaves the log and the window alone, calls no model
    and no tool, and never selects an on-device provider that cannot
    answer. *)
Lemma preflight_run c :
  in_sync c -> ~ apple_down c ->
  exists c' es,
    preflight c = (Returns tt, c', es) /\
    in_sync c' /\ ~ apple_down c' /\
    messageStore c' = messageStore c /\ window c' = window c /\
    bridgeEmitter c' = bridgeEmitter c /\
    Forall model_free es.
Proof.
  intros Hsync Hup. unfold preflight, mbind, M_bind, bind, get; cbn.
  destruct (is_apple (provider c)) eqn:Hap; cbn; [by eexists _, _|].
  destruct (negb _ || negb _); cbn; [|by eexists _, _].
  pose proof (setOfflineMode_in_sync true c Hsync) as Hsync'.
  destruct (setOfflineMode_run true c)
    as (c' & Hrun & Hman & Hp' & Hm' & Hav' & Hst & Hw & _ & Hbr & _).
  rewrite Hrun in Hsync' |- *; cbn in Hsync' |- *.
  assert (~ apple_down c') as Hup'.
  { intros [Hp [Hnone|Hav]].
    - rewrite Hp' in Hp. rewrite Hm' in Hnone.
      by apply (ModelManagerSpec.setOfflineMode_true_usable (env (world c)) (manager c));
        [apply not_apple_offline|..].
    - rewrite Hp' in Hp. rewrite Hav' in Hav.
      destruct (ModelManager.model _) eqn:Hmod; [done|].
      by apply (ModelManagerSpec.setOfflineMode_true_usable (env (world c)) (manager c));
        [apply not_apple_offline|..]. }
  destruct ((ModelManager.setOfflineMode true (env (world c)) (manager c)).1); cbn.
  - destruct (broadcastOfflineMode_run true c') as (es & -> & Hes).
    eexists _, _. by split_and!.
  - eexists _, _. by split_and!.
Qed.

(** C7, as the code has it.  Unless the client is on the on-device
    provider without a usable model, a user text that matches one of
    the "what page am I on" phrasings is answered from the active tab:
    with the active tab titled "Example" at https://example.com the
    turn appends the user's message and then exactly
    "You are on: Example — https://example.com" to the log, and the
    turn makes no provider call, runs no tool and inspects no page. *)
Theorem what_page_answered_directly request c tab :
  in_sync c ->
  ~ apple_down c ->
  detectWhatPageQuestion (message request) = true ->
  window c ≫= activeTab = Some tab ->
  tab_title tab = lit "Example" ->
  tab_url tab = lit "https://example.com" ->
  let r := sendChatMessage request c in
  result_of r = Returns tt /\
  MessageStore.messages (messageStore (state_of r))
  = MessageStore.messages (messageStore c)
    ++ [ {| role := user; content := Text (message request) |};
         {| role := assistant; content := Text example_reply |} ] /\
  Forall model_free (trace_of r).
Proof.
  intros Hsync Hup Hdetect Htab Htitle Hurl.
  unfold sendChatMessage, try_catch, sendChatMessage_body, mbind, M_bind, bind.
  rewrite addUser_run, toBridge_run.
  set (c1 := with_store _ c).
  destruct (preflight_run c1) as (c2 & es & -> & Hsync2 & Hup2 & Hst & Hw & Hbr & Hes);
    [done..|].
  unfold get.
  assert (is_apple (provider c2) && (negb (has_model c2) || negb (appleAvailable c2)) = false)
    as ->.
  { apply not_true_is_false. intros Hg. apply Hup2.
    apply andb_prop in Hg as [Hp Hd]. split; [by destruct (provider c2)|].
    apply orb_prop in Hd as [Hd|Hd]; [left|right].
    - unfold has_model in Hd. by destruct (model c2).
    - by destruct (appleAvailable c2). }
  rewrite Hdetect.
  assert (page_reply c2 = example_reply) as ->.
  { unfold page_reply. rewrite Hw. change (window c1) with (window c).
    rewrite Htab, Htitle, Hurl. by vm_compute. }
  unfold try_catch; cbn beta.
  rewrite addAssistantMessage_run; cbn beta iota.
  rewrite toBridge_run. cbn.
  rewrite Hst. cbn. rewrite <- app_assoc. split_and!; try done.
  apply Forall_cons; split; [done|].
  apply Forall_app; split; [destruct (bridgeEmitter c); by repeat constructor|].
  apply Forall_app; split; [done|].
  apply Forall_cons; split; [done|].
  destruct (bridgeEmitter c2); by repeat constructor.
Qed.

Lemma what_page_answered_directly_witness :
  let r := sendChatMessage what_page_request (client_of env_online []) in
  result_of r = Returns tt /\
  MessageStore.messages (messageStore (state_of r))
  = MessageStore.messages (messageStore (client_of env_online []))
    ++ [ {| role := user; content := Text (message what_page_request) |};
         {| role := assistant; content := Text example_reply |} ] /\
  Forall model_free (trace_of r).
Proof.
  apply (what_page_answered_directly what_page_request (client_of env_online [])
           example_tab).
  - repeat split; by vm_compute.
  - intros [Hp _]. by vm_compute in Hp.
  - by vm_compute.
  - reflexivity.
  - reflexivity.
  - reflexivity.
Defined.

(** C7 as stated fails: a client started in offline mode on a machine
    without the on-device model answers the same question, on the same
    tab, with its unavailability notice. *)
Lemma what_page_counterexample :
  let c := client_of env_no_apple [] in
  let r := sendChatMessage what_page_request c in
  detectWhatPageQuestion (message what_page_request) = true /\
  window c ≫= activeTab = Some example_tab /\
  MessageStore.messages (messageStore (state_of r))
  = [ {| role := user; content := Text (message what_page_request) |};
      {| role := assistant; content := Text apple_unavailable_text |} ] /\
  apple_unavailable_text <> example_reply.
Proof. cbn zeta. split_and!; by vm_compute. Qed.

(** *** The locale fallback *)

Create HintDb steady_db.

Ltac keeps_step :=
  first
    [ solve [auto with steady_db nocore]
    | apply keeps_ret | apply keeps_throw | apply keeps_lift | apply keeps_get
    | apply keeps_gets | (apply keeps_emit; done) | apply keeps_when
    | (apply keeps_bind; [|intros ?]) | (apply keeps_try_catch; [|intros ?])
    | (apply keeps_for_each; intros ?)
    | match goal with
      | |- keeps _ _ (if ?b then _ else _) => destruct b
      | |- keeps _ _ (match ?x with _ => _ end) => destruct x
      end ].

Ltac keeps_auto := repeat keeps_step; try done; eauto with steady_db.

Section Steady.
Context (flag : bool) (e0 : Env) (b0 : OnlineProvider).
Local Abbreviation P := (steady flag e0 b0).

Lemma steady_shell c c' :
  manager c' = manager c -> provider c' = provider c -> model c' = model c ->
  baseOnlineProvider c' = baseOnlineProvider c ->
  didAppleLocaleFallback c' = didAppleLocaleFallback c ->
  env (world c') = env (world c) ->
  P c -> P c'.
Proof.
  unfold steady, in_sync. intros -> -> -> -> -> ->. done.
Qed.

Lemma store_modify_no_retry (f : Store -> Store) :
  keeps (fun _ : Store => True) no_retry (modify f).
Proof. by apply keeps_modify. Qed.
Hint Resolve store_modify_no_retry : steady_db.

Lemma emitToRenderer_no_retry : keeps (fun _ : Store => True) no_retry emitToRenderer.
Proof. unfold emitToRenderer. keeps_auto. Qed.
Hint Resolve emitToRenderer_no_retry : steady_db.

Lemma bridgeSafeChat_no_retry t :
  keeps (fun _ : Store => True) no_retry (bridgeSafeChat t).
Proof. unfold bridgeSafeChat. keeps_auto. Qed.
Hint Resolve bridgeSafeChat_no_retry : steady_db.

Lemma beginStream_no_retry t : keeps (fun _ : Store => True) no_retry (beginStream t).
Proof. unfold beginStream, push. keeps_auto. Qed.
Hint Resolve beginStream_no_retry : steady_db.

Lemma appendStream_no_retry t : keeps (fun _ : Store => True) no_retry (appendStream t).
Proof. unfold appendStream. keeps_auto. Qed.
Hint Resolve appendStream_no_retry : steady_db.

Lemma addUser_no_retry content : keeps (fun _ : Store => True) no_retry (addUser content).
Proof. unfold addUser, push. keeps_auto. Qed.

Lemma addAssistant_no_retry text : keeps (fun _ : Store => True) no_retry (addAssistant text).
Proof. unfold addAssistant, push. keeps_auto. Qed.

Lemma resend_no_retry :
  keeps (fun _ : Store => True) no_retry (ms ← getAll; setAll ms).
Proof. unfold getAll, setAll. keeps_auto. Qed.

Lemma consume_chunk_no_retry chunk l :
  keeps (fun _ : Store => True) no_retry (consume_chunk chunk l).
Proof. unfold consume_chunk. keeps_auto. Qed.

Lemma consume_end_no_retry l : keeps (fun _ : Store => True) no_retry (consume_end l).
Proof. unfold consume_end, endStream. keeps_auto. Qed.

Lemma keeps_on_store {A} (m : M Store effect A) :
  keeps (fun _ : Store => True) no_retry m -> keeps P no_retry (on_store m).
Proof.
  intros Hm c HP. rewrite on_store_run. destruct (Hm (messageStore c) I) as [_ HQ].
  split; [|done]. by eapply steady_shell.
Qed.

Lemma keeps_toBridge e : keeps P no_retry (toBridge e).
Proof.
  intros c HP. rewrite toBridge_run. split; [done|].
  destruct (bridgeEmitter c); by repeat constructor.
Qed.
Hint Resolve keeps_toBridge : steady_db.

Lemma keeps_setOfflineMode enabled : keeps P no_retry (setOfflineMode enabled).
Proof.
  intros c (Hsync & Hflag & Henv & Hbase).
  pose proof (setOfflineMode_in_sync enabled c Hsync) as Hsync'.
  destruct (setOfflineMode_run enabled c)
    as (c' & Hrun & _ & _ & _ & _ & _ & _ & Hw & _ & _ & Hb & Hf).
  rewrite Hrun in Hsync' |- *. cbn in *. split; [|done].
  unfold steady. by rewrite Hw, Hb, Hf.
Qed.
Hint Resolve keeps_setOfflineMode : steady_db.

Lemma keeps_shell_modify (f : Client -> Client) :
  (forall c, manager (f c) = manager c /\ provider (f c) = provider c /\
             model (f c) = model c /\
             baseOnlineProvider (f c) = baseOnlineProvider c /\
             didAppleLocaleFallback (f c) = didAppleLocaleFallback c /\
             env (world (f c)) = env (world c)) ->
  keeps P no_retry (modify f).
Proof.
  intros Hf. apply keeps_modify. intros c HP.
  destruct (Hf c) as (? & ? & ? & ? & ? & ?). by eapply steady_shell.
Qed.

Lemma keeps_broadcastOfflineMode b : keeps P no_retry (broadcastOfflineMode b).
Proof. unfold broadcastOfflineMode. keeps_auto. Qed.
Hint Resolve keeps_broadcastOfflineMode : steady_db.

Lemma keeps_preflight : keeps P no_retry preflight.
Proof. unfold preflight. keeps_auto. Qed.
Hint Resolve keeps_preflight : steady_db.

Lemma keeps_inspect op : keeps P no_retry (inspect op).
Proof.
  unfold inspect. keeps_auto.
  all: apply keeps_shell_modify; intros c.
  all: by destruct (window c), (createTab (world c) u).
Qed.
Hint Resolve keeps_inspect : steady_db.

Lemma keeps_perform a : keeps P no_retry (perform a).
Proof. destruct a; cbn [perform]; keeps_auto; by apply keeps_shell_modify. Qed.
Hint Resolve keeps_perform : steady_db.

Lemma keeps_run_tool b i : keeps P no_retry (run_tool b i).
Proof. unfold run_tool. keeps_auto. Qed.
Hint Resolve keeps_run_tool : steady_db.

Lemma keeps_consume_chunk chunk l : keeps P no_retry (on_store (consume_chunk chunk l)).
Proof. apply keeps_on_store, consume_chunk_no_retry. Qed.
Hint Resolve keeps_consume_chunk : steady_db.

Lemma keeps_consume_end l : keeps P no_retry (on_store (consume_end l)).
Proof. apply keeps_on_store, consume_end_no_retry. Qed.
Hint Resolve keeps_consume_end : steady_db.

Lemma keeps_play tools acts l : keeps P no_retry (play tools acts l).
Proof.
  revert l. induction acts as [|[chunk|i] acts IH]; intros l; cbn [play]; keeps_auto.
Qed.
Hint Resolve keeps_play : steady_db.

Lemma keeps_next_generation : keeps P no_retry next_generation.
Proof.
  unfold next_generation. apply keeps_get_bind. intros c (Hsync & Hflag & Henv & Hbase).
  destruct (pending (world c)); keeps_auto.
  apply keeps_modify. intros c' (Hsync' & Hflag' & Henv' & Hbase').
  by split_and!.
Qed.
Hint Resolve keeps_next_generation : steady_db.

Lemma keeps_run_generation tools : keeps P no_retry (run_generation tools).
Proof. unfold run_generation. keeps_auto. Qed.
Hint Resolve keeps_run_generation : steady_db.

Lemma keeps_generate site tools :
  site <> LocaleRetry -> keeps P no_retry (generate site tools).
Proof.
  intros Hsite. unfold generate. keeps_auto.
  all: apply keeps_emit; by destruct site.
Qed.

Lemma keeps_addAssistantMessage text : keeps P no_retry (addAssistantMessage text).
Proof. apply keeps_on_store, addAssistant_no_retry. Qed.
Hint Resolve keeps_addAssistantMessage : steady_db.

Lemma keeps_sendErrorMessage mid text : keeps P no_retry (sendErrorMessage mid text).
Proof. by apply keeps_emit. Qed.
Hint Resolve keeps_sendErrorMessage : steady_db.

Lemma keeps_sendMessagesToRenderer : keeps P no_retry sendMessagesToRenderer.
Proof. apply keeps_on_store, resend_no_retry. Qed.
Hint Resolve keeps_sendMessagesToRenderer : steady_db.

Lemma keeps_openUrlAndSummarize u : keeps P no_retry (openUrlAndSummarize u).
Proof. unfold openUrlAndSummarize. keeps_auto; by apply keeps_shell_modify. Qed.
Hint Resolve keeps_openUrlAndSummarize : steady_db.

Lemma keeps_converse : keeps P no_retry converse.
Proof.
  unfold converse. keeps_auto; try (by apply keeps_generate).
  all: by apply keeps_shell_modify.
Qed.
Hint Resolve keeps_converse : steady_db.

Lemma keeps_answer_with_model request :
  keeps P no_retry (answer_with_model request).
Proof. unfold answer_with_model. keeps_auto. Qed.
Hint Resolve keeps_answer_with_model : steady_db.

Lemma keeps_sendChatMessage_body request :
  keeps P no_retry (sendChatMessage_body request).
Proof.
  unfold sendChatMessage_body. keeps_auto.
  all: apply keeps_on_store, addUser_no_retry.
Qed.

End Steady.

Lemma retries_app es1 es2 : retries (es1 ++ es2) = retries es1 + retries es2.
Proof. unfold retries. by rewrite filter_app, length_app. Qed.

Lemma retries_no_retry es : Forall no_retry es -> retries es = 0.
Proof.
  unfold retries. induction 1 as [|e es He _ IH]; [done|].
  rewrite filter_cons. unfold no_retry in He. by rewrite decide_False by congruence.
Qed.

Lemma retries_cons_retry p es :
  retries (ProviderCall LocaleRetry p :: es) = S (retries es).
Proof. done. Qed.

Ltac count_retries :=
  repeat first
    [ rewrite retries_app
    | rewrite retries_cons_retry
    | rewrite retries_no_retry by (done || by repeat constructor) ];
  done.

(** The first steps of the fallback: the guard is set, the notice is
    logged and the client goes online; it then has a model exactly
    when the API key of its base provider is configured. *)
Lemma fallback_switch_run flag e0 b0 c :
  steady flag e0 b0 c -> provider c = Apple ->
  exists c3 es,
    (forall (k : bool -> M Client effect unit),
       (modify (with_fallback_flag true);;
        addAssistantMessage
          (lit "Apple on-device AI is unavailable for this locale. Switching to online model...");;
        switched ← setOfflineMode false; k switched) c
       = (let '(r, s, es') := k false c3 in (r, s, es ++ es'))) /\
    steady true e0 b0 c3 /\ Forall no_retry es /\
    provider c3 = Online b0 /\
    has_model c3 = nonempty (env_or (getApiKey c) []).
Proof.
  intros (Hsync & Hflag & Henv & Hbase) Hp.
  set (c2 := with_store
               (with_messages
                  (fun ms => ms ++ [{| role := assistant;
                                       content := Text (lit "Apple on-device AI is unavailable for this locale. Switching to online model...") |}])
                  (messageStore (with_fallback_flag true c)))
               (with_fallback_flag true c)).
  assert (in_sync c2) as Hsync2 by done.
  pose proof (setOfflineMode_in_sync false c2 Hsync2) as Hsync3.
  destruct (setOfflineMode_run false c2)
    as (c3 & Hrun & Hman & Hp3 & Hm3 & _ & _ & _ & Hw & _ & _ & Hb & Hf).
  rewrite Hrun in Hsync3. cbn in Hsync3.
  rewrite ModelManagerSpec.setOfflineMode_false_result in Hrun.
  destruct Hsync as (Hps & Hms & Hbs & Hco).
  assert (ModelManager.offlineMode (manager c) = true) as Hoff.
  { apply Hco. by rewrite <- Hps. }
  destruct (ModelManagerSpec.setOfflineMode_false_online (env (world c)) (manager c) Hoff)
    as [Hprov Hmodel].
  change (manager c2) with (manager c) in *.
  change (world c2) with (world c) in *.
  eexists c3, [_]. split_and!.
  - intros k. unfold mbind, M_bind, bind, modify.
    rewrite addAssistantMessage_run. fold c2. rewrite Hrun.
    destruct (k false c3) as [[r s] es']. cbn. reflexivity.
  - unfold steady. rewrite Hw, Hb, Hf. by split_and!.
  - by repeat constructor.
  - by rewrite Hp3, Hprov, Hbs, <- Hbase.
  - unfold has_model, getApiKey. rewrite Hm3, <- Hbs.
    destruct (ModelManager.model
                (ModelManager.setOfflineMode false (env (world c)) (manager c)).2)
      eqn:Hmod.
    + symmetry. by apply Hmodel.
    + destruct (nonempty _) eqn:Hk; [|done]. exfalso. by apply (proj2 Hmodel eq_refl).
Qed.

Lemma no_retry_online b0 es : Forall no_retry es -> Forall (retry_online b0) es.
Proof. intros H. eapply Forall_impl; [done|]. by left. Qed.

Ltac solve_retry_online :=
  repeat first
    [ apply Forall_nil
    | (apply Forall_app; split)
    | (apply Forall_cons; split)
    | by apply no_retry_online
    | by right
    | by left ].

(** What [handleStreamError] does with a failure. *)
Lemma handleStreamError_run flag e0 b0 e mid c :
  steady flag e0 b0 c ->
  let r := handleStreamError e mid c in
  result_of r = Returns tt /\
  retries (trace_of r)
  = (if is_apple (provider c) && negb flag && is_locale_error e
        && nonempty (env_or (getApiKey c) [])
     then 1 else 0) /\
  Forall (retry_online b0) (trace_of r) /\
  steady (flag || (is_apple (provider c) && is_locale_error e)) e0 b0 (state_of r).
Proof.
  intros Hst. pose proof Hst as (Hsync & Hflag & Henv & Hbase). cbn zeta.
  destruct (handleStreamError e mid c) as [[r s] es0] eqn:Hrun.
  unfold result_of, state_of, trace_of; cbn [fst snd].
  revert Hrun. unfold handleStreamError.
  unfold mbind at 1, M_bind at 1, bind at 1, get at 1.
  rewrite Hflag.
  destruct (is_apple (provider c) && negb flag && is_locale_error e) eqn:Hguard.
  - apply andb_prop in Hguard as [Hguard Hloc]. apply andb_prop in Hguard as [Hap Hnf].
    rewrite Hap, Hloc. destruct flag; [done|]. cbn [negb andb orb].
    destruct (fallback_switch_run false e0 b0 c Hst) as
      (c3 & es & Hcont & Hst3 & Hes & Hp3 & Hmodel); [by destruct (provider c)|].
    unfold try_catch. rewrite Hcont. clear Hcont.
    unfold mbind, M_bind, bind, get. rewrite Hp3. cbn [is_apple negb andb when].
    destruct (keeps_broadcastOfflineMode true e0 b0 false c3 Hst3) as [_ Hbq].
    destruct (broadcastOfflineMode_run false c3) as (esb & Hbrun & _).
    rewrite Hbrun in Hbq |- *. cbn in Hbq.
    rewrite Hmodel. destruct (nonempty (env_or (getApiKey c) [])) eqn:Hkey; cbn [negb].
    + unfold generate, mbind, M_bind, bind, get, emit. rewrite Hp3.
      destruct (keeps_run_generation true e0 b0 (Some Tools.AiSdk) c3 Hst3) as [HP HQ].
      unfold state_of, trace_of in HP, HQ.
      destruct (run_generation (Some Tools.AiSdk) c3) as [[[text|e'] c4] esg]; cbn in HP, HQ.
      * destruct (negb (nonempty text)); cbn; intros [= <- <- <-];
          (split_and!; [done|count_retries|solve_retry_online; done|done]).
      * cbn. intros [= <- <- <-].
        split_and!; [done|count_retries|solve_retry_online; done|done].
    + cbn. intros [= <- <- <-].
      split_and!; [done|count_retries|solve_retry_online; done|done].
  - cbn. intros [= <- <- <-]. split_and!; [done|done|solve_retry_online; done|].
    replace (flag || is_apple (provider c) && is_locale_error e) with flag; [done|].
    destruct flag; [done|]. cbn in *. by rewrite andb_true_r in Hguard.
Qed.

(** The agreement between client and manager is an invariant: the
    constructor establishes it, and [init], [setOfflineMode] (see
    [setOfflineMode_in_sync]) and every turn keep it. *)
Lemma new_in_sync w : in_sync (new w).
Proof.
  unfold in_sync, new, ModelManager.new, coherent; cbn.
  by destruct (getInitialOfflineMode (env w)).
Qed.

Lemma initialized_in_sync w : in_sync (initialized w).
Proof.
  unfold initialized, in_sync; cbn. split_and!; try done.
  - unfold init.
    by destruct (ModelManagerSpec.initializeModel_frame (env w) (ModelManager.new (env w)))
      as (_ & -> & _).
  - apply ModelManagerSpec.init_coherent, ModelManagerSpec.new_coherent.
Qed.

Lemma sendChatMessage_in_sync request c :
  in_sync c -> in_sync (state_of (sendChatMessage request c)).
Proof.
  intros Hsync.
  assert (steady (didAppleLocaleFallback c) (env (world c)) (baseOnlineProvider c) c)
    as Hst by done.
  destruct (keeps_sendChatMessage_body _ _ _ request c Hst) as [HP _].
  revert HP. unfold sendChatMessage, try_catch.
  destruct (sendChatMessage_body request c) as [[[[]|e] cb] esb];
    unfold state_of at 1; cbn [fst snd]; intros HP; [by destruct HP|].
  destruct (handleStreamError_run _ _ _ e (messageId request) cb HP)
    as (_ & _ & _ & Hsync' & _).
  unfold state_of in *.
  by destruct (handleStreamError e (messageId request) cb) as [[rh ch] esh].
Qed.

(** The client's [setOfflineMode(false)] resolves to [false] as well. *)
Lemma client_setOfflineMode_false_result c :
  result_of (setOfflineMode false c) = Returns false.
Proof.
  destruct (setOfflineMode_run false c) as (c' & Hrun & _).
  rewrite Hrun. cbn. by rewrite ModelManagerSpec.setOfflineMode_false_result.
Qed.

(** C9, as the code has it.  A turn whose on-device generation call
    fails with the unsupported-locale error is retried against the
    online provider exactly once when the one-shot guard
    [didAppleLocaleFallback] has not fired before in the life of the
    client and the API key of the base online provider is configured,
    and not at all otherwise.  No turn gets more than one retry, every
    retry goes to the online provider, a turn without such a failure
    gets none; the guard is set by the first such failure and never
    cleared. *)
Theorem locale_fallback_once_per_client request c :
  in_sync c ->
  let body := sendChatMessage_body request c in
  let r := sendChatMessage request c in
  result_of r = Returns tt /\
  retries (trace_of r)
  = (if locale_failed body && negb (didAppleLocaleFallback c)
        && nonempty (env_or (getApiKey c) [])
     then 1 else 0) /\
  retries (trace_of r) <= 1 /\
  Forall (retry_online (baseOnlineProvider c)) (trace_of r) /\
  didAppleLocaleFallback (state_of r) = didAppleLocaleFallback c || locale_failed body.
Proof.
  intros Hsync. cbn zeta.
  assert (steady (didAppleLocaleFallback c) (env (world c)) (baseOnlineProvider c) c)
    as Hst by done.
  destruct (keeps_sendChatMessage_body _ _ _ request c Hst) as [HP HQ].
  revert HP HQ. unfold sendChatMessage, try_catch, locale_failed.
  destruct (sendChatMessage_body request c) as [[[[]|e] cb] esb];
    unfold result_of at 1, state_of at 1, trace_of at 1; cbn [fst snd]; intros HP HQ.
  - unfold result_of, state_of, trace_of; cbn.
    rewrite retries_no_retry by done. destruct HP as (_ & -> & _).
    split_and!; [done|done|lia|by apply no_retry_online|by rewrite orb_false_r].
  - destruct (handleStreamError_run _ _ _ e (messageId request) cb HP)
      as (Hres & Hcount & Honline & _ & Hflag & _).
    unfold result_of, state_of, trace_of in *.
    destruct (handleStreamError e (messageId request) cb) as [[rh ch] esh]; cbn in *.
    assert (getApiKey cb = getApiKey c) as Hkey.
    { unfold getApiKey. by destruct HP as (_ & _ & -> & ->). }
    rewrite retries_app, retries_no_retry, Hcount, Hkey by done.
    replace (is_apple (provider cb) && negb (didAppleLocaleFallback c)
             && is_locale_error e)
      with (is_apple (provider cb) && is_locale_error e
            && negb (didAppleLocaleFallback c))
      by (by destruct (is_apple _), (negb _), (is_locale_error e)).
    split_and!; [done|done| | |done].
    + match goal with |- context [if ?b then _ else _] => destruct b end; lia.
    + apply Forall_app; split; [by apply no_retry_online|done].
Qed.

Lemma locale_fallback_once_per_client_witness :
  let c := client_of env_apple_with_key [failing_generation; answering_generation] in
  let r := sendChatMessage hello_request c in
  result_of r = Returns tt /\
  retries (trace_of r) = 1 /\
  retries (trace_of r) <= 1 /\
  Forall (retry_online openai) (trace_of r) /\
  didAppleLocaleFallback (state_of r) = true.
Proof.
  apply (locale_fallback_once_per_client hello_request
           (client_of env_apple_with_key [failing_generation; answering_generation])).
  repeat split; by vm_compute.
Defined.

(** C9 as stated fails.  After a first turn that fell back, and after
    the user went back to offline mode, a turn whose on-device
    generation fails with the same locale error gets no retry. *)
Lemma locale_fallback_counterexample :
  let c0 := client_of env_apple_with_key
              [failing_generation; answering_generation; failing_generation] in
  let r1 := sendChatMessage hello_request c0 in
  let c2 := state_of (setOfflineMode true (state_of r1)) in
  let body := sendChatMessage_body hello_request c2 in
  let r3 := sendChatMessage hello_request c2 in
  retries (trace_of r1) = 1 /\
  provider c2 = Apple /\
  result_of body = Throws locale_failure /\
  is_locale_error locale_failure = true /\
  ProviderCall Primary Apple ∈ trace_of body /\
  retries (trace_of r3) = 0.
Proof.
  cbn zeta. split_and!; try by vm_compute.
  vm_compute. apply list_elem_of_In. cbn. tauto.
Qed.

End LLMClientSpec.

(** ** Provider selection, continued *)

Module ModelManagerMore.
Import JS ModelManager ModelManagerTerms ModelManagerSpec Fixtures.

Lemma setOfflineMode_early enabled env st :
  offlineMode st = enabled -> setOfflineMode enabled env st = (enabled, st).
Proof.
  intros <-. unfold setOfflineMode. by rewrite Bool.eqb_reflx.
Qed.

(** Bringing up the on-device provider again, after a failed attempt
    and the fall back to the online provider, ends where the failed
    attempt ended. *)
Lemma switch_to_apple_again env st :
  offlineMode st = false ->
  let st1 := switch_to Apple env st in
  model st1 = None ->
  switch_to Apple env
    (set_offlineMode false (switch_to (Online (baseOnlineProvider st1)) env st1))
  = st1.
Proof.
  destruct st as [base p name m off checked avail why]; cbn. intros ->.
  unfold switch_to, initializeModel; cbn.
  destruct checked; cbn.
  - destruct avail; cbn.
    + destruct (createAppleLanguageModel env) as [m'|e]; cbn; [done|]. intros _.
      destruct (getApiKey env base) as [[|c k]|]; cbn; try done.
      by destruct base.
    + intros _.
      destruct (getApiKey env base) as [[|c k]|]; cbn; try done.
      by destruct base.
  - destruct (available (checkAppleAvailability env)); cbn.
    + destruct (createAppleLanguageModel env) as [m'|e]; cbn; [done|]. intros _.
      destruct (getApiKey env base) as [[|c k]|]; cbn; try done.
      by destruct base.
    + intros _.
      destruct (getApiKey env base) as [[|c k]|]; cbn; try done.
      by destruct base.
Qed.

(** X1.  [setOfflineMode] is idempotent: a second call with the same
    argument resolves to the same value and leaves the manager exactly
    as the first call left it. *)
Theorem setOfflineMode_idempotent enabled env st :
  let r := setOfflineMode enabled env st in
  setOfflineMode enabled env r.2 = r.
Proof.
  cbn zeta.
  destruct (decide (offlineMode st = enabled)) as [Heq|Hne].
  { rewrite (setOfflineMode_early _ _ _ Heq). cbn. by apply setOfflineMode_early. }
  assert (Bool.eqb (offlineMode st) enabled = false) as Hb
    by (by destruct (offlineMode st), enabled).
  destruct enabled.
  - assert (offlineMode st = false) as Hoff by (by destruct (offlineMode st)).
    assert (setOfflineMode true env st
            = match model (switch_to Apple env st) with
              | None =>
                  (false,
                   set_offlineMode false
                     (switch_to
                        (Online (baseOnlineProvider (switch_to Apple env st))) env
                        (switch_to Apple env st)))
              | Some _ => (true, set_offlineMode true (switch_to Apple env st))
              end) as Hstep.
    { unfold setOfflineMode. by rewrite Hb. }
    rewrite Hstep.
    destruct (model (switch_to Apple env st)) eqn:Hm; cbn [snd].
    + by apply setOfflineMode_early.
    + unfold setOfflineMode; cbn [offlineMode set_offlineMode Bool.eqb].
      rewrite switch_to_apple_again by done. by rewrite Hm.
  - assert (setOfflineMode false env st
            = (false, set_offlineMode false
                        (switch_to (Online (baseOnlineProvider st)) env st))) as Hstep.
    { unfold setOfflineMode. by rewrite Hb. }
    rewrite Hstep. cbn [snd]. by apply setOfflineMode_early.
Qed.

(** X2.  The availability probe is consulted at most once per manager.
    Once [appleAvailabilityChecked] is set, it stays set, and what
    [setOfflineMode] resolves to and leaves behind no longer depends on
    what [checkAppleAvailability] would answer: a change in the
    availability of the on-device model goes unnoticed. *)
Theorem availability_checked_once enabled env st a :
  appleAvailabilityChecked st = true ->
  setOfflineMode enabled (with_probe a env) st = setOfflineMode enabled env st /\
  appleAvailabilityChecked (setOfflineMode enabled env st).2 = true.
Proof.
  destruct st as [base p name m off checked avail why]; cbn. intros ->.
  assert (forall q st', appleAvailabilityChecked st' = true ->
            switch_to q (with_probe a env) st' = switch_to q env st'
            /\ appleAvailabilityChecked (switch_to q env st') = true) as Hsw.
  { intros q st' Hc. unfold switch_to, initializeModel; cbn.
    destruct q as [q|]; cbn.
    - unfold getApiKey, getModelName; cbn.
      destruct (baseOnlineProvider st'); cbn.
      + by destruct (OPENAI_API_KEY env) as [[|c k]|].
      + by destruct (ANTHROPIC_API_KEY env) as [[|c k]|].
    - rewrite Hc; cbn. destruct (appleAvailable st'); cbn; [|done].
      by destruct (createAppleLanguageModel env). }
  unfold setOfflineMode; cbn.
  destruct (Bool.eqb off enabled); [done|].
  set (st := {| baseOnlineProvider := base |}).
  destruct enabled.
  - destruct (Hsw Apple st eq_refl) as [-> Hc1].
    destruct (model (switch_to Apple env st)); cbn; [done|].
    destruct (Hsw (Online (baseOnlineProvider (switch_to Apple env st)))
                (switch_to Apple env st) Hc1) as [-> Hc2]. done.
  - destruct (Hsw (Online base) st eq_refl) as [-> Hc1]. done.
Qed.

Lemma availability_checked_once_witness :
  let st := (setOfflineMode true env_online (init env_online (new env_online))).2 in
  setOfflineMode true
    (with_probe {| available := true; reason := [] |} env_online) st
  = setOfflineMode true env_online st /\
  appleAvailabilityChecked (setOfflineMode true env_online st).2 = true.
Proof.
  apply (availability_checked_once true env_online
           (setOfflineMode true env_online (init env_online (new env_online))).2
           {| available := true; reason := [] |}).
  reflexivity.
Defined.

Lemma initializeModel_fits env st :
  (forall p, provider st = Online p -> p = baseOnlineProvider st) ->
  modelName st = getModelName env st ->
  let st' := initializeModel env st in
  (forall p, provider st' = Online p -> p = baseOnlineProvider st')
  /\ modelName st' = getModelName env st'
  /\ model_fits env st'.
Proof.
  destruct st as [base p name m off checked avail why].
  unfold model_fits, online_handle, getModelName; cbn.
  intros Hp Hname.
  destruct p as [p|]; [specialize (Hp p eq_refl); subst p|].
  - subst name. unfold initializeModel; cbn.
    assert (forall q, Online base = Online q -> q = base) as Hq by congruence.
    destruct base; cbn.
    + destruct (OPENAI_API_KEY env) as [[|c k]|]; cbn; split_and!; try done.
      by destruct (LLM_MODEL env) as [[|d n]|].
    + destruct (ANTHROPIC_API_KEY env) as [[|c k]|]; cbn; split_and!; try done.
      by destruct (LLM_MODEL env) as [[|d n]|].
  - unfold initializeModel; cbn.
    destruct checked; cbn.
    + destruct avail; cbn; [|split_and!; by auto].
      destruct (createAppleLanguageModel env) eqn:Hc; cbn; split_and!; by auto.
    + destruct (available (checkAppleAvailability env)); cbn;
        [|split_and!; by auto].
      destruct (createAppleLanguageModel env) eqn:Hc; cbn; split_and!; by auto.
Qed.

Lemma switch_to_fits p env st :
  (forall q, p = Online q -> q = baseOnlineProvider st) ->
  let st' := switch_to p env st in
  (forall q, provider st' = Online q -> q = baseOnlineProvider st')
  /\ modelName st' = getModelName env st'
  /\ model_fits env st'.
Proof.
  intros Hp. cbn zeta. unfold switch_to. by apply initializeModel_fits.
Qed.

(** X3.  The manager's fields stay consistent with each other.  After
    construction and [init], and after every [setOfflineMode] from a
    consistent manager: offline mode is on exactly when the provider is
    the on-device one; an online provider is the base online provider;
    the model name is the one [getModelName] gives; and a model handle,
    if there is one, belongs to the selected provider (the handle
    created by the Apple SDK on the on-device provider, the handle of
    the base online provider under its configured or default name
    otherwise). *)
Theorem manager_stays_settled env :
  settled env (init env (new env)) /\
  forall enabled st,
    settled env st -> settled env (setOfflineMode enabled env st).2.
Proof.
  split.
  - split; [apply init_coherent, new_coherent|].
    unfold init. apply initializeModel_fits.
    + unfold new; cbn. destruct (getInitialOfflineMode env); cbn; congruence.
    + unfold new, getModelName; cbn. by destruct (getInitialOfflineMode env).
  - intros enabled st Hst.
    pose proof (setOfflineMode_coherent enabled env st (proj1 Hst)) as Hco.
    split; [done|]. clear Hco. destruct Hst as (_ & Hst).
    unfold setOfflineMode.
    destruct (Bool.eqb (offlineMode st) enabled); [done|].
    destruct enabled.
    + destruct (model (switch_to Apple env st)) eqn:Hm; cbn [snd].
      * by apply (switch_to_fits Apple env st).
      * apply (switch_to_fits (Online (baseOnlineProvider (switch_to Apple env st)))
                 env (switch_to Apple env st)). congruence.
    + cbn [snd]. apply (switch_to_fits (Online (baseOnlineProvider st)) env st).
      congruence.
Qed.

(** X4.  [setOfflineMode(true)] on a manager that is not in offline
    mode resolves to [true] exactly when the on-device provider can be
    brought up (it is reported available and the creation of its model
    returns); the manager is then in offline mode, on the Apple
    provider, holding the handle that the Apple SDK created. *)
Theorem setOfflineMode_true_honoured env st :
  offlineMode st = false ->
  let r := setOfflineMode true env st in
  (r.1 = true <-> ~ apple_unavailable env st) /\
  (r.1 = true ->
   provider r.2 = Apple /\ offlineMode r.2 = true /\
   exists m, model r.2 = Some m /\ createAppleLanguageModel env = Returns m).
Proof.
  destruct st as [base p name m off checked avail why]; cbn. intros ->.
  unfold apple_unavailable, apple_reported_available; cbn.
  unfold setOfflineMode, switch_to, initializeModel; cbn.
  destruct checked; cbn.
  - destruct avail; cbn.
    + destruct (createAppleLanguageModel env) as [m'|e] eqn:Hc; cbn.
      * split; [|intros _; split_and!; eauto].
        split; [|done]. intros _ [?|[e ?]]; done.
      * split; [|done]. split; [done|]. intros Hn. exfalso. apply Hn. eauto.
    + split; [|done]. split; [done|]. intros Hn. exfalso. apply Hn. by left.
  - destruct (available (checkAppleAvailability env)); cbn.
    + destruct (createAppleLanguageModel env) as [m'|e] eqn:Hc; cbn.
      * split; [|intros _; split_and!; eauto].
        split; [|done]. intros _ [?|[e ?]]; done.
      * split; [|done]. split; [done|]. intros Hn. exfalso. apply Hn. eauto.
    + split; [|done]. split; [done|]. intros Hn. exfalso. apply Hn. by left.
Qed.

Lemma setOfflineMode_true_honoured_witness :
  let st := setOfflineMode false env_apple_with_key
              (init env_apple_with_key (new env_apple_with_key)) in
  let r := setOfflineMode true env_apple_with_key st.2 in
  (r.1 = true <-> ~ apple_unavailable env_apple_with_key st.2) /\
  (r.1 = true ->
   provider r.2 = Apple /\ offlineMode r.2 = true /\
   exists m, model r.2 = Some m
             /\ createAppleLanguageModel env_apple_with_key = Returns m).
Proof.
  apply (setOfflineMode_true_honoured env_apple_with_key
           (setOfflineMode false env_apple_with_key
              (init env_apple_with_key (new env_apple_with_key))).2).
  reflexivity.
Defined.

End ModelManagerMore.

(** ** The conversation log and stream consumption, continued *)

Module StreamerMore.
Import JS Eff EffFacts Frames Orch MessageStore Streamer MessageStoreTerms.
Import MessageStoreSpec StreamerSpec.

Lemma bridge_chats_app es1 es2 :
  bridge_chats (es1 ++ es2) = bridge_chats es1 ++ bridge_chats es2.
Proof. apply omap_app. Qed.

Lemma renderer_updates_app es1 es2 :
  renderer_updates (es1 ++ es2) = renderer_updates es1 ++ renderer_updates es2.
Proof. apply omap_app. Qed.

(** One chunk through [beginStream] or [appendStream]: what reaches
    the bridge. *)
Lemma beginStream_mirror c0 s :
  bridge_chats (trace_of (beginStream c0 s)) = if bridge s then [c0] else [].
Proof.
  unfold beginStream, emitToRenderer, bridgeSafeChat, push, mbind, M_bind, bind,
    get, modify, emit, when; cbn.
  unfold bridge_chats. by destruct (bridge s).
Qed.

Lemma appendStream_mirror pre acc c s :
  open_slot pre acc s ->
  bridge_chats (trace_of (appendStream c s)) = if bridge s then [c] else [].
Proof.
  intros [Hm Hi].
  unfold appendStream, emitToRenderer, bridgeSafeChat, mbind, M_bind, bind,
    get, modify, emit, when; cbn.
  rewrite Hi, Hm. rewrite list_lookup_middle by done. cbn.
  unfold bridge_chats. by destruct (bridge s).
Qed.

Lemma consume_chunk_mirror pre c l s :
  consuming pre l s ->
  bridge_chats (trace_of (consume_chunk c l s))
  = if bridge s && nonempty c then [c] else [].
Proof.
  intros Hinv. unfold consume_chunk.
  destruct c as [|u c]; cbn [nonempty negb]; [by rewrite andb_false_r|].
  rewrite andb_true_r. unfold consuming in Hinv.
  destruct (first l) eqn:Hfirst.
  - pose proof (beginStream_mirror (u :: c) s) as Hmir.
    destruct (beginStream_run (u :: c) s) as (s1 & es1 & Hrun & _).
    unfold mbind, M_bind, bind. rewrite Hrun in Hmir |- *; cbn in *.
    by rewrite app_nil_r.
  - destruct Hinv as [_ Hopen].
    pose proof (appendStream_mirror pre (finalText l) (u :: c) s Hopen) as Hmir.
    destruct (appendStream_run pre (finalText l) (u :: c) s Hopen)
      as (s1 & es1 & Hrun & _).
    unfold mbind, M_bind, bind. rewrite Hrun in Hmir |- *; cbn in *.
    by rewrite app_nil_r.
Qed.

Lemma consume_chunk_bridge pre c l s :
  consuming pre l s -> bridge (state_of (consume_chunk c l s)) = bridge s.
Proof.
  intros Hinv. unfold consume_chunk.
  destruct c as [|u c]; cbn [nonempty negb]; [done|].
  unfold consuming in Hinv. destruct (first l) eqn:Hfirst.
  - destruct (beginStream_run (u :: c) s) as (s1 & es1 & Hrun & _ & Hb).
    unfold mbind, M_bind, bind. by rewrite Hrun.
  - destruct Hinv as [_ Hopen].
    destruct (appendStream_run pre (finalText l) (u :: c) s Hopen)
      as (s1 & es1 & Hrun & _ & Hb).
    unfold mbind, M_bind, bind. by rewrite Hrun.
Qed.

Lemma consume_loop_mirror pre chunks l s :
  consuming pre l s ->
  bridge_chats (trace_of (consume_loop chunks l s))
  = (if bridge s then filter (fun c => nonempty c = true) chunks else [])
  /\ bridge (state_of (consume_loop chunks l s)) = bridge s.
Proof.
  revert l s. induction chunks as [|c chunks IH]; intros l s Hinv.
  - cbn. by destruct (bridge s).
  - pose proof (consume_chunk_mirror pre c l s Hinv) as Hmir.
    pose proof (consume_chunk_bridge pre c l s Hinv) as Hbr.
    destruct (consume_chunk_run pre c l s Hinv) as (l1 & s1 & es1 & Hrun1 & Hinv1 & _).
    destruct (IH l1 s1 Hinv1) as [IHm IHb].
    destruct (consume_loop_run pre chunks l1 s1 Hinv1) as (l2 & s2 & es2 & Hrun2 & _).
    cbn [consume_loop]. unfold mbind, M_bind, bind.
    rewrite Hrun1 in Hmir, Hbr |- *. rewrite Hrun2 in IHm, IHb |- *. cbn in *.
    rewrite bridge_chats_app, Hmir, IHm, IHb, Hbr. split; [|done].
    destruct (bridge s); cbn; [|done].
    destruct c; cbn; by rewrite ?decide_True, ?decide_False by done.
Qed.

(** X5.  [Streamer.consume] on a stream that ends.  It resolves to the
    concatenation of the chunks; the log gains one assistant message
    with that text, or nothing when every chunk was empty; and a
    connected bridge receives exactly the non-empty chunks, one chat
    frame each, in order, so that the frames concatenate to the message
    in the log. *)
Theorem consume_streams_text chunks s :
  let r := consume chunks None s in
  result_of r = Returns (concat chunks) /\
  messages (state_of r)
  = (if nonempty (concat chunks)
     then messages s ++ [streamed (concat chunks)] else messages s) /\
  bridge_chats (trace_of r)
  = (if bridge s then filter (fun c => nonempty c = true) chunks else []) /\
  concat (filter (fun c => nonempty c = true) chunks) = concat chunks.
Proof.
  destruct (consume_builds_concatenation chunks s) as [Hres Hlog].
  cbn zeta. split; [done|]. split; [done|]. split.
  - destruct (consume_loop_mirror (messages s) chunks start s) as [Hmir _]; [done|].
    destruct (consume_loop_run (messages s) chunks start s) as
      (l & s1 & es & Hrun & _); [done|].
    unfold consume, mbind, M_bind, bind. rewrite Hrun in Hmir |- *. cbn in Hmir.
    unfold consume_end, endStream, emitToRenderer, mbind, M_bind, mret, M_ret,
      bind, ret, get, modify, emit.
    destruct (first l); cbn; rewrite bridge_chats_app, Hmir; unfold bridge_chats; cbn;
      apply app_nil_r.
  - clear Hres Hlog. induction chunks as [|c chunks IH]; [done|].
    rewrite filter_cons. destruct (decide (nonempty c = true)) as [Hc|Hc]; cbn;
      rewrite IH; [done|].
    by destruct c.
Qed.

(** X6.  [Streamer.consume] on a stream that rejects.  The rejection is
    passed on; nothing is rolled back: the text received so far stays
    in the log as an assistant message, in a slot that is still open
    ([endStream] is not called).  A later [consume] does not touch that
    message: it appends a message of its own. *)
Theorem consume_failure_keeps_partial chunks e s :
  let r := consume chunks (Some e) s in
  result_of r = Throws e /\
  (if nonempty (concat chunks)
   then open_slot (messages s) (concat chunks) (state_of r)
   else messages (state_of r) = messages s) /\
  forall later,
    messages (state_of (consume later None (state_of r)))
    = messages (state_of r)
      ++ (if nonempty (concat later) then [streamed (concat later)] else []).
Proof.
  cbn zeta.
  destruct (consume_loop_run (messages s) chunks start s) as
    (l & s1 & es & Hrun & Hinv & Hft & Hfirst); [done|].
  cbn in Hft.
  assert (consume chunks (Some e) s = (Throws e, s1, es)) as ->.
  { unfold consume, mbind, M_bind, bind. rewrite Hrun. cbn. by rewrite app_nil_r. }
  unfold result_of, state_of; cbn [fst snd].
  split; [done|]. split.
  - unfold consuming in Hinv. rewrite <- Hft. destruct (first l).
    + destruct Hinv as [-> Hm]. done.
    + destruct Hinv as [Hne Hopen]. by destruct (finalText l).
  - intros later. destruct (consume_builds_concatenation later s1) as [_ Hl].
    unfold state_of in Hl. rewrite Hl.
    destruct (nonempty (concat later)); by rewrite ?app_nil_r.
Qed.

Lemma appendStream_dangling c s i :
  streamingIndex s = Some i -> length (messages s) <= i ->
  appendStream c s = (Throws undefined_content, s, []).
Proof.
  intros Hi Hlen. unfold appendStream, mbind, M_bind, bind, get; cbn.
  rewrite Hi. by rewrite (lookup_ge_None_2 (messages s) i Hlen).
Qed.

(** X7.  The streaming index is not adjusted when the log is replaced.
    If, while a stream is open, the log is set to one that is not
    longer than the log was when the stream began (by [clear()], or by
    [setAll] as [removeQrMessages] uses it), the next [appendStream]
    raises a [TypeError] and leaves the store as it is. *)
Theorem appendStream_after_replacement c0 c1 msgs s :
  length msgs <= length (messages s) ->
  let r := (beginStream c0;; setAll msgs;; appendStream c1) s in
  result_of r = Throws undefined_content /\
  messages (state_of r) = msgs /\
  let r' := (beginStream c0;; clear;; appendStream c1) s in
  result_of r' = Throws undefined_content /\ messages (state_of r') = [].
Proof.
  intros Hlen.
  destruct (beginStream_run c0 s) as (s1 & es1 & Hrun1 & [Hm1 Hi1] & _).
  assert (forall ms, length ms <= length (messages s) ->
            appendStream c1 (with_messages (fun _ => ms) s1)
            = (Throws undefined_content, with_messages (fun _ => ms) s1, [])) as Hdang.
  { intros ms Hms. by apply (appendStream_dangling _ _ (length (messages s))). }
  cbn zeta.
  unfold setAll, clear, emitToRenderer, mbind, M_bind, bind, get, modify, emit.
  rewrite Hrun1; cbn. rewrite !Hdang by (cbn; lia). done.
Qed.

Lemma appendStream_after_replacement_witness :
  let s := {| messages := [streamed (lit "first")]; streamingIndex := None;
              bridge := false |} in
  let r := (beginStream (lit "He");; setAll [];; appendStream (lit "llo")) s in
  result_of r = Throws undefined_content /\
  messages (state_of r) = [] /\
  let r' := (beginStream (lit "He");; clear;; appendStream (lit "llo")) s in
  result_of r' = Throws undefined_content /\ messages (state_of r') = [].
Proof.
  apply (appendStream_after_replacement (lit "He") (lit "llo") []
           {| messages := [streamed (lit "first")]; streamingIndex := None;
              bridge := false |}).
  cbn. lia.
Defined.

(** One call: it either returns, having sent the renderer the log as
    the call left it, once; or it raises, having done nothing. *)
Lemma perform_call_run call s :
  (exists s' es, perform_call call s = (Returns tt, s', es)
                 /\ renderer_updates es = [messages s'])
  \/ perform_call call s = (Throws undefined_content, s, []).
Proof.
  destruct call as [msgs| |t|t|t|t|]; cbn [perform_call];
    try (left; eexists _, _; split; [reflexivity|done]).
  - left. unfold beginStream, emitToRenderer, bridgeSafeChat, push, mbind, M_bind,
      bind, get, modify, emit, when; cbn.
    destruct (bridge s); cbn; eexists _, _; (split; [reflexivity|done]).
  - unfold appendStream, mbind, M_bind, bind, get; cbn.
    destruct (streamingIndex s) as [i|] eqn:Hi.
    + destruct (messages s !! i) as [m|] eqn:Hm; [left|by right].
      unfold emitToRenderer, bridgeSafeChat, mbind, M_bind, bind, get, modify,
        emit, when; cbn.
      destruct (bridge s); cbn; eexists _, _; (split; [reflexivity|done]).
    + left. unfold beginStream, emitToRenderer, bridgeSafeChat, push, mbind, M_bind,
        bind, get, modify, emit, when; cbn.
      destruct (bridge s); cbn; eexists _, _; (split; [reflexivity|done]).
Qed.

(** X8.  The renderer is kept in step with the log.  Along any
    sequence of calls to the mutators of [MessageStore] ([setAll],
    [clear], [addAssistant], [addUser], [beginStream], [appendStream],
    [endStream]), up to its end or to the first call that raises, the
    last log sent on ["chat-messages-updated"] is the log the store
    holds; if nothing was sent, the log is unchanged. *)
Theorem renderer_sees_current_log calls s :
  let r := for_each calls perform_call s in
  match last (renderer_updates (trace_of r)) with
  | Some shown => shown = messages (state_of r)
  | None => messages (state_of r) = messages s
  end.
Proof.
  cbn zeta. revert s. induction calls as [|call calls IH]; intros s; [done|].
  cbn [for_each]. unfold bind.
  destruct (perform_call_run call s) as [(s1 & es1 & -> & Hup)| ->]; [|done].
  specialize (IH s1). unfold state_of, trace_of in *.
  destruct (for_each calls perform_call s1) as [[r2 s2] es2]; cbn in *.
  rewrite renderer_updates_app, Hup.
  destruct (renderer_updates es2) as [|u us] eqn:Hus; cbn in *.
  - by rewrite IH.
  - destruct (last (u :: us)) as [shown|] eqn:Hlast; [done|].
    by apply last_None in Hlast.
Qed.

End StreamerMore.

(** ** The realtime gateway, continued *)

Module EffMore.
Import JS Eff EffFacts.
Section WithTypes.
Context {St Ev : Type}.

Lemma keeps_for_each_in (P : St -> Prop) (Q : Ev -> Prop) {A}
    (l : list A) (f : A -> M St Ev unit) :
  (forall x, x ∈ l -> keeps P Q (f x)) -> keeps P Q (for_each l f).
Proof.
  induction l as [|x l IH]; intros Hf; cbn [for_each].
  - apply keeps_ret.
  - apply keeps_bind; [apply Hf; by left|intros _].
    apply IH. intros y Hy. apply Hf. by right.
Qed.


End WithTypes.
End EffMore.

Module BridgeMore.
Import JS Eff EffFacts EffMore Page Frames Bridge BridgeTerms BridgeSpec.

Section Facts.
Context {L : Type} `{!Orchestrator L} `{!Jwt}.
Implicit Types (s : Server L) (ws : nat) (msg : BridgeCommand).

Lemma run_cons_trace ev evs s :
  trace_of (run (ev :: evs) s)
  = trace_of (step ev s) ++ trace_of (run evs (state_of (step ev s))).
Proof.
  unfold run; cbn [for_each]. unfold bind, state_of, trace_of.
  destruct (step_total ev s) as (s' & es & ->); cbn.
  by destruct (for_each evs step s') as [[r s2] es2].
Qed.

Lemma emitAll_fan_out (f : frame) s : emitAll f s = (Returns tt, s, fan_out s f).
Proof. apply emitAll_run. Qed.

Lemma fan_out_active s0 s f :
  clients s = clients s0 -> Forall (to_active s0) (fan_out s f).
Proof.
  intros Hc. unfold fan_out. apply Forall_map, Forall_forall. intros c Hin.
  apply list_elem_of_filter in Hin as [_ Hin]. cbn. by rewrite <- Hc.
Qed.

(** *** Who is written to *)

Section Discipline.
Context (s0 : Server L) (ws : nat).

(** The state keeps the connection table of [s0]; every effect is a
    frame to an active connection of [s0] or a response to [ws]. *)
Local Abbreviation P := (fun s : Server L => sockets s = sockets s0).
Local Abbreviation Q :=
  (fun e : effect => to_active s0 e \/ exists r, e = WsSend ws (ResFrame r)).

Lemma sockets_clients s : sockets s = sockets s0 -> clients s = clients s0.
Proof. unfold sockets. congruence. Qed.

Lemma keeps_emitAll f : keeps P Q (emitAll f).
Proof.
  intros s HP. rewrite emitAll_fan_out. split; [done|].
  eapply Forall_impl; [by apply fan_out_active, sockets_clients|]. by left.
Qed.

Lemma keeps_emitChat role text : keeps P Q (emitChat role text).
Proof. apply keeps_bind; [apply keeps_gets|intros t; apply keeps_emitAll]. Qed.

Lemma keeps_emitEvent name data : keeps P Q (emitEvent name data).
Proof. apply keeps_bind; [apply keeps_gets|intros t; apply keeps_emitAll]. Qed.

Lemma keeps_deliver e : keeps P Q (deliver e).
Proof. destruct e; [apply keeps_emitChat|apply keeps_emitEvent]. Qed.

Lemma keeps_call_llm {A} (f : L -> outcome A * L * list emission) :
  keeps P Q (call_llm f).
Proof.
  unfold call_llm. apply keeps_get_bind. intros s HP.
  destruct (f (llm s)) as [[r l'] ems].
  apply keeps_bind; [by apply keeps_modify|intros _].
  apply keeps_bind; [|intros _; apply keeps_lift].
  apply keeps_for_each, keeps_deliver.
Qed.

Lemma keeps_send (r : BridgeResponse) : keeps P Q (send ws r).
Proof. apply keeps_emit. right. by eexists. Qed.

Lemma keeps_getPageInfo tabId : keeps P Q (getPageInfo tabId).
Proof.
  unfold getPageInfo. apply keeps_bind; [apply keeps_gets|intros w].
  destruct (if nonempty tabId then _ else _); [apply keeps_ret|apply keeps_throw].
Qed.

Lemma keeps_handleCmd msg : keeps P Q (handleCmd msg ws).
Proof.
  unfold handleCmd. apply keeps_try_catch; [|intros e; apply keeps_send].
  unfold handleCmd_body.
  repeat case_bool_decide.
  - apply keeps_bind; [apply keeps_getPageInfo|intros data].
    apply keeps_bind; [apply keeps_send|intros _; apply keeps_emitChat].
  - apply keeps_bind; [|intros _; apply keeps_send].
    apply keeps_when.
    apply keeps_bind; [apply keeps_call_llm|intros _; apply keeps_emitEvent].
  - apply keeps_bind; [|intros _; apply keeps_send].
    apply keeps_when.
    apply keeps_bind; [apply keeps_call_llm|intros _; apply keeps_emitEvent].
  - apply keeps_bind; [apply keeps_gets|intros t].
    apply keeps_bind; [apply keeps_emitChat|intros _].
    apply keeps_bind; [apply keeps_call_llm|intros _; apply keeps_send].
  - apply keeps_send.
Qed.

End Discipline.

(** *** Admission *)

Lemma admitted_connection_run ws req s :
  jwt_verify (now s) (bearer_token req) (secret_of s) = true ->
  result_of (step (Connection ws req) s) = Returns tt /\
  sockets (state_of (step (Connection ws req) s))
  = (set_add ws (clients s), <[ws:=true]> (connectionAlive s),
     {[ws]} ∪ listening s, {[ws]} ∪ ready s) /\
  llm (state_of (step (Connection ws req) s)) = llm_removeQrMessages (llm s) /\
  trace_of (step (Connection ws req) s)
  = [IpcBridgeConnected TopBar true; IpcBridgeConnected Sidebar true]
    ++ match activeTab (window s) with
       | Some active =>
           fan_out (state_of (step (Connection ws req) s))
             (EvtFrame (lit "activeTab")
                (ActiveTab (Some (tab_id active)) (tab_url active)) (now s))
       | None => []
       end.
Proof.
  intros Hv. cbn [step]. unfold onConnection, authOk, mbind, M_bind, bind; cbn.
  unfold secret_of in Hv. rewrite Hv; cbn.
  unfold notifyRendererConnected, mbind, M_bind, mret, M_ret, bind, ret, get, gets,
    modify, emit; cbn.
  destruct (activeTab (window s)) as [active|]; cbn; [|done].
  unfold broadcastActiveTab, emitEvent, mbind, M_bind, bind, gets; cbn.
  rewrite emitAll_fan_out. cbn. done.
Qed.

(** X9.  A handshake whose bearer token [jwt.verify] accepts is
    admitted: the socket joins the active set (once, even if it was
    there), is flagged alive and gets its listeners; the QR prompts are
    removed from the conversation; both renderer views are told that
    the bridge is connected; and when there is an active tab, an
    [activeTab] event goes to every open connection of the active set,
    the newcomer included and those already connected once more. *)
Theorem authorized_connection_admitted ws req s :
  jwt_verify (now s) (bearer_token req) (secret_of s) = true ->
  let r := step (Connection ws req) s in
  result_of r = Returns tt /\
  sockets (state_of r)
  = (set_add ws (clients s), <[ws:=true]> (connectionAlive s),
     {[ws]} ∪ listening s, {[ws]} ∪ ready s) /\
  llm (state_of r) = llm_removeQrMessages (llm s) /\
  trace_of r
  = [IpcBridgeConnected TopBar true; IpcBridgeConnected Sidebar true]
    ++ match activeTab (window s) with
       | Some active =>
           map (fun c => WsSend c (EvtFrame (lit "activeTab")
                                     (ActiveTab (Some (tab_id active)) (tab_url active))
                                     (now s)))
             (filter (fun c => c ∈ {[ws]} ∪ ready s) (set_add ws (clients s)))
       | None => []
       end.
Proof.
  intros Hv. cbv zeta.
  destruct (admitted_connection_run ws req s Hv) as (Hr & Hs & Hl & Ht).
  split_and!; try done. rewrite Ht. f_equal.
  destruct (activeTab (window s)) as [active|]; [|done].
  unfold fan_out, sockets in *.
  set (s' := state_of (step (Connection ws req) s)) in *.
  assert (clients s' = set_add ws (clients s)) as -> by congruence.
  assert (ready s' = {[ws]} ∪ ready s) as -> by congruence. done.
Qed.

(** *** Connections that were never admitted *)

Lemma heartbeat_trace s :
  Forall (fun e => exists c, c ∈ clients s /\ (e = WsTerminate c \/ e = WsPing c))
    (trace_of (step Tick s)).
Proof.
  rewrite tick_trace.
  destruct (keeps_for_each_in (fun _ : Server L => True)
              (fun e => exists c, c ∈ clients s /\ (e = WsTerminate c \/ e = WsPing c))
              (clients s) heartbeat_one) with (s := s) as [_ Hq]; [|done..].
  intros c Hc s' _. rewrite heartbeat_one_run.
  case_bool_decide; cbn; (split; [done|]); repeat constructor; eauto.
Qed.

Lemma heartbeat_listening s :
  listening (state_of (step Tick s)) = listening s.
Proof.
  rewrite tick_state.
  destruct (keeps_for_each (fun s' : Server L => listening s' = listening s)
              (fun _ => True) (clients s) heartbeat_one) with (s := s) as [Hp _];
    [|done..].
  intros c s' HP. rewrite heartbeat_one_run.
  case_bool_decide; cbn; (split; [done|]); by repeat constructor.
Qed.

Lemma message_run ws' raw s :
  ws' ∈ listening s ->
  sockets (state_of (step (Message ws' raw) s)) = sockets s /\
  Forall (fun e => to_active s e \/ exists resp, e = WsSend ws' (ResFrame resp))
    (trace_of (step (Message ws' raw) s)).
Proof.
  intros Hl. cbn [step]. unfold mbind, M_bind, bind, get; cbn.
  rewrite bool_decide_true by done; cbn.
  destruct raw as [| |msg]; cbn; try done.
  destruct (keeps_handleCmd s ws' msg s eq_refl) as [HP HQ].
  unfold state_of, trace_of in *.
  by destruct (handleCmd msg ws' s) as [[r s1] es1].
Qed.

Lemma step_outsider ev s ws :
  ws ∉ clients s -> ws ∉ listening s ->
  (forall req, ev = Connection ws req ->
     jwt_verify (now s) (bearer_token req) (secret_of s) = false) ->
  (ws ∉ clients (state_of (step ev s))) /\
  (ws ∉ listening (state_of (step ev s))) /\
  Forall (refusal_only ws) (trace_of (step ev s)).
Proof.
  intros Hc Hl Href.
  destruct ev as [ws' req|ws'|ws' raw|ws'| |t].
  - destruct (jwt_verify (now s) (bearer_token req) (secret_of s)) eqn:Hv.
    + assert (ws' ≠ ws) as Hne by (intros ->; by rewrite (Href req) in Hv).
      destruct (admitted_connection_run ws' req s Hv) as (_ & Hs & _ & Ht).
      unfold sockets in Hs.
      set (s' := state_of (step (Connection ws' req) s)) in *.
      assert (clients s' = set_add ws' (clients s)) as Hc' by congruence.
      assert (listening s' = {[ws']} ∪ listening s) as Hl' by congruence.
      rewrite Ht, Hl'. split_and!.
      * rewrite Hc', elem_of_set_add. intros [?|?]; by subst.
      * rewrite elem_of_union, elem_of_singleton. intros [?|?]; by subst.
      * repeat (apply Forall_cons; split; [done|]).
        destruct (activeTab (window s)); [|done].
        apply Forall_map, Forall_forall. intros c Hin. unfold refusal_only; cbn.
        apply list_elem_of_filter in Hin as [_ Hin]. rewrite Hc' in Hin.
        apply elem_of_set_add in Hin. intros [= ->]. by destruct Hin.
    + rewrite refused_connection_run by done. cbn. split_and!; try done.
      repeat constructor. unfold refusal_only; cbn. by intros [= ->].
  - cbn [step]. unfold onPong, mbind, M_bind, bind, get, when, modify; cbn.
    by case_bool_decide.
  - destruct (decide (ws' ∈ listening s)) as [Hin|Hnot].
    + destruct (message_run ws' raw s Hin) as [Hs Ht].
      unfold sockets in Hs.
      set (s' := state_of (step (Message ws' raw) s)) in *.
      assert (clients s' = clients s) as -> by congruence.
      assert (listening s' = listening s) as -> by congruence.
      split_and!; try done.
      eapply Forall_impl; [exact Ht|].
      intros e [He|[resp ->]]; unfold refusal_only; cbn.
      * destruct e; try done. cbn in He. by intros [= ->].
      * intros [= ->]. done.
    + cbn [step]. unfold mbind, M_bind, bind, get, when; cbn.
      by rewrite bool_decide_false.
  - cbn [step]. unfold onClose, notifyRendererConnected, mbind, M_bind, bind, get,
      when, modify, emit; cbn.
    case_bool_decide; cbn; [|done].
    case_bool_decide; cbn; rewrite elem_of_set_delete; split_and!; try tauto;
      by repeat constructor.
  - split_and!.
    + intros Hin. apply Hc. revert Hin. by apply step_clients_subseteq.
    + by rewrite heartbeat_listening.
    + eapply Forall_impl; [apply heartbeat_trace|].
      intros e (c & Hin & [->| ->]); unfold refusal_only; cbn; intros [= ->]; done.
  - done.
Qed.

(** X10.  A connection whose handshakes are all refused is never
    written to: no response, no chat or event frame and no probe is
    addressed to it, whatever else happens on the server; all it ever
    gets is the close with code 4001. *)
Theorem unauthorized_receives_nothing ws evs s0 :
  ws ∉ clients s0 -> ws ∉ listening s0 -> always_refused ws evs s0 ->
  Forall (refusal_only ws) (trace_of (run evs s0)).
Proof.
  revert s0. induction evs as [|ev evs IH]; intros s Hc Hl Href; [done|].
  destruct Href as [Hev Hrest]. rewrite run_cons_trace.
  destruct (step_outsider ev s ws Hc Hl) as (Hc' & Hl' & Ht).
  { intros req ->. by apply Hev. }
  apply Forall_app. split; [done|]. by apply IH.
Qed.

(** *** Commands *)

Lemma emitChat_fan_out role text s :
  emitChat role text s = (Returns tt, s, fan_out s (frame_of (now s) (EmitChat role text))).
Proof. unfold emitChat, mbind, M_bind, bind, gets; cbn. by rewrite emitAll_fan_out. Qed.

Lemma emitEvent_fan_out name data s :
  emitEvent name data s
  = (Returns tt, s, fan_out s (frame_of (now s) (EmitEvent name data))).
Proof. unfold emitEvent, mbind, M_bind, bind, gets; cbn. by rewrite emitAll_fan_out. Qed.

Lemma deliver_all_fan_out (ems : list emission) s :
  for_each ems deliver s
  = (Returns tt, s, flat_map (fun e => fan_out s (frame_of (now s) e)) ems).
Proof.
  induction ems as [|e ems IH]; [done|].
  cbn [for_each flat_map]. unfold bind.
  assert (deliver e s = (Returns tt, s, fan_out s (frame_of (now s) e))) as ->
    by (destruct e; [apply emitChat_fan_out|apply emitEvent_fan_out]).
  by rewrite IH.
Qed.

Lemma call_llm_fan_out {A} (f : L -> outcome A * L * list emission) s :
  call_llm f s
  = ((f (llm s)).1.1, with_llm (f (llm s)).1.2 s,
     flat_map (fun e => fan_out s (frame_of (now s) e)) (f (llm s)).2).
Proof.
  unfold call_llm, mbind, M_bind, bind, get, modify, lift_outcome; cbn.
  destruct (f (llm s)) as [[r l'] ems]; cbn.
  rewrite deliver_all_fan_out. cbn. destruct r; by rewrite ?app_nil_r.
Qed.

(** X11.  The [getPageInfo] command.  A falsy or missing [tabId]
    selects the active tab.  When the tab does not exist (or there is
    no active tab) the only frame written is the response [ok = false]
    with the error ["No tab"], and nothing is broadcast.  Otherwise the
    requester gets [ok = true] with the page data and status 200, and
    then every open connection of the active set gets one browser chat
    frame: the title (or ["(untitled)"]), a dash, and the first 140
    code units of the summary followed by an ellipsis.  The server
    state is unchanged either way. *)
Theorem getPageInfo_command msg ws s :
  cmd_name msg = lit "getPageInfo" ->
  let tabId := string_or_empty (arg msg (lit "tabId")) in
  let tab := if nonempty tabId then getTab (window s) tabId
             else activeTab (window s) in
  handleCmd msg ws s
  = match tab with
    | None =>
        (Returns tt, s, [WsSend ws (ResFrame (error_response msg (lit "No tab")))])
    | Some t =>
        let info := getInfoForTab t in
        (Returns tt, s,
         WsSend ws (ResFrame (ok_response msg
                                (PageData (title info) (url info) 200
                                   (summary info) (links info))))
         :: fan_out s
              (ChatFrame (lit "m-" ++ dec (now s)) Browser
                 (default (lit "(untitled)") (title info) ++ lit " " ++ em_dash
                  ++ lit " " ++ slice0 140 (summary info) ++ ellipsis)
                 (now s)))
    end.
Proof.
  intros Hname. cbv zeta.
  unfold handleCmd, try_catch, handleCmd_body. rewrite bool_decide_true by done.
  unfold getPageInfo, mbind, M_bind, bind, gets, send, ws_send, emit; cbn.
  destruct (if nonempty (string_or_empty (arg msg (lit "tabId"))) then _ else _)
    as [t|]; cbn; [|done].
  by rewrite emitChat_fan_out.
Qed.

(** The [setFeature] command, for any orchestrator. *)
Lemma setFeature_run msg ws s :
  cmd_name msg = lit "setFeature" ->
  string_or_empty (arg msg (lit "key")) = lit "offlineMode" ->
  handleCmd msg ws s
  = let value := truthy (arg msg (lit "value")) in
    let r := llm_setOfflineMode value (llm s) in
    (Returns tt, with_llm r.1.2 s,
     flat_map (fun e => fan_out s (frame_of (now s) e)) r.2
     ++ match r.1.1 with
        | Returns _ =>
            fan_out s (EvtFrame (lit "featureState") (FeatureState value) (now s))
            ++ [WsSend ws (ResFrame (ok_response msg EmptyData))]
        | Throws e =>
            [WsSend ws (ResFrame (error_response msg (describe_thrown (lit "error") e)))]
        end).
Proof.
  intros Hname Hkey. cbv zeta.
  unfold handleCmd, try_catch, handleCmd_body.
  rewrite bool_decide_false by (rewrite Hname; by vm_compute).
  rewrite bool_decide_true by done. rewrite Hkey, bool_decide_true by done.
  unfold when, mbind, M_bind, bind, send, ws_send, emit.
  rewrite call_llm_fan_out.
  destruct (llm_setOfflineMode _ (llm s)) as [[[b|e] l'] ems]; cbn.
  - rewrite emitEvent_fan_out. cbn. by rewrite <- !app_assoc.
  - done.
Qed.

(** *** Connections that answer the probes *)

Lemma NoDup_set_add ws (l : list nat) : NoDup l -> NoDup (set_add ws l).
Proof.
  intros Hnd. unfold set_add. case_bool_decide as Hin; [done|].
  apply NoDup_app. split_and!; [done| |apply NoDup_singleton].
  intros x Hx ->%list_elem_of_singleton. done.
Qed.

Lemma NoDup_set_delete ws (l : list nat) : NoDup l -> NoDup (set_delete ws l).
Proof. apply NoDup_filter. Qed.

Lemma heartbeat_NoDup s :
  NoDup (clients s) -> NoDup (clients (state_of (step Tick s))).
Proof.
  intros Hnd. rewrite tick_state.
  destruct (keeps_for_each (fun s' : Server L => NoDup (clients s'))
              (fun _ => True) (clients s) heartbeat_one) with (s := s) as [Hp _];
    [|done..].
  intros c s' HP. rewrite heartbeat_one_run.
  case_bool_decide; cbn; (split; [|by repeat constructor]); [|done].
  by apply NoDup_set_delete.
Qed.

Lemma heartbeat_loop_spares l ws s :
  ws ∉ l -> Forall (spares ws) (trace_of (for_each l heartbeat_one s)).
Proof.
  intros Hnot.
  destruct (keeps_for_each_in (fun _ : Server L => True) (spares ws)
              l heartbeat_one) with (s := s) as [_ Hq]; [|done..].
  intros c Hc s' _. rewrite heartbeat_one_run.
  case_bool_decide; cbn; (split; [done|]); repeat constructor.
  cbn. by intros ->.
Qed.

(** A tick on a connection that has answered the last probe: it is
    probed again and stays. *)
Lemma tick_spares_alive ws s :
  NoDup (clients s) -> ws ∈ clients s -> connectionAlive s !! ws ≠ Some false ->
  ws ∈ clients (state_of (step Tick s)) /\
  Forall (spares ws) (trace_of (step Tick s)).
Proof.
  intros Hnd Hin Halive. rewrite tick_state, tick_trace.
  apply list_elem_of_split in Hin as (l1 & l2 & Hl). rewrite Hl in Hnd |- *.
  apply NoDup_app in Hnd as (_ & Hl1 & Hl2).
  apply NoDup_cons in Hl2 as [Hl2 _].
  assert (ws ∉ l1) as Hl1' by (intros ?; eapply Hl1; [done|by left]).
  rewrite for_each_app. unfold bind.
  rewrite (for_each_total_run _ l1) by apply heartbeat_one_total.
  pose proof (heartbeat_loop_spares l1 ws s Hl1') as Hsp1.
  destruct (heartbeat_loop_other l1 ws s Hl1') as [Ha1 Hc1].
  set (s1 := state_of (for_each l1 heartbeat_one s)) in *.
  cbn [for_each]. unfold bind. rewrite heartbeat_one_run, Ha1.
  rewrite bool_decide_false by done.
  rewrite (for_each_total_run _ l2) by apply heartbeat_one_total.
  unfold trace_of at 1, state_of at 1; cbn.
  pose proof (heartbeat_loop_spares l2 ws
                (with_alive (fun m => <[ws:=false]> m) s1) Hl2) as Hsp2.
  destruct (heartbeat_loop_other l2 ws
              (with_alive (fun m => <[ws:=false]> m) s1) Hl2) as [_ ->].
  cbn. split.
  - apply Hc1. rewrite Hl, elem_of_app, elem_of_cons. tauto.
  - apply Forall_app. split; [done|]. by apply Forall_cons.
Qed.

(** What is known of a connection that answers: it is active, has its
    listeners, and its flag is not [false] if a pong has arrived since
    the last tick. *)
Local Abbreviation answering ws fresh s :=
  (NoDup (clients s) /\ ws ∈ clients s /\ ws ∈ listening s
   /\ (fresh = true -> connectionAlive s !! ws ≠ Some false)).

Lemma step_answering ws fresh ev evs s :
  answering ws fresh s -> answers ws fresh (ev :: evs) ->
  exists fresh',
    answers ws fresh' evs /\ answering ws fresh' (state_of (step ev s))
    /\ Forall (spares ws) (trace_of (step ev s)).
Proof.
  intros (Hnd & Hin & Hl & Hfresh) Hans.
  destruct ev as [ws' req|ws'|ws' raw|ws'| |t]; cbn [answers] in Hans.
  - destruct Hans as [Hne Hans]. exists fresh. split; [done|].
    destruct (jwt_verify (now s) (bearer_token req) (secret_of s)) eqn:Hv.
    + destruct (admitted_connection_run ws' req s Hv) as (_ & Hs & _ & Ht).
      unfold sockets in Hs.
      set (s' := state_of (step (Connection ws' req) s)) in *.
      assert (clients s' = set_add ws' (clients s)) as Hc' by congruence.
      assert (listening s' = {[ws']} ∪ listening s) as Hl' by congruence.
      assert (connectionAlive s' = <[ws':=true]> (connectionAlive s)) as Ha'
        by congruence.
      rewrite Ht, Hc', Hl', Ha'. split_and!.
      * by apply NoDup_set_add.
      * rewrite elem_of_set_add. by left.
      * rewrite elem_of_union. by right.
      * by rewrite lookup_insert_ne.
      * repeat (apply Forall_cons; split; [done|]).
        destruct (activeTab (window s)); [|done].
        unfold fan_out. by apply Forall_map, Forall_true.
    + rewrite refused_connection_run by done. cbn. split_and!; try done.
      by repeat constructor.
  - exists (fresh || bool_decide (ws' = ws)). split; [done|].
    cbn [step]. unfold onPong, mbind, M_bind, bind, get, when, modify; cbn.
    destruct (decide (ws' ∈ listening s)) as [Hl'|Hl'];
      [rewrite (bool_decide_true _ Hl')|rewrite (bool_decide_false _ Hl')];
      cbn; split_and!; try done.
    + intros Hf. destruct (decide (ws' = ws)) as [->|Hne].
      * by rewrite lookup_insert_eq.
      * rewrite lookup_insert_ne by done. apply Hfresh.
        by rewrite bool_decide_false, orb_false_r in Hf.
    + intros Hf. apply Hfresh. destruct (decide (ws' = ws)) as [->|Hne]; [done|].
      by rewrite bool_decide_false, orb_false_r in Hf.
  - exists fresh. split; [done|].
    destruct (decide (ws' ∈ listening s)) as [Hin'|Hnot].
    + destruct (message_run ws' raw s Hin') as [Hs Ht].
      unfold sockets in Hs.
      set (s' := state_of (step (Message ws' raw) s)) in *.
      assert (clients s' = clients s) as -> by congruence.
      assert (listening s' = listening s) as -> by congruence.
      assert (connectionAlive s' = connectionAlive s) as -> by congruence.
      split_and!; try done.
      eapply Forall_impl; [exact Ht|]. intros e [He|[resp ->]]; [|done].
      by destruct e.
    + cbn [step]. unfold mbind, M_bind, bind, get, when; cbn.
      by rewrite bool_decide_false.
  - destruct Hans as [Hne Hans]. exists fresh. split; [done|].
    cbn [step]. unfold onClose, notifyRendererConnected, mbind, M_bind, bind, get,
      when, modify, emit; cbn.
    case_bool_decide; cbn; [|done].
    case_bool_decide; cbn; rewrite elem_of_set_delete;
      (split_and!; [by apply NoDup_set_delete|done..|by repeat constructor]).
  - destruct Hans as [-> Hans]. exists false. split; [done|].
    destruct (tick_spares_alive ws s) as [Hin' Hsp]; [by auto..|].
    split_and!; try done.
    + by apply heartbeat_NoDup.
    + by rewrite heartbeat_listening.
  - exists fresh. by split_and!.
Qed.

(** X12.  A connection that answers the probes is never evicted.  If
    an active connection sends a pong between any two heartbeat ticks,
    and neither closes nor starts a new handshake, then whatever else
    happens on the server it stays in the active set, and the server
    neither terminates nor closes it. *)
Theorem responsive_connection_stays ws evs s :
  NoDup (clients s) -> ws ∈ clients s -> ws ∈ listening s ->
  connectionAlive s !! ws ≠ Some false ->
  answers ws true evs ->
  ws ∈ clients (state_of (run evs s)) /\
  Forall (spares ws) (trace_of (run evs s)).
Proof.
  intros Hnd Hin Hl Halive Hans.
  assert (forall evs' s' fresh,
            answering ws fresh s' -> answers ws fresh evs' ->
            ws ∈ clients (state_of (run evs' s')) /\
            Forall (spares ws) (trace_of (run evs' s'))) as Hgen.
  { clear. induction evs' as [|ev evs' IH]; intros s fresh Hinv Hans.
    - split; [by destruct Hinv as (_ & ? & _)|done].
    - destruct (step_answering ws fresh ev evs' s Hinv Hans)
        as (fresh' & Hans' & Hinv' & Hsp).
      destruct (IH _ fresh' Hinv' Hans') as [Hin Hsp'].
      rewrite run_cons, run_cons_trace. split; [done|]. by apply Forall_app. }
  by apply (Hgen evs s true).
Qed.

(** *** The connection indicator *)

Lemma shown_connected_app b es1 es2 :
  shown_connected b (es1 ++ es2) = shown_connected (shown_connected b es1) es2.
Proof.
  revert b. induction es1 as [|e es1 IH]; intros b; [done|].
  destruct e as [| | | |[] c]; cbn; apply IH.
Qed.

Lemma shown_connected_quiet b es :
  Forall (fun e => target e <> None) es -> shown_connected b es = b.
Proof.
  induction 1 as [|e es He _ IH]; [done|].
  destruct e as [| | | |v c]; cbn in *; done.
Qed.

Lemma set_add_nonempty ws (l : list nat) : set_add ws l <> [].
Proof.
  intros Heq. assert (ws ∈ set_add ws l) as Hin by (apply elem_of_set_add; by right).
  rewrite Heq in Hin. by apply elem_of_nil in Hin.
Qed.

Lemma step_shown ev s :
  ev <> Tick ->
  shown_connected (bool_decide (clients s <> [])) (trace_of (step ev s))
  = bool_decide (clients (state_of (step ev s)) <> []).
Proof.
  intros Hev. destruct ev as [ws req|ws|ws raw|ws| |t]; [| | | |done|done].
  - destruct (jwt_verify (now s) (bearer_token req) (secret_of s)) eqn:Hv.
    + destruct (admitted_connection_run ws req s Hv) as (_ & Hs & _ & Ht).
      unfold sockets in Hs.
      set (s' := state_of (step (Connection ws req) s)) in *.
      assert (clients s' = set_add ws (clients s)) as -> by congruence.
      rewrite Ht. cbn [app shown_connected].
      rewrite (bool_decide_true _ (set_add_nonempty ws (clients s))).
      destruct (activeTab (window s)); [|done].
      apply shown_connected_quiet. unfold fan_out. by apply Forall_map, Forall_true.
    + rewrite refused_connection_run by done. done.
  - cbn [step]. unfold onPong, mbind, M_bind, bind, get, when, modify; cbn.
    by destruct (bool_decide (ws ∈ listening s)).
  - destruct (decide (ws ∈ listening s)) as [Hin|Hnot].
    + destruct (message_run ws raw s Hin) as [Hs Ht].
      unfold sockets in Hs.
      set (s' := state_of (step (Message ws raw) s)) in *.
      assert (clients s' = clients s) as -> by congruence.
      apply shown_connected_quiet. eapply Forall_impl; [exact Ht|].
      intros e [He|[resp ->]]; [by destruct e|done].
    + cbn [step]. unfold mbind, M_bind, bind, get, when; cbn.
      by rewrite (bool_decide_false _ Hnot).
  - cbn [step]. unfold onClose, notifyRendererConnected, mbind, M_bind, bind, get,
      when, modify, emit; cbn.
    destruct (bool_decide (ws ∈ listening s)); cbn; [|done].
    destruct (decide (length (set_delete ws (clients s)) = 0)) as [Hlen|Hlen];
      [rewrite (bool_decide_true _ Hlen)|rewrite (bool_decide_false _ Hlen)]; cbn.
    + apply nil_length_inv in Hlen. rewrite Hlen.
      symmetry. apply bool_decide_false. by intros ?.
    + assert (set_delete ws (clients s) <> []) as Hne
        by (intros Heq; by rewrite Heq in Hlen).
      rewrite (bool_decide_true _ Hne). apply bool_decide_true.
      intros Heq. by rewrite Heq in Hne.
Qed.

(** X13.  The connection indicator of the renderer.  As long as no
    heartbeat tick fires, the last value sent on ["bridge-connected"]
    tells whether the active set is non-empty, after any sequence of
    handshakes, messages, pongs and closes.  A heartbeat tick is
    different: evicting the only connection terminates it and empties
    the active set without a word to the renderer, which is only told
    once the close event of that socket arrives. *)
Theorem indicator_tracks_connections evs s :
  Forall (fun ev => ev <> Tick) evs ->
  let r := run evs s in
  shown_connected (bool_decide (clients s <> [])) (trace_of r)
  = bool_decide (clients (state_of r) <> []) /\
  forall ws s1,
    clients s1 = [ws] -> connectionAlive s1 !! ws = Some false ->
    clients (state_of (step Tick s1)) = [] /\
    trace_of (step Tick s1) = [WsTerminate ws].
Proof.
  intros Hevs. cbv zeta. split.
  - revert s. induction Hevs as [|ev evs Hev _ IH]; intros s; [done|].
    rewrite run_cons_trace, run_cons, shown_connected_app.
    rewrite (step_shown ev s Hev). apply IH.
  - intros ws s1 Hc Ha. rewrite tick_state, tick_trace, Hc. cbn [for_each].
    unfold bind. rewrite heartbeat_one_run, (bool_decide_true _ Ha). cbn.
    split; [|done]. unfold set_delete. rewrite Hc.
    by rewrite filter_cons, decide_False by (by intros ?).
Qed.

End Facts.

Import Fixtures MoreFixtures Wiring.
#[local] Existing Instance fixture_jwt.

Lemma authorized_connection_admitted_witness :
  let r := step (Connection 7 valid_handshake) server_with_two in
  result_of r = Returns tt /\
  sockets (state_of r)
  = (set_add 7 (clients server_with_two),
     <[7:=true]> (connectionAlive server_with_two),
     {[7]} ∪ listening server_with_two, {[7]} ∪ ready server_with_two) /\
  llm (state_of r) = llm_removeQrMessages (llm server_with_two) /\
  trace_of r
  = [IpcBridgeConnected TopBar true; IpcBridgeConnected Sidebar true]
    ++ match activeTab (window server_with_two) with
       | Some active =>
           map (fun c => WsSend c (EvtFrame (lit "activeTab")
                                     (ActiveTab (Some (tab_id active)) (tab_url active))
                                     (now server_with_two)))
             (filter (fun c => c ∈ {[7]} ∪ ready server_with_two)
                (set_add 7 (clients server_with_two)))
       | None => []
       end.
Proof.
  apply (authorized_connection_admitted 7 valid_handshake server_with_two).
  by vm_compute.
Defined.

Lemma unauthorized_receives_nothing_witness :
  Forall (refusal_only 7)
    (trace_of (run [Connection 7 expired_handshake; Tick;
                    Message 7 (Cmd reboot_command); Pong 7]
                 server_with_two)).
Proof.
  apply (unauthorized_receives_nothing 7
           [Connection 7 expired_handshake; Tick; Message 7 (Cmd reboot_command); Pong 7]
           server_with_two).
  - cbn. intros Hin. apply elem_of_cons in Hin as [?|Hin]; [done|].
    by apply list_elem_of_singleton in Hin.
  - cbn. rewrite elem_of_union, !elem_of_singleton. lia.
  - cbn [always_refused]. by split_and!.
Defined.

Lemma responsive_connection_stays_witness :
  1 ∈ clients (state_of (run [Tick; Pong 1; Message 2 NotCmd; Tick; Pong 1; Tick]
                           server_with_two)) /\
  Forall (spares 1)
    (trace_of (run [Tick; Pong 1; Message 2 NotCmd; Tick; Pong 1; Tick]
                 server_with_two)).
Proof.
  apply (responsive_connection_stays 1
           [Tick; Pong 1; Message 2 NotCmd; Tick; Pong 1; Tick] server_with_two).
  - apply NoDup_cons. split; [by intros ?%list_elem_of_singleton|apply NoDup_singleton].
  - by left.
  - cbn. rewrite elem_of_union, !elem_of_singleton. by left.
  - by vm_compute.
  - cbn. by split_and!.
Defined.

Lemma getPageInfo_command_witness :
  handleCmd page_command 1 server_with_two
  = (Returns tt, server_with_two,
     WsSend 1 (ResFrame (ok_response page_command
                           (PageData (Some (lit "Example"))
                              (Some (lit "https://example.com")) 200
                              (lit "Example Domain") [])))
     :: fan_out server_with_two
          (ChatFrame (lit "m-" ++ dec 2000000) Browser
             (lit "Example" ++ lit " " ++ em_dash ++ lit " "
              ++ lit "Example Domain" ++ ellipsis)
             2000000)).
Proof.
  apply (getPageInfo_command page_command 1 server_with_two). reflexivity.
Defined.

Lemma indicator_tracks_connections_witness :
  let r := run [Close 1; Connection 7 valid_handshake; Close 2; Close 7]
             server_with_two in
  shown_connected (bool_decide (clients server_with_two <> [])) (trace_of r)
  = bool_decide (clients (state_of r) <> []) /\
  forall ws (s1 : Server LLMClient.Client),
    clients s1 = [ws] -> connectionAlive s1 !! ws = Some false ->
    clients (state_of (step Tick s1)) = [] /\
    trace_of (step Tick s1) = [WsTerminate ws].
Proof.
  apply (indicator_tracks_connections
           [Close 1; Connection 7 valid_handshake; Close 2; Close 7] server_with_two).
  by repeat constructor.
Defined.

End BridgeMore.

(** ** The bridge in front of the orchestrator *)

Module WiringMore.
Import JS Eff EffFacts EffMore Page Frames Orch ModelManager MessageStore.
Import Bridge BridgeTerms BridgeSpec BridgeMore LLMClient LLMClientSpec Wiring.

Section Facts.
Context `{!Jwt}.
Implicit Types (s : Server Client) (ws : nat) (msg : BridgeCommand).

Lemma emissions_app es1 es2 : emissions (es1 ++ es2) = emissions es1 ++ emissions es2.
Proof. apply omap_app. Qed.

Lemma manager_result_is_mode enabled e st :
  ModelManager.offlineMode (ModelManager.setOfflineMode enabled e st).2
  = (ModelManager.setOfflineMode enabled e st).1.
Proof.
  unfold ModelManager.setOfflineMode.
  destruct (Bool.eqb (ModelManager.offlineMode st) enabled); [done|].
  destruct enabled; [|done]. by destruct (ModelManager.model _).
Qed.

Lemma client_setOfflineMode_mode enabled c :
  offlineMode (state_of (setOfflineMode enabled c))
  = (ModelManager.setOfflineMode enabled (env (world c)) (manager c)).1
  /\ result_of (setOfflineMode enabled c)
     = Returns (ModelManager.setOfflineMode enabled (env (world c)) (manager c)).1
  /\ trace_of (setOfflineMode enabled c) = [].
Proof.
  pose proof (manager_result_is_mode enabled (env (world c)) (manager c)) as Hm.
  unfold setOfflineMode, syncFromManager, mbind, M_bind, bind, get, modify.
  destruct (ModelManager.setOfflineMode enabled (env (world c)) (manager c)) as [r m].
  cbn in *. by rewrite Hm.
Qed.

(** X14.  [setFeature] over the bridge reports the request, not the
    outcome.  With key ["offlineMode"] the client's [setOfflineMode] is
    called with the truthiness of [value]; then every open connection
    of the active set gets a [featureState] event carrying that same
    requested value, and the requester gets [ok = true], whatever the
    call resolved to.  The client's mode afterwards is what the call
    resolved to: when offline mode is requested of a client that is
    online and whose on-device provider cannot be brought up, the
    event says [offlineMode: true] and the client is not in offline
    mode. *)
Theorem setFeature_reports_request msg ws s :
  cmd_name msg = lit "setFeature" ->
  string_or_empty (arg msg (lit "key")) = lit "offlineMode" ->
  let value := truthy (arg msg (lit "value")) in
  let r := handleCmd msg ws s in
  trace_of r
  = fan_out s (EvtFrame (lit "featureState") (FeatureState value) (now s))
    ++ [WsSend ws (ResFrame (ok_response msg EmptyData))] /\
  llm (state_of r) = state_of (setOfflineMode value (llm s)) /\
  offlineMode (llm (state_of r))
  = (ModelManager.setOfflineMode value (env (world (llm s))) (manager (llm s))).1 /\
  (value = true /\ ModelManager.offlineMode (manager (llm s)) = false
   /\ apple_unavailable (env (world (llm s))) (manager (llm s)) ->
   offlineMode (llm (state_of r)) = false).
Proof.
  intros Hname Hkey. cbv zeta.
  rewrite setFeature_run by done. cbv zeta.
  cbn [llm_setOfflineMode client_orchestrator]. unfold through_bridge.
  destruct (client_setOfflineMode_mode (truthy (arg msg (lit "value"))) (llm s))
    as (Hmode & Hres & Htr).
  unfold result_of, state_of, trace_of in *.
  destruct (setOfflineMode (truthy (arg msg (lit "value"))) (llm s)) as [[r c'] es].
  cbn in *. subst r es. cbn. split_and!; try done.
  intros (Hv & Hoff & Hun). rewrite Hmode, Hv.
  destruct (ModelManagerSpec.switch_to_apple_unavailable _ _ Hun) as (Hm & _).
  unfold ModelManager.setOfflineMode. rewrite Hoff; cbn. by rewrite Hm.
Qed.




End Facts.

Import Fixtures MoreFixtures.
#[local] Existing Instance fixture_jwt.

Lemma setFeature_reports_request_witness :
  let r := handleCmd offline_command 1 server_with_two in
  trace_of r
  = fan_out server_with_two
      (EvtFrame (lit "featureState") (FeatureState true) (now server_with_two))
    ++ [WsSend 1 (ResFrame (ok_response offline_command EmptyData))] /\
  llm (state_of r) = state_of (setOfflineMode true (llm server_with_two)) /\
  offlineMode (llm (state_of r))
  = (ModelManager.setOfflineMode true (env (world (llm server_with_two)))
       (manager (llm server_with_two))).1 /\
  (true = true /\ ModelManager.offlineMode (manager (llm server_with_two)) = false
   /\ apple_unavailable (env (world (llm server_with_two)))
        (manager (llm server_with_two)) ->
   offlineMode (llm (state_of r)) = false).
Proof.
  apply (setFeature_reports_request offline_command 1 server_with_two).
  - reflexivity.
  - by vm_compute.
Defined.


End WiringMore.

(** ** The IPC handlers, the network monitor and the top bar *)

Module EventsSpec.
Import JS Eff EffFacts EffMore Page Frames Orch ModelManager MessageStore.
Import LLMClient LLMClientSpec LLMEvents.

Lemma manager_mode_is_result enabled e st :
  ModelManager.offlineMode (ModelManager.setOfflineMode enabled e st).2
  = (ModelManager.setOfflineMode enabled e st).1.
Proof.
  unfold ModelManager.setOfflineMode.
  destruct (Bool.eqb (ModelManager.offlineMode st) enabled); [done|].
  destruct enabled; [|done]. by destruct (ModelManager.model _).
Qed.

(** What the client's [setOfflineMode] leaves: it never raises, emits
    nothing, and the client's mode is what the call resolved to. *)
Lemma client_setOfflineMode_result enabled c :
  exists confirmed c',
    LLMClient.setOfflineMode enabled c = (Returns confirmed, c', []) /\
    offlineMode c' = confirmed /\
    messageStore c' = messageStore c /\
    confirmed = (ModelManager.setOfflineMode enabled (env (world c)) (manager c)).1.
Proof.
  pose proof (manager_mode_is_result enabled (env (world c)) (manager c)) as Hm.
  unfold LLMClient.setOfflineMode, syncFromManager, mbind, M_bind, bind, get, modify.
  destruct (ModelManager.setOfflineMode enabled (env (world c)) (manager c)) as [r m].
  cbn in *. eexists _, _. by split_and!.
Qed.

Lemma set_offline_mode_run enabled c :
  exists confirmed c' es,
    set_offline_mode enabled c
    = (Returns confirmed, c', es ++ [OfflineModeUpdated TopBar confirmed]) /\
    offlineMode c' = confirmed /\
    MessageStore.messages (messageStore c')
    = MessageStore.messages (messageStore c)
      ++ (if enabled && negb confirmed
          then [{| role := assistant;
                   content := Text (not_up_to_spec (appleUnavailableReason c')) |}]
          else []).
Proof.
  destruct (client_setOfflineMode_result enabled c)
    as (confirmed & c' & Hrun & Hmode & Hstore & _).
  exists confirmed.
  unfold set_offline_mode, mbind, M_bind, bind. rewrite Hrun.
  destruct (enabled && negb confirmed); cbn.
  - rewrite addAssistantMessage_run. cbn. rewrite Hmode.
    eexists _, [_]. cbn. rewrite Hstore. by split_and!.
  - rewrite Hmode. eexists _, []. cbn. rewrite Hstore, app_nil_r. by split_and!.
Qed.

(** X16.  The ["set-offline-mode"] handler.  The value it returns to
    the top bar, the value it broadcasts on ["offline-mode-updated"]
    and the client's mode after the call are the same.  The assistant
    message about the Mac not being up to spec (with the recorded
    reason, if any) is appended exactly when offline mode was requested
    and the client ended up online; nothing else is appended. *)
Theorem set_offline_mode_reports_mode enabled c :
  let r := set_offline_mode enabled c in
  exists confirmed,
    result_of r = Returns confirmed /\
    offlineMode (state_of r) = confirmed /\
    last (trace_of r) = Some (OfflineModeUpdated TopBar confirmed) /\
    MessageStore.messages (messageStore (state_of r))
    = MessageStore.messages (messageStore c)
      ++ (if enabled && negb confirmed
          then [{| role := assistant;
                   content := Text (not_up_to_spec
                                      (appleUnavailableReason (state_of r))) |}]
          else []).
Proof.
  cbv zeta.
  destruct (set_offline_mode_run enabled c) as (confirmed & c' & es & -> & Hm & Hlog).
  exists confirmed. cbn. split_and!; try done. apply last_snoc.
Qed.

(** *** The top bar *)

Section TopBarFacts.
Import TopBar.

(** X17.  The offline indicator of the top bar shows the client's
    mode.  After [toggleOffline], and after the initial load, the
    component's [offline] flag equals the mode of the client in the
    main process; the toggle never raises; and it raises the blink
    flag exactly when it asked for offline mode and the client is not
    in offline mode afterwards. *)
Theorem toggleOffline_shows_mode st :
  let r := toggleOffline st in
  result_of r = Returns tt /\
  offline (state_of r) = offlineMode (main (state_of r)) /\
  offlineBlinkError (state_of r)
  = offlineBlinkError st || (negb (offline st) && negb (offline (state_of r))) /\
  offline (state_of (loadOfflineMode st)) = offlineMode (main (state_of (loadOfflineMode st))).
Proof.
  cbv zeta. split_and!.
  1-3: unfold toggleOffline, invoke, mbind, M_bind, bind, get;
    destruct (set_offline_mode_run (negb (offline st)) (main st))
      as (confirmed & c' & es & -> & Hm & _); cbn;
    destruct (offline st), confirmed; cbn; rewrite ?Hm, ?orb_false_r, ?orb_true_r;
    done.
  unfold loadOfflineMode, invoke, get_offline_mode, mbind, M_bind, bind, gets; cbn.
  done.
Qed.

End TopBarFacts.

(** *** The network monitor *)

Section MonitorFacts.
Import SystemEvents.



End MonitorFacts.

End EventsSpec.

(** ** The QR code of the bridge *)

Module QrSpec.
Import JS Eff EffFacts EffMore Page Frames Orch ModelManager MessageStore.
Import LLMClient LLMClientSpec LLMEvents BridgeQr.

Lemma starts_with_app p s t : starts_with p s = true -> starts_with p (s ++ t) = true.
Proof.
  revert s. induction p as [|a p IH]; intros s; [done|].
  destruct s as [|b s]; cbn; [done|].
  intros [-> Hp]%andb_prop. cbn. by apply IH.
Qed.

Lemma includes_app_l needle s t :
  includes needle s = true -> includes needle (s ++ t) = true.
Proof.
  induction s as [|b s IH]; cbn.
  - rewrite orb_false_r. destruct needle; [|done]. intros _. by destruct t.
  - intros [Hs|Hi]%orb_prop; apply orb_true_intro.
    + left. apply (starts_with_app needle (b :: s) t Hs).
    + right. by apply IH.
Qed.

Lemma includes_app_r needle s t :
  includes needle t = true -> includes needle (s ++ t) = true.
Proof.
  intros Ht. induction s as [|b s IH]; [done|].
  cbn [app includes]. rewrite IH. apply orb_true_r.
Qed.

Lemma qr_message_marked d :
  includes (lit "data:image/png;base64") d = true ->
  includes (lit "data:image/png;base64") (qr_message d) = true.
Proof.
  intros Hd. unfold qr_message. cbn [join].
  do 5 apply includes_app_r. by apply includes_app_l.
Qed.

Lemma split_on_clean sep (s : list N) :
  Forall (fun c => c ≠ sep) s -> split_on sep s = [s].
Proof.
  induction 1 as [|c s Hc _ IH]; [done|].
  cbn. rewrite (proj2 (N.eqb_neq c sep)) by done. by rewrite IH.
Qed.

Lemma trimStart_clean (s : list N) :
  Forall (fun c => is_space c = false) s -> trimStart s = s.
Proof. destruct 1 as [|c s Hc _]; [done|]. cbn. by rewrite Hc. Qed.

Lemma trim_clean (s : list N) :
  Forall (fun c => is_space c = false) s -> trim s = s.
Proof.
  intros Hs. unfold trim. rewrite (trimStart_clean s Hs).
  rewrite trimStart_clean by (by apply Forall_rev). apply rev_involutive.
Qed.

(** X19.  The subprotocol string of the QR code parses back to its
    token.  For a token without comma and white space (as a JWT is),
    the string [blueberry,v1,<token>] that [createBridgeQrDataUrl]
    puts in the payload, sent back as the [sec-websocket-protocol]
    header, makes [authOk] verify exactly that token. *)
Theorem qr_proto_round_trip w token :
  jwt_sign w = Returns token ->
  Forall (fun c => c ≠ 44%N) token ->
  Forall (fun c => is_space c = false) token ->
  exists p,
    qr_payload w = Returns p /\
    Bridge.bearer_token {| Bridge.sec_websocket_protocol := Some (proto p) |} = token.
Proof.
  intros Hsign Hcomma Hspace. unfold qr_payload. rewrite Hsign.
  eexists. split; [reflexivity|]. cbn [proto].
  unfold Bridge.bearer_token, proto_of; cbn [Bridge.sec_websocket_protocol].
  change (lit "blueberry,v1,") with (lit "blueberry" ++ [44%N] ++ lit "v1" ++ [44%N]).
  rewrite <- !app_assoc.
  assert (forall (a rest : list N),
            Forall (fun c => c ≠ 44%N) a ->
            split_on 44 (a ++ 44%N :: rest) = a :: split_on 44 rest) as Hsplit.
  { intros a rest. induction 1 as [|c a Hc _ IH]; [done|].
    cbn. rewrite (proj2 (N.eqb_neq c 44)) by done. by rewrite IH. }
  cbn [app]. rewrite Hsplit by (by vm_compute; repeat constructor).
  rewrite Hsplit by (by vm_compute; repeat constructor).
  rewrite split_on_clean by done. cbn. by apply trim_clean.
Qed.

Lemma qr_proto_round_trip_witness :
  exists p,
    qr_payload MoreFixtures.qr_world = Returns p /\
    Bridge.bearer_token {| Bridge.sec_websocket_protocol := Some (proto p) |}
    = lit "dev-secret.9999".
Proof.
  apply (qr_proto_round_trip MoreFixtures.qr_world (lit "dev-secret.9999")).
  - reflexivity.
  - by vm_compute; repeat constructor.
  - by vm_compute; repeat constructor.
Defined.

Lemma removeQrMessages_run c :
  removeQrMessages c
  = (Returns tt,
     with_store (with_messages (fun _ => filter (fun m => negb (is_qr_message m))
                                           (MessageStore.messages (messageStore c)))
                   (messageStore c)) c,
     [ChatMessagesUpdated (filter (fun m => negb (is_qr_message m))
                             (MessageStore.messages (messageStore c)))]).
Proof. reflexivity. Qed.

Section Removal.
Context `{!Bridge.Jwt}.
Import Bridge Wiring.

(** X20.  The QR prompt lives until a phone connects.  When
    [createBridgeQrDataUrl] succeeded, the ["generate-bridge-qr"]
    handler appends one assistant message that embeds the data URL and
    answers [ok]; otherwise it appends nothing.  For a PNG data URL,
    [removeQrMessages] takes that message out again, together with any
    other assistant text holding an inline PNG and nothing else, and so
    does the next handshake that the bridge admits. *)
Theorem qr_prompt_removed_on_connection qr d c :
  ok qr = true -> dataUrl qr = Some d ->
  includes (lit "data:image/png;base64") d = true ->
  let r := generate_bridge_qr qr c in
  let kept := filter (fun m => negb (is_qr_message m))
                (MessageStore.messages (messageStore c)) in
  result_of r = Returns true /\
  MessageStore.messages (messageStore (state_of r))
  = MessageStore.messages (messageStore c)
    ++ [{| role := assistant; content := Text (qr_message d) |}] /\
  MessageStore.messages (messageStore (state_of (removeQrMessages (state_of r))))
  = kept /\
  (forall ws req (s : Server Client),
     llm s = state_of r ->
     jwt_verify (now s) (bearer_token req) (secret_of s) = true ->
     MessageStore.messages
       (messageStore (llm (state_of (step (Connection ws req) s)))) = kept) /\
  (forall failed, ok failed = false ->
     generate_bridge_qr failed c = (Returns false, c, [])).
Proof.
  intros Hok Hd Hpng. cbv zeta.
  assert (d ≠ []) as Hne by (intros ->; by vm_compute in Hpng).
  assert (generate_bridge_qr qr c
          = (Returns true,
             with_store (with_messages
                           (fun ms => ms ++ [{| role := assistant;
                                                content := Text (qr_message d) |}])
                           (messageStore c)) c,
             [ChatMessagesUpdated
                (MessageStore.messages (messageStore c)
                 ++ [{| role := assistant; content := Text (qr_message d) |}])]))
    as Hrun.
  { unfold generate_bridge_qr. rewrite Hok, Hd. destruct d as [|u d]; [done|].
    unfold mbind, M_bind, bind. by rewrite addAssistantMessage_run. }
  assert (filter (fun m => negb (is_qr_message m))
            (MessageStore.messages (messageStore c)
             ++ [{| role := assistant; content := Text (qr_message d) |}])
          = filter (fun m => negb (is_qr_message m))
              (MessageStore.messages (messageStore c))) as Hfilter.
  { rewrite filter_app, filter_cons, decide_False, app_nil_r; [done|].
    cbn [is_qr_message role content]. rewrite qr_message_marked by done.
    by intros []. }
  rewrite Hrun. split_and!.
  - done.
  - done.
  - unfold state_of at 1. rewrite removeQrMessages_run. exact Hfilter.
  - intros ws req s Hllm Hv.
    destruct (BridgeMore.admitted_connection_run ws req s Hv) as (_ & _ & -> & _).
    cbn [llm_removeQrMessages client_orchestrator]. rewrite Hllm.
    unfold state_of at 1. rewrite removeQrMessages_run. exact Hfilter.
  - intros failed Hf. unfold generate_bridge_qr. by rewrite Hf.
Qed.

End Removal.

Import Bridge Wiring.
#[local] Existing Instance Fixtures.fixture_jwt.

Lemma qr_prompt_removed_on_connection_witness :
  let qr := createBridgeQrDataUrl MoreFixtures.qr_world in
  let d := lit "data:image/png;base64,iVBORw0KGgo=" in
  let c := Fixtures.client_of Fixtures.env_online [] in
  let r := generate_bridge_qr qr c in
  let kept := filter (fun m => negb (is_qr_message m))
                (MessageStore.messages (messageStore c)) in
  result_of r = Returns true /\
  MessageStore.messages (messageStore (state_of r))
  = MessageStore.messages (messageStore c)
    ++ [{| role := assistant; content := Text (qr_message d) |}] /\
  MessageStore.messages (messageStore (state_of (removeQrMessages (state_of r))))
  = kept /\
  (forall ws req (s : Server Client),
     llm s = state_of r ->
     jwt_verify (now s) (bearer_token req) (secret_of s) = true ->
     MessageStore.messages
       (messageStore (llm (state_of (step (Connection ws req) s)))) = kept) /\
  (forall failed, ok failed = false ->
     generate_bridge_qr failed c = (Returns false, c, [])).
Proof.
  apply (@qr_prompt_removed_on_connection Fixtures.fixture_jwt
           (createBridgeQrDataUrl MoreFixtures.qr_world)
           (lit "data:image/png;base64,iVBORw0KGgo=")
           (Fixtures.client_of Fixtures.env_online [])); reflexivity.
Defined.

End QrSpec.

(** ** The orchestrator, continued *)

Module LLMClientMore.
Import JS Eff EffFacts EffMore Page Frames Orch ModelManager MessageStore Streamer Regex.
Import LLMClient LLMClientSpec Fixtures.

Lemma last_user_text_skip later rest :
  Forall (fun m => role m ≠ user) later ->
  last_user_text (later ++ rest) = last_user_text rest.
Proof.
  induction 1 as [|m later Hm _ IH]; [done|].
  cbn. by destruct (role m).
Qed.

(** X21.  [extractLastUserText] returns the text of the most recent
    user message: messages of other roles after it are skipped and
    earlier messages are never looked at.  For a user message whose
    content is an array, the text is that of its first text part, or
    empty if it has none. *)
Theorem extractLastUserText_last_user c earlier m later :
  MessageStore.messages (messageStore c) = earlier ++ m :: later ->
  role m = user ->
  Forall (fun m' => role m' ≠ user) later ->
  extractLastUserText c
  = match content m with
    | Text s => s
    | Parts ps => first_text_part ps
    end.
Proof.
  intros Hlog Hm Hlater. unfold extractLastUserText.
  rewrite Hlog, rev_app_distr. cbn [rev]. rewrite <- app_assoc.
  rewrite last_user_text_skip by (by apply Forall_rev).
  cbn. by rewrite Hm.
Qed.

Lemma extractLastUserText_last_user_witness :
  extractLastUserText
    (state_of (sendChatMessage what_page_request (client_of env_online [])))
  = lit "What page am I on?".
Proof.
  apply (extractLastUserText_last_user
           (state_of (sendChatMessage what_page_request (client_of env_online [])))
           []
           {| role := user; content := Text (lit "What page am I on?") |}
           [{| role := assistant; content := Text example_reply |}]).
  - by vm_compute.
  - reflexivity.
  - by repeat constructor.
Defined.

Lemma openUrlAndSummarize_run u c w :
  window c = Some w ->
  let r := openUrlAndSummarize u c in
  Forall LLMClientTerms.calls_no_model (trace_of r) /\
  result_of r = Returns tt /\
  match createTab (world c) u with
  | Returns tab =>
      MessageStore.messages (messageStore (state_of r))
      = MessageStore.messages (messageStore c) /\
      MessageStoreTerms.renderer_updates (trace_of r)
      = [MessageStore.messages (messageStore c)] /\
      window (state_of r) = Some {| activeTab := Some tab |} /\
      exists text,
        messages (state_of r)
        = messages c ++ [{| role := assistant; content := Text text |}]
        /\ starts_with (lit "Opened " ++ u) text = true
  | Throws _ =>
      MessageStore.messages (messageStore (state_of r))
      = MessageStore.messages (messageStore c)
        ++ [{| role := assistant; content := Text (lit "Failed to open " ++ u) |}]
  end.
Proof.
  intros Hw. cbv zeta.
  assert (forall (a b : list N), starts_with a (a ++ b) = true) as Hsw.
  { induction a as [|x a IH]; intros b; [done|]. cbn. by rewrite N.eqb_refl, IH. }
  assert (forall (a : list N) l, exists b, join [10%N] (a :: l) = a ++ b) as Hjoin.
  { intros a [|a' l]; cbn; [exists []; by rewrite app_nil_r|by eexists]. }
  unfold openUrlAndSummarize, try_catch, inspect, inspector_of,
    sendMessagesToRenderer, addAssistantMessage, on_store, toBridge, setAll, getAll,
    addAssistant, push, emitToRenderer, when.
  unfold mbind, M_bind, bind, gets, get, modify, emit, lift_outcome. cbn.
  rewrite Hw. cbn. rewrite Hw. unfold Page.openUrlAndGetInfo.
  destruct (createTab (world c) u) as [tab|e]; cbn; [|split; [by repeat constructor|done]].
  match goal with
  | |- context [join (lit " ") (take 80 ?l)] =>
      set (sm := join (lit " ") (take 80 l))
  end.
  unfold mret, M_ret, ret.
  destruct (bridgeEmitter c) eqn:Hbe, (nonempty sm) eqn:Hsm; cbn; rewrite ?Hbe; cbn.
  all: (split; [by repeat constructor|]).
  all: (split; [done|]); (split; [done|]); (split; [done|]); (split; [done|]).
  all: rewrite decide_True by (by vm_compute).
  all: match goal with
       | |- context [join _ (?a :: ?l)] =>
           destruct (Hjoin a l) as [b Hb]; exists (a ++ b)
       end.
  all: change (lit (String (ascii_of_nat 10) EmptyString)) with [10%N].
  all: rewrite Hb; split; [done|apply Hsw].
Qed.


(** X22.  [openUrlAndSummarize] and the conversation log.  With a
    window set, the call never raises.  When the tab can be created,
    the new tab becomes the active one and the summary message
    ("Opened <url>", the title, the summary) is pushed onto the
    client's own [messages] array; the log of the message store, which
    is what the renderer is sent, is left as it is, and the renderer is
    sent that unchanged log once.  When creating the tab raises, the
    log gains the assistant message "Failed to open <url>". *)
Theorem openUrlAndSummarize_log u c w :
  window c = Some w ->
  let r := openUrlAndSummarize u c in
  result_of r = Returns tt /\
  match createTab (world c) u with
  | Returns tab =>
      MessageStore.messages (messageStore (state_of r))
      = MessageStore.messages (messageStore c) /\
      MessageStoreTerms.renderer_updates (trace_of r)
      = [MessageStore.messages (messageStore c)] /\
      window (state_of r) = Some {| activeTab := Some tab |} /\
      exists text,
        messages (state_of r)
        = messages c ++ [{| role := assistant; content := Text text |}]
        /\ starts_with (lit "Opened " ++ u) text = true
  | Throws _ =>
      MessageStore.messages (messageStore (state_of r))
      = MessageStore.messages (messageStore c)
        ++ [{| role := assistant; content := Text (lit "Failed to open " ++ u) |}]
  end.
Proof.
  intros Hw. exact (proj2 (openUrlAndSummarize_run u c w Hw)).
Qed.

Lemma openUrlAndSummarize_log_witness :
  let c := client_of env_online [] in
  let r := openUrlAndSummarize (lit "https://example.com") c in
  result_of r = Returns tt /\
  MessageStore.messages (messageStore (state_of r))
  = MessageStore.messages (messageStore c) /\
  MessageStoreTerms.renderer_updates (trace_of r)
  = [MessageStore.messages (messageStore c)] /\
  window (state_of r) = Some {| activeTab := Some example_tab |} /\
  exists text,
    messages (state_of r)
    = messages c ++ [{| role := assistant; content := Text text |}]
    /\ starts_with (lit "Opened " ++ lit "https://example.com") text = true.
Proof.
  apply (openUrlAndSummarize_log (lit "https://example.com")
           (client_of env_online []) {| activeTab := Some example_tab |}).
  reflexivity.
Defined.

(** X23.  The navigation shortcut of the on-device provider.  On the
    Apple provider with a usable model, a message that holds a URL and
    one of the words open, visit, go to, navigate is not sent to the
    model: the turn opens the URL through [openUrlAndSummarize], with
    no generation call and no tool run, and never raises.  As that
    method writes its summary to the client's own array, the log that
    the renderer shows ends with the user's message: the turn leaves no
    assistant message there, unless opening the tab failed. *)
Theorem apple_navigation_shortcut request c w m u :
  provider c = Apple -> model c = Some m -> appleAvailable c = true ->
  window c = Some w ->
  detectWhatPageQuestion (message request) = false ->
  exec true url_pattern (message request) = Some u ->
  test true wants_open_pattern (message request) = true ->
  let r := sendChatMessage request c in
  let asked := {| role := user; content := Text (message request) |} in
  result_of r = Returns tt /\
  Forall LLMClientTerms.calls_no_model (trace_of r) /\
  match createTab (world c) u with
  | Returns tab =>
      MessageStore.messages (messageStore (state_of r))
      = MessageStore.messages (messageStore c) ++ [asked] /\
      window (state_of r) = Some {| activeTab := Some tab |}
  | Throws _ =>
      MessageStore.messages (messageStore (state_of r))
      = MessageStore.messages (messageStore c)
        ++ [asked; {| role := assistant;
                      content := Text (lit "Failed to open " ++ u) |}]
  end.
Proof.
  intros Hp Hm Hav Hw Hdet Hurl Hopen. cbv zeta.
  unfold sendChatMessage, try_catch, sendChatMessage_body, mbind, M_bind, bind.
  rewrite addUser_run, toBridge_run.
  set (c1 := with_store _ c).
  assert (preflight c1 = (Returns tt, c1, [])) as ->.
  { unfold preflight, mbind, M_bind, bind, get.
    change (provider c1) with (provider c). by rewrite Hp. }
  unfold get, has_model.
  change (provider c1) with (provider c). change (model c1) with (model c).
  change (appleAvailable c1) with (appleAvailable c).
  rewrite Hp, Hm, Hav, Hdet. cbn [is_apple negb orb andb].
  unfold answer_with_model, mbind, M_bind, bind, get, has_model.
  change (provider c1) with (provider c). change (model c1) with (model c).
  rewrite Hp, Hm. cbn [is_apple negb].
  assert (extractLastUserText c1 = message request) as ->.
  { unfold extractLastUserText. cbn. by rewrite rev_app_distr. }
  rewrite Hurl, Hopen.
  destruct (openUrlAndSummarize_run u c1 w Hw) as (Hq & Hr & Hlog).
  change (world c1) with (world c) in Hlog.
  unfold result_of, state_of, trace_of in *.
  destruct (openUrlAndSummarize u c1) as [[r c2] es]. cbn in *. subst r. cbn.
  split; [done|]. split.
  - constructor; [done|]. apply Forall_app. split; [|done].
    destruct (bridgeEmitter c); by repeat constructor.
  - destruct (createTab (world c) u) as [tab|e].
    + destruct Hlog as (Hl & _ & Hwin & _). by rewrite Hl.
    + rewrite Hlog. by rewrite <- app_assoc.
Qed.

Lemma apple_navigation_shortcut_witness :
  let c := client_of env_apple_with_key [] in
  let r := sendChatMessage MoreFixtures.open_request c in
  let asked := {| role := user; content := Text (message MoreFixtures.open_request) |} in
  result_of r = Returns tt /\
  Forall LLMClientTerms.calls_no_model (trace_of r) /\
  MessageStore.messages (messageStore (state_of r))
  = MessageStore.messages (messageStore c) ++ [asked] /\
  window (state_of r) = Some {| activeTab := Some example_tab |}.
Proof.
  apply (apple_navigation_shortcut MoreFixtures.open_request
           (client_of env_apple_with_key []) {| activeTab := Some example_tab |}
           AppleModel (lit "https://example.com")).
  all: by vm_compute.
Defined.

Lemma manager_unconfigured e st :
  ModelManager.offlineMode st = false ->
  apple_unavailable e st ->
  nonempty (env_or (ModelManager.getApiKey e (ModelManager.baseOnlineProvider st)) [])
  = false ->
  let r := ModelManager.setOfflineMode true e st in
  r.1 = false /\
  ModelManager.provider r.2 = Online (ModelManager.baseOnlineProvider st) /\
  ModelManager.model r.2 = None.
Proof.
  intros Hoff Hun Hkey. cbv zeta.
  destruct (ModelManagerSpec.switch_to_apple_unavailable e st Hun) as (Hm & Hb & _).
  unfold ModelManager.setOfflineMode. rewrite Hoff. cbn [Bool.eqb].
  rewrite Hm. cbn [fst snd]. rewrite Hb.
  split; [done|].
  destruct (ModelManagerSpec.switch_to_frame
              (Online (ModelManager.baseOnlineProvider st)) e (switch_to Apple e st))
    as (Hp & Hb').
  split; [by destruct (switch_to _ e (switch_to Apple e st))|].
  unfold switch_to at 1, initializeModel. cbn. rewrite Hb.
  destruct (ModelManager.getApiKey e (ModelManager.baseOnlineProvider st))
    as [[|k ks]|]; try done.
Qed.

(** X24.  A turn without any usable model.  On a client that is on an
    online provider with no API key, on a machine where the on-device
    provider cannot be brought up, a message that is not the "what
    page" question is recorded in the log and answered with the
    configuration notice as one complete stream chunk.  The client
    tries the on-device provider and returns to the online one; it
    calls no provider, runs no tool, and adds nothing else to the
    log. *)
Theorem unconfigured_turn request c :
  in_sync c ->
  is_apple (provider c) = false ->
  nonempty (env_or (getApiKey c) []) = false ->
  apple_unavailable (env (world c)) (manager c) ->
  detectWhatPageQuestion (message request) = false ->
  let r := sendChatMessage request c in
  let log := MessageStore.messages (messageStore c)
             ++ [{| role := user; content := Text (message request) |}] in
  result_of r = Returns tt /\
  MessageStore.messages (messageStore (state_of r)) = log /\
  provider (state_of r) = Online (baseOnlineProvider c) /\
  model (state_of r) = None /\
  trace_of r
  = ChatMessagesUpdated log
    :: (if bridgeEmitter c then [ToBridge (EmitChat User (message request))] else [])
    ++ [ChatResponse (messageId request)
          (lit "LLM service is not configured. Please add your API key to the .env file.")
          true].
Proof.
  intros Hsync Hna Hkey Hun Hdet. cbv zeta.
  pose proof (not_apple_offline c Hsync Hna) as Hoff.
  destruct Hsync as (Hp & Hm & Hb & Hco).
  unfold getApiKey in Hkey. rewrite <- Hb in Hkey.
  destruct (manager_unconfigured (env (world c)) (manager c) Hoff Hun Hkey)
    as (Hr1 & Hr2 & Hr3).
  unfold sendChatMessage, try_catch, sendChatMessage_body, mbind, M_bind, bind.
  rewrite addUser_run, toBridge_run.
  set (c1 := with_store _ c).
  destruct (setOfflineMode_run true c1)
    as (c2 & Hrun & Hman & Hp2 & Hm2 & Hav2 & Hst2 & Hw2 & Hwo2 & Hbr2 & _).
  change (manager c1) with (manager c) in *.
  change (world c1) with (world c) in *.
  rewrite Hr1 in Hrun. rewrite Hr2 in Hp2. rewrite Hr3 in Hm2.
  assert (preflight c1 = (Returns tt, c2, [])) as ->.
  { unfold preflight, mbind, M_bind, bind, get.
    change (provider c1) with (provider c). rewrite Hna.
    unfold getApiKey. change (baseOnlineProvider c1) with (baseOnlineProvider c).
    change (world c1) with (world c). rewrite <- Hb, Hkey. cbn [negb orb].
    by rewrite Hrun. }
  unfold get. rewrite Hp2. cbn [is_apple andb]. rewrite Hdet.
  unfold answer_with_model, mbind, M_bind, bind, get, has_model.
  rewrite Hm2, Hp2. cbn. rewrite ?Hst2, ?Hp2, ?Hm2, ?Hb. by split_and!.
Qed.

Lemma unconfigured_turn_witness :
  let c := client_of MoreFixtures.env_unconfigured [] in
  let r := sendChatMessage hello_request c in
  let log := MessageStore.messages (messageStore c)
             ++ [{| role := user; content := Text (message hello_request) |}] in
  result_of r = Returns tt /\
  MessageStore.messages (messageStore (state_of r)) = log /\
  provider (state_of r) = Online (baseOnlineProvider c) /\
  model (state_of r) = None /\
  trace_of r
  = ChatMessagesUpdated log
    :: (if bridgeEmitter c then [ToBridge (EmitChat User (message hello_request))]
        else [])
    ++ [ChatResponse (messageId hello_request)
          (lit "LLM service is not configured. Please add your API key to the .env file.")
          true].
Proof.
  apply (unconfigured_turn hello_request (client_of MoreFixtures.env_unconfigured [])).
  - repeat split; by vm_compute.
  - reflexivity.
  - reflexivity.
  - left. reflexivity.
  - by vm_compute.
Defined.

(** *** What a turn does to the log *)

Create HintDb history_db.

Ltac hist_step :=
  first
    [ solve [auto with history_db nocore]
    | apply keeps_ret | apply keeps_throw | apply keeps_lift | apply keeps_get
    | apply keeps_gets | (apply keeps_emit; done) | apply keeps_when
    | (apply keeps_bind; [|intros ?]) | (apply keeps_try_catch; [|intros ?])
    | (apply keeps_for_each; intros ?)
    | match goal with
      | |- keeps _ _ (if ?b then _ else _) => destruct b
      | |- keeps _ _ (match ?x with _ => _ end) => destruct x
      end ].

Ltac hist_auto := repeat hist_step; try done; eauto with history_db.

Import LLMClientTerms.

Lemma any_effect_all (es : list effect) : Forall any_effect es.
Proof. by apply Forall_true. Qed.

(** Whatever holds of the message store is kept by the parts of a turn
    that do not call into the store. *)
Section Store.
Context (R : Store -> Prop).

Lemma hist_shell (f : Client -> Client) :
  (forall c, messageStore (f c) = messageStore c) ->
  keeps (on_log R) any_effect (modify f).
Proof.
  intros Hf. apply keeps_modify. intros c HP. unfold on_log. by rewrite Hf.
Qed.

Lemma hist_toBridge e : keeps (on_log R) any_effect (toBridge e).
Proof.
  intros c HP. rewrite toBridge_run. split; [done|apply any_effect_all].
Qed.
Hint Resolve hist_toBridge : history_db.

Lemma hist_setOfflineMode enabled : keeps (on_log R) any_effect (setOfflineMode enabled).
Proof.
  intros c HP.
  destruct (setOfflineMode_run enabled c) as (c' & Hrun & _ & _ & _ & _ & Hst & _).
  rewrite Hrun. cbn. split; [|done]. unfold on_log in *. by rewrite Hst.
Qed.
Hint Resolve hist_setOfflineMode : history_db.

Lemma hist_broadcastOfflineMode b :
  keeps (on_log R) any_effect (broadcastOfflineMode b).
Proof. unfold broadcastOfflineMode. hist_auto. Qed.
Hint Resolve hist_broadcastOfflineMode : history_db.

Lemma hist_preflight : keeps (on_log R) any_effect preflight.
Proof. unfold preflight. hist_auto. Qed.

Lemma hist_inspect op : keeps (on_log R) any_effect (inspect op).
Proof.
  unfold inspect. hist_auto.
  all: apply hist_shell; intros c.
  all: by destruct (window c), (createTab (world c) u).
Qed.
Hint Resolve hist_inspect : history_db.

Lemma hist_perform a : keeps (on_log R) any_effect (perform a).
Proof. destruct a; cbn [perform]; hist_auto; by apply hist_shell. Qed.
Hint Resolve hist_perform : history_db.

Lemma hist_run_tool b i : keeps (on_log R) any_effect (run_tool b i).
Proof. unfold run_tool. hist_auto. Qed.

Lemma hist_next_generation : keeps (on_log R) any_effect next_generation.
Proof.
  unfold next_generation. apply keeps_get_bind. intros c HP.
  destruct (pending (world c)); hist_auto.
Qed.

Lemma hist_sendErrorMessage mid text :
  keeps (on_log R) any_effect (sendErrorMessage mid text).
Proof. by apply keeps_emit. Qed.

Lemma hist_on_store {A} (m : M Store effect A) :
  keeps R any_effect m -> keeps (on_log R) any_effect (on_store m).
Proof.
  intros Hm c HP. rewrite on_store_run. destruct (Hm (messageStore c) HP) as [HR HQ].
  split; [|done]. exact HR.
Qed.

End Store.

#[local] Hint Resolve hist_toBridge hist_setOfflineMode hist_broadcastOfflineMode
  hist_preflight hist_inspect hist_perform hist_run_tool hist_next_generation
  hist_sendErrorMessage : history_db.

Section History.
Context (old : list CoreMessage).

Lemma kept_index i : keeps (kept old) any_effect (modify (with_streamingIndex i)).
Proof. by apply keeps_modify. Qed.
Hint Resolve kept_index : history_db.

Lemma kept_push m : keeps (kept old) any_effect (push m).
Proof. apply keeps_modify. intros st HP. by apply prefix_app_r. Qed.
Hint Resolve kept_push : history_db.

Lemma kept_emitToRenderer : keeps (kept old) any_effect emitToRenderer.
Proof. unfold emitToRenderer. hist_auto. Qed.
Hint Resolve kept_emitToRenderer : history_db.

Lemma kept_bridgeSafeChat t : keeps (kept old) any_effect (bridgeSafeChat t).
Proof. unfold bridgeSafeChat. hist_auto. Qed.
Hint Resolve kept_bridgeSafeChat : history_db.

Lemma kept_beginStream t : keeps (kept old) any_effect (beginStream t).
Proof. unfold beginStream. hist_auto. Qed.

Lemma kept_addAssistant t : keeps (kept old) any_effect (addAssistant t).
Proof. unfold addAssistant. hist_auto. Qed.

Lemma kept_consume_end l : keeps (kept old) any_effect (consume_end l).
Proof. unfold consume_end, endStream. hist_auto. Qed.

Lemma kept_resend : keeps (kept old) any_effect (ms ← getAll; setAll ms).
Proof. intros [ms i b] HP. split; [exact HP|apply any_effect_all]. Qed.

Lemma hist_addAssistantMessage t :
  keeps (on_log (kept old)) any_effect (addAssistantMessage t).
Proof. apply hist_on_store, kept_addAssistant. Qed.
Hint Resolve hist_addAssistantMessage : history_db.

Lemma hist_sendMessagesToRenderer :
  keeps (on_log (kept old)) any_effect sendMessagesToRenderer.
Proof. apply hist_on_store, kept_resend. Qed.
Hint Resolve hist_sendMessagesToRenderer : history_db.

(** One iteration of the loop of [consume]: the first chunk opens a
    slot at the end of the log, a later one writes to that slot. *)
Lemma consume_chunk_behind chunk l st :
  streaming_behind old l st ->
  let r := consume_chunk chunk l st in
  kept old (state_of r) /\
  forall l', result_of r = Returns l' -> streaming_behind old l' (state_of r).
Proof.
  intros [Hk Hs]. cbv zeta. unfold consume_chunk.
  destruct (nonempty chunk); cbn [negb];
    [|cbn; split; [done|]; intros l' [= <-]; by split].
  assert (forall t,
            let r := (beginStream t;; mret {| finalText := finalText l ++ chunk;
                                              first := false |}) st in
            kept old (state_of r) /\
            forall l', result_of r = Returns l' ->
                       streaming_behind old l' (state_of r)) as Hbegin.
  { intros t. cbv zeta.
    destruct (MessageStoreSpec.beginStream_run t st) as (s' & es & Hrun & [Hm Hi] & _).
    unfold mbind, M_bind, bind. rewrite Hrun. cbn.
    assert (kept old s') as Hk'
      by (unfold kept; rewrite Hm; by apply prefix_app_r).
    split; [done|]. intros l' [= <-]. split; [done|].
    intros _ i. rewrite Hi. intros [= <-]. by apply prefix_length. }
  destruct (first l) eqn:Hf; [apply Hbegin|].
  destruct (streamingIndex st) as [i|] eqn:Hi.
  - specialize (Hs eq_refl i Hi).
    destruct (MessageStore.messages st !! i) as [m|] eqn:Hm.
    + unfold appendStream, emitToRenderer, bridgeSafeChat, mbind, M_bind, bind,
        get, modify, emit, when; cbn. rewrite Hi, Hm. cbn.
      assert (old `prefix_of`
                <[i:={| role := assistant;
                        content := Text (content_String (content m) ++ chunk) |}]>
                  (MessageStore.messages st)) as Hk'.
      { destruct Hk as [k ->]. rewrite insert_app_r_alt by done.
        by apply prefix_app_r. }
      destruct (bridge st); cbn.
      all: split; [done|].
      all: intros l' [= <-]; split; [done|].
      all: intros _ j Hj; cbn in Hj; congruence.
    + unfold appendStream, mbind, M_bind, bind, get; cbn. rewrite Hi, Hm. cbn.
      by split.
  - assert (appendStream chunk st = beginStream chunk st) as Happ
      by (unfold appendStream, mbind, M_bind, bind, get; cbn -[beginStream];
          rewrite Hi; by destruct (beginStream chunk st) as [[r s'] es]).
    pose proof (Hbegin chunk) as Hb. cbv zeta in Hb.
    unfold mbind, M_bind, bind in Hb |- *. by rewrite Happ.
Qed.

(** A generation call never writes before the end of the log as it
    was when the call began. *)
Lemma play_behind tools acts l c :
  streaming_behind old l (messageStore c) ->
  kept old (messageStore (state_of (play tools acts l c))).
Proof.
  revert l c. induction acts as [|[chunk|i] acts IH]; intros l c Hinv; cbn [play].
  - apply Hinv.
  - unfold mbind, M_bind, bind. rewrite on_store_run.
    destruct (consume_chunk_behind chunk l (messageStore c) Hinv) as [Hk Hl].
    unfold state_of, result_of in Hk, Hl.
    destruct (consume_chunk chunk l (messageStore c)) as [[[l'|e] st'] es]; cbn in *.
    + specialize (IH l' (with_store st' c) (Hl l' eq_refl)).
      unfold state_of in *.
      by destruct (play tools acts l' (with_store st' c)) as [[r c2] es2].
    + done.
  - assert (keeps (on_log (streaming_behind old l)) any_effect
              (match tools with Some b => run_tool b i | None => mret tt end)) as Hk
      by (destruct tools; [apply hist_run_tool|apply keeps_ret]).
    destruct (Hk c Hinv) as [Hinv' _].
    unfold mbind, M_bind, bind, state_of in *.
    destruct (match tools with Some b => run_tool b i | None => mret tt end c)
      as [[[[]|e] c1] es1]; cbn in *.
    + specialize (IH l c1 Hinv'). unfold state_of in IH.
      by destruct (play tools acts l c1) as [[r c2] es2].
    + apply Hinv'.
Qed.

Lemma hist_play tools acts :
  keeps (on_log (kept old)) any_effect (play tools acts start).
Proof.
  intros c HP. split; [|apply any_effect_all].
  apply play_behind. by split.
Qed.
Hint Resolve hist_play : history_db.

Lemma hist_consume_end l : keeps (on_log (kept old)) any_effect (on_store (consume_end l)).
Proof. apply hist_on_store, kept_consume_end. Qed.
Hint Resolve hist_consume_end : history_db.

Lemma hist_generate site tools :
  keeps (on_log (kept old)) any_effect (generate site tools).
Proof. unfold generate, run_generation. hist_auto. Qed.
Hint Resolve hist_generate : history_db.

Lemma hist_openUrlAndSummarize u :
  keeps (on_log (kept old)) any_effect (openUrlAndSummarize u).
Proof. unfold openUrlAndSummarize. hist_auto; by apply hist_shell. Qed.
Hint Resolve hist_openUrlAndSummarize : history_db.

Lemma hist_converse : keeps (on_log (kept old)) any_effect converse.
Proof. unfold converse. hist_auto; by apply hist_shell. Qed.
Hint Resolve hist_converse : history_db.

Lemma hist_answer_with_model request :
  keeps (on_log (kept old)) any_effect (answer_with_model request).
Proof. unfold answer_with_model. hist_auto. Qed.
Hint Resolve hist_answer_with_model : history_db.

Lemma hist_handleStreamError e mid :
  keeps (on_log (kept old)) any_effect (handleStreamError e mid).
Proof. unfold handleStreamError. hist_auto; by apply hist_shell. Qed.

(** The turn from the echo of the user's message on. *)
Lemma hist_turn request (k : unit -> M Client effect unit) :
  (forall u, k u = (toBridge (EmitChat User (message request));;
                    preflight;;
                    c ← get;
                    if is_apple (provider c)
                       && (negb (has_model c) || negb (appleAvailable c))
                    then
                      addAssistantMessage apple_unavailable_text;;
                      sendErrorMessage (messageId request) apple_unavailable_text
                    else if detectWhatPageQuestion (message request) then
                      answered ←
                        try_catch
                          (let reply := page_reply c in
                           addAssistantMessage reply;;
                           toBridge (EmitChat Assistant reply);;
                           mret true)
                          (fun _ => mret false);
                      if answered : bool then mret tt else answer_with_model request
                    else answer_with_model request)) ->
  keeps (on_log (kept old)) any_effect
    (try_catch (k tt) (fun e => handleStreamError e (messageId request))).
Proof.
  intros ->. apply keeps_try_catch; [|intros e; apply hist_handleStreamError].
  hist_auto.
Qed.

End History.

Lemma state_try_catch_bind {A B} (m : M Client effect A) (k : A -> M Client effect B)
    (h : thrown -> M Client effect B) c a c1 es1 :
  m c = (Returns a, c1, es1) ->
  state_of (try_catch (bind m k) h c) = state_of (try_catch (k a) h c1).
Proof.
  intros Hm. unfold try_catch, bind, state_of. rewrite Hm.
  destruct (k a c1) as [[[b|e] c2] es2]; cbn; [done|].
  by destruct (h e c2) as [[r c3] es3].
Qed.

(** X25.  A turn only appends to the log.  Whatever the providers and
    tools do during [sendChatMessage] (chunks, tool calls, a rejection,
    the locale retry), and whatever state an earlier turn left the
    streaming slot in, the log after the turn begins with the log as it
    was before, followed by the user's message: no earlier message is
    dropped or rewritten. *)
Theorem turn_only_appends request c :
  (MessageStore.messages (messageStore c)
   ++ [{| role := user; content := Text (message request) |}])
  `prefix_of`
  MessageStore.messages (messageStore (state_of (sendChatMessage request c))).
Proof.
  unfold sendChatMessage, sendChatMessage_body.
  unfold mbind at 1, M_bind at 1.
  rewrite (state_try_catch_bind _ _ _ c tt _ _ (addUser_run _ c)).
  set (old := MessageStore.messages (messageStore c) ++ _).
  set (c1 := with_store _ c).
  apply (hist_turn old request (fun _ => _) (fun _ => eq_refl) c1).
  unfold on_log, kept. done.
Qed.

End LLMClientMore.

(** ** Text patterns of the orchestrator *)

Module TextMore.
Import JS Regex TextTerms Orch LLMClient.

Lemma match_word_fold w prev s :
  if starts_fold w s
  then exists y, match_seq true (map Chr w) (prev, s) = [y]
  else match_seq true (map Chr w) (prev, s) = [].
Proof.
  revert prev s. induction w as [|c w IH]; intros prev s; cbn.
  - by eexists.
  - destruct s as [|d s']; cbn; [done|].
    destruct (fold_ascii c =? fold_ascii d)%N; cbn; [|done].
    rewrite app_nil_r. apply IH.
Qed.

Lemma match_alt_fold ws prev s :
  match_alt true (map (map Chr) ws) (prev, s) = []
  <-> existsb (fun w => starts_fold w s) ws = false.
Proof.
  unfold match_alt. induction ws as [|w ws IH]; cbn; [done|].
  pose proof (match_word_fold w prev s) as Hw.
  destruct (starts_fold w s); cbn.
  - destruct Hw as [y ->]. done.
  - rewrite Hw. apply IH.
Qed.

Lemma existsb_includes_fold ws s :
  existsb (fun w => includes_fold w s) ws
  = existsb (fun w => starts_fold w s) ws
    || match s with
       | [] => false
       | _ :: s' => existsb (fun w => includes_fold w s') ws
       end.
Proof.
  induction ws as [|w ws IH]; [by destruct s|].
  cbn [existsb]. rewrite IH. destruct s as [|d s']; cbn [includes_fold].
  - by destruct (starts_fold w []), (existsb _ ws).
  - by destruct (starts_fold w (d :: s')), (includes_fold w s'),
         (existsb (fun w => starts_fold w (d :: s')) ws).
Qed.

Lemma test_fold ws prev s :
  match exec_from true (map (map Chr) ws) prev s with
  | Some _ => true
  | None => false
  end
  = existsb (fun w => includes_fold w s) ws.
Proof.
  revert prev. induction s as [|d s IH]; intros prev;
    rewrite existsb_includes_fold; cbn [exec_from];
    pose proof (match_alt_fold ws prev) as Hm.
  - specialize (Hm []).
    destruct (match_alt true (map (map Chr) ws) (prev, [])) as [|[q rest] l];
      destruct (existsb (fun w => starts_fold w []) ws); try done.
    + discriminate (proj1 Hm eq_refl).
    + discriminate (proj2 Hm eq_refl).
  - specialize (Hm (d :: s)).
    destruct (match_alt true (map (map Chr) ws) (prev, d :: s)) as [|[q rest] l];
      destruct (existsb (fun w => starts_fold w (d :: s)) ws); cbn [orb].
    + discriminate (proj1 Hm eq_refl).
    + apply IH.
    + done.
    + discriminate (proj2 Hm eq_refl).
Qed.

Lemma plain_facts c :
  plain c = true ->
  (c < 128)%N /\ ~ (65 <= c <= 90)%N /\ c <> 105%N /\ c <> 107%N.
Proof.
  unfold plain. intros H.
  apply andb_prop in H as [H H4]. apply andb_prop in H as [H H3].
  apply andb_prop in H as [H1 H2].
  apply N.ltb_lt in H1. apply negb_true_iff in H2, H3, H4.
  apply N.eqb_neq in H3, H4. apply andb_false_iff in H2.
  split_and!; try done. intros [Ha Hb].
  destruct H2 as [H2|H2]; apply N.leb_gt in H2; lia.
Qed.

Lemma starts_with_lower w s :
  forallb plain w = true ->
  starts_with w (toLowerCase s) = starts_fold w s.
Proof.
  revert s. induction w as [|c w IH]; intros s Hw; [done|].
  cbn in Hw. apply andb_prop in Hw as [Hc Hw].
  destruct (plain_facts c Hc) as (H1 & H2 & H3 & H4).
  destruct s as [|d s]; [done|].
  change (toLowerCase (d :: s)) with (lower_unit d ++ toLowerCase s).
  cbn [starts_fold]. rewrite <- (IH s Hw).
  unfold lower_unit, same_unit, fold_ascii.
  assert ((65 <=? c)%N && (c <=? 90)%N = false) as ->.
  { apply andb_false_iff.
    destruct (N.leb_spec 65 c), (N.leb_spec c 90); auto. lia. }
  assert (forall x, x <> c -> (c =? x)%N = false) as Hne
    by (intros x Hx; apply N.eqb_neq; congruence).
  destruct (N.leb_spec 65 d), (N.leb_spec d 90); cbn [andb]; try done.
  all: destruct ((192 <=? d)%N && (d <=? 222)%N && negb (d =? 215)%N) eqn:Hl;
    [ apply andb_prop in Hl as [Hl _]; apply andb_prop in Hl as [Hl _];
      apply N.leb_le in Hl; cbn; rewrite !Hne by lia; done |].
  all: destruct (N.eqb_spec d 304) as [->|_];
    [cbn; rewrite !Hne by lia; done|].
  all: destruct (N.eqb_spec d 8490) as [->|_];
    [cbn; rewrite !Hne by lia; done|].
  all: done.
Qed.

Lemma lower_unit_shape d :
  (exists x, lower_unit d = [x]) \/ lower_unit d = [105%N; 775%N].
Proof.
  unfold lower_unit. repeat case_match; eauto.
Qed.

Lemma includes_lower w s :
  nonempty w = true ->
  forallb plain w = true ->
  includes w (toLowerCase s) = includes_fold w s.
Proof.
  destruct w as [|c w]; [done|].
  intros _ Hw. induction s as [|d s IH]; [done|].
  pose proof (starts_with_lower (c :: w) (d :: s) Hw) as Hs.
  change (toLowerCase (d :: s)) with (lower_unit d ++ toLowerCase s) in *.
  cbn [includes_fold]. rewrite <- Hs, <- IH.
  destruct (lower_unit_shape d) as [[x ->]| ->]; [done|].
  cbn [app includes].
  cbn in Hw. apply andb_prop in Hw as [Hc _].
  destruct (plain_facts c Hc) as (H1 & _).
  assert (starts_with (c :: w) (775%N :: toLowerCase s) = false) as ->; [|done].
  cbn. rewrite (proj2 (N.eqb_neq c 775)) by lia. done.
Qed.

(** X26.  The two tests for a locale failure agree.
    [handleStreamError] recognises the failure with a regular
    expression under the [i] flag on [error.message];
    [getErrorMessage] lower-cases the message and looks for the same
    three phrases.  For every thrown value the two agree: the regular
    expression matches exactly when [getErrorMessage] gives the locale
    notice.  So the retry against the online provider is only ever
    started for an error whose notice is the locale notice, and an
    error with that notice on the on-device provider always qualifies
    for the retry while the one-shot guard is unset. *)
Theorem locale_tests_agree e :
  is_locale_error e = true <-> getErrorMessage e = locale_notice.
Proof.
  destruct e as [name msg|s|]; cbn [is_locale_error getErrorMessage];
    [|split; [done|by vm_compute]..].
  unfold test, exec, locale_pattern, word.
  change [map Chr (lit "unsupported language"); map Chr (lit "unsupported locale");
          map Chr (lit "locale was used")]
    with (map (map Chr) [lit "unsupported language"; lit "unsupported locale";
                         lit "locale was used"]).
  rewrite test_fold. cbn [existsb]. rewrite orb_false_r.
  rewrite <- !includes_lower by (by vm_compute).
  cbv zeta.
  destruct (includes (lit "unsupported language") (toLowerCase msg)); [done|].
  destruct (includes (lit "unsupported locale") (toLowerCase msg)); [done|].
  destruct (includes (lit "locale was used") (toLowerCase msg)); [done|].
  cbn [orb]. split; [done|].
  repeat match goal with
         | |- context [if ?b then _ else _] => destruct b
         end; by vm_compute.
Qed.

Lemma in_match_seq_app i p q x y :
  In y (match_seq i (p ++ q) x)
  <-> exists z, In z (match_seq i p x) /\ In y (match_seq i q z).
Proof.
  revert x. induction p as [|a p IH]; intros x; cbn.
  - split; [intros H; exists x; by auto|intros (z & [<-|[]] & H); done].
  - rewrite in_flat_map. split.
    + intros (x1 & Hx1 & Hy). apply IH in Hy as (z & Hz & Hy).
      exists z. split; [|done]. apply in_flat_map. eauto.
    + intros (z & Hz & Hy). apply in_flat_map in Hz as (x1 & Hx1 & Hz).
      exists x1. split; [done|]. apply IH. eauto.
Qed.

Lemma in_match_word w prev s y :
  In y (match_seq false (map Chr w) (prev, s)) -> s = w ++ y.2.
Proof.
  revert prev s. induction w as [|c w IH]; intros prev s; cbn.
  - by intros [<-|[]].
  - destruct s as [|d s]; cbn; [done|].
    destruct (N.eqb_spec c d) as [->|_]; cbn; [|done].
    rewrite app_nil_r. intros Hy. by rewrite (IH _ _ Hy) at 1.
Qed.

Lemma match_word_in w prev rest :
  exists q, In (q, rest) (match_seq false (map Chr w) (prev, w ++ rest)).
Proof.
  revert prev. induction w as [|c w IH]; intros prev; cbn.
  - eauto.
  - rewrite N.eqb_refl. cbn. rewrite app_nil_r. apply IH.
Qed.

Lemma in_many1 p prev s y :
  In y (many1 p prev s) ->
  exists gap, gap <> [] /\ Forall (fun c => p c = true) gap /\ s = gap ++ y.2.
Proof.
  revert prev. induction s as [|c s IH]; intros prev; cbn; [done|].
  destruct (p c) eqn:Hc; [|done].
  rewrite in_app_iff. intros [Hy|[<-|[]]].
  - destruct (IH _ Hy) as (gap & _ & Hgap & ->).
    exists (c :: gap). split_and!; [done| |done]. by constructor.
  - exists [c]. split_and!; [done| |done]. by repeat constructor.
Qed.

Lemma many1_in p prev gap rest :
  gap <> [] -> Forall (fun c => p c = true) gap ->
  exists q, In (q, rest) (many1 p prev (gap ++ rest)).
Proof.
  intros Hne Hgap. revert prev. induction Hgap as [|c gap Hc Hgap IH]; [done|].
  intros prev. cbn. rewrite Hc. destruct gap as [|c' gap].
  - exists (Some c). apply in_app_iff. right. by left.
  - destruct (IH ltac:(done) (Some c)) as [q Hq].
    exists q. apply in_app_iff. by left.
Qed.

(** Whether a phrase matches at a position depends on the text that
    follows, not on the code unit before. *)
Lemma phrase_says ws prev s :
  (exists y, In y (match_seq false (phrase ws) (prev, s)))
  <-> says (map lit ws) s.
Proof.
  revert prev s. induction ws as [|w ws IH]; intros prev s.
  - cbn. split; [done|eauto].
  - destruct ws as [|w2 ws].
    + cbn [phrase map says]. unfold word. split.
      * intros [y Hy]. exists y.2. by apply in_match_word in Hy.
      * intros [rest ->]. destruct (match_word_in (lit w) prev rest) as [q Hq]. eauto.
    + change (phrase (w :: w2 :: ws)) with (word w ++ Spaces :: phrase (w2 :: ws)).
      change (says (map lit (w :: w2 :: ws)) s)
        with (exists gap rest,
                 gap <> [] /\ Forall (fun c => is_space c = true) gap /\
                 s = lit w ++ gap ++ rest /\ says (map lit (w2 :: ws)) rest).
      split.
      * intros [y Hy]. apply in_match_seq_app in Hy as ([q1 r1] & Hz & Hy).
        apply in_match_word in Hz. cbn [snd] in Hz.
        cbn [match_seq step_atom fst snd] in Hy.
        apply in_flat_map in Hy as ([q2 r2] & Hgap & Hy).
        apply in_many1 in Hgap as (gap & Hne & Hgap & Hr1). cbn [snd] in Hr1.
        exists gap, r2. split_and!; [done|done|by rewrite Hz, Hr1|].
        apply (IH q2 r2). eauto.
      * intros (gap & rest & Hne & Hgap & -> & Hsays).
        destruct (match_word_in (lit w) prev (gap ++ rest)) as [q1 Hq1].
        destruct (many1_in is_space q1 gap rest Hne Hgap) as [q2 Hq2].
        apply (IH q2 rest) in Hsays as [y Hy].
        exists y. apply in_match_seq_app. exists (q1, gap ++ rest).
        split; [exact Hq1|]. cbn [match_seq step_atom fst snd].
        apply in_flat_map. eauto.
Qed.

Lemma exec_from_some i alts prev s m :
  exec_from i alts prev s = Some m ->
  exists pre rest q, s = pre ++ rest /\ match_alt i alts (q, rest) <> [].
Proof.
  revert prev. induction s as [|c s IH]; intros prev; cbn [exec_from].
  - destruct (match_alt i alts (prev, [])) as [|[q r] l] eqn:Hm; [done|].
    intros _. exists [], [], prev. by rewrite Hm.
  - destruct (match_alt i alts (prev, c :: s)) as [|[q r] l] eqn:Hm.
    + intros H. destruct (IH _ H) as (pre & rest & q & -> & Hne).
      by exists (c :: pre), rest, q.
    + intros _. exists [], (c :: s), prev. by rewrite Hm.
Qed.

Lemma exec_from_found i alts prev pre rest :
  (forall q, match_alt i alts (q, rest) <> []) ->
  exec_from i alts prev (pre ++ rest) <> None.
Proof.
  intros Hm. revert prev. induction pre as [|c pre IH]; intros prev.
  - specialize (Hm prev). cbn [app].
    destruct rest as [|c rest]; cbn [exec_from];
      by destruct (match_alt i alts _) as [|[q r] l].
  - cbn [app exec_from].
    destruct (match_alt i alts (prev, c :: pre ++ rest)) as [|[q r] l]; [|done].
    apply IH.
Qed.

Lemma test_phrase_mentions ws tail s :
  test false [phrase ws ++ tail] s = true -> mentions (map lit ws) s.
Proof.
  unfold test, exec.
  destruct (exec_from false [phrase ws ++ tail] None s) as [m|] eqn:He; [|done].
  intros _. apply exec_from_some in He as (pre & rest & q & -> & Hne).
  exists pre, rest. split; [done|].
  unfold match_alt in Hne. cbn in Hne. rewrite app_nil_r in Hne.
  destruct (match_seq false (phrase ws ++ tail) (q, rest)) as [|y l] eqn:Hm; [done|].
  assert (In y (match_seq false (phrase ws ++ tail) (q, rest))) as Hy
    by (rewrite Hm; by left).
  apply in_match_seq_app in Hy as (z & Hz & _).
  apply (phrase_says ws q rest). eauto.
Qed.

Lemma mentions_test_phrase ws s :
  mentions (map lit ws) s -> test false [phrase ws] s = true.
Proof.
  intros (pre & rest & -> & Hsays). unfold test, exec.
  pose proof (exec_from_found false [phrase ws] None pre rest) as Hf.
  destruct (exec_from false [phrase ws] None (pre ++ rest)); [done|].
  exfalso. apply Hf; [|done]. intros q.
  apply (phrase_says ws q rest) in Hsays as [y Hy].
  unfold match_alt. cbn. rewrite app_nil_r.
  by destruct (match_seq false (phrase ws) (q, rest)).
Qed.

(** X27.  What [detectWhatPageQuestion] recognises.  A text is taken
    for the question exactly when, lower-cased, it contains somewhere
    one of six phrasings ("what page am i on", "what page is this",
    "which page am i on", "what site am i on", "what url am i on",
    "what apge am i on"), its words separated by runs of white space.
    The phrase may stand anywhere, also inside a longer word or
    sentence; the two patterns that end in a question mark and in a
    word boundary never decide, as the first one matches whenever they
    do. *)
Theorem detectWhatPageQuestion_spec text :
  detectWhatPageQuestion text = true
  <-> exists ws, ws ∈ what_page_phrases /\ mentions (map lit ws) (toLowerCase text).
Proof.
  unfold detectWhatPageQuestion. cbv zeta. rewrite existsb_exists. split.
  - intros (re & Hre & Ht). unfold what_page_patterns in Hre.
    assert (forall ws, ws ∈ what_page_phrases ->
              test false [phrase ws ++ []] (toLowerCase text) = true
              \/ test false [phrase ws ++ [Chr 63]] (toLowerCase text) = true
              \/ test false [phrase ws ++ [Boundary]] (toLowerCase text) = true ->
              exists ws, ws ∈ what_page_phrases
                         /\ mentions (map lit ws) (toLowerCase text)) as Hgo.
    { intros ws Hws [H|[H|H]]; exists ws; (split; [done|]);
        by apply test_phrase_mentions in H. }
    unfold what_page_phrases in Hgo.
    repeat (destruct Hre as [<-|Hre]);
      [ apply (Hgo ["what"; "page"; "am"; "i"; "on"]%string)
      | apply (Hgo ["what"; "page"; "am"; "i"; "on"]%string)
      | apply (Hgo ["what"; "page"; "am"; "i"; "on"]%string)
      | apply (Hgo ["what"; "page"; "is"; "this"]%string)
      | apply (Hgo ["which"; "page"; "am"; "i"; "on"]%string)
      | apply (Hgo ["what"; "site"; "am"; "i"; "on"]%string)
      | apply (Hgo ["what"; "url"; "am"; "i"; "on"]%string)
      | apply (Hgo ["what"; "apge"; "am"; "i"; "on"]%string)
      | destruct Hre ];
      rewrite ?app_nil_r; try (by repeat constructor); tauto.
  - intros (ws & Hws & Hm). exists (phrase ws).
    split; [|by apply mentions_test_phrase].
    unfold what_page_phrases in Hws. unfold what_page_patterns.
    apply list_elem_of_In in Hws. cbn in Hws |- *.
    repeat (destruct Hws as [<-|Hws]); tauto.
Qed.

End TextMore.

(** ** The page inspector *)

Module PageMore.
Import JS Page.

Lemma split_ws_go_clean b s :
  Forall (Forall (fun c => is_space c = false)) (split_ws_go b s).
Proof.
  revert b. induction s as [|c s IH]; intros b; cbn.
  - by repeat constructor.
  - destruct (is_space c) eqn:Hc.
    + destruct b; [apply IH|]. constructor; [done|apply IH].
    + specialize (IH false). destruct (split_ws_go false s) as [|w ws].
      * by repeat constructor.
      * apply Forall_cons in IH as [Hw Hws]. constructor; [by constructor|done].
Qed.

Lemma filter_space_clean w :
  Forall (fun c => is_space c = false) w ->
  filter (fun c => is_space c = true) w = [].
Proof.
  induction 1 as [|c w Hc _ IH]; [done|].
  rewrite filter_cons, decide_False by congruence. exact IH.
Qed.

Lemma join_space_clean ws :
  Forall (Forall (fun c => is_space c = false)) ws ->
  Forall (fun c => is_space c = true -> c = 32%N) (join [32%N] ws) /\
  length (filter (fun c => is_space c = true) (join [32%N] ws)) = pred (length ws).
Proof.
  induction 1 as [|w ws Hw Hws [IH1 IH2]]; [by split|].
  assert (Forall (fun c => is_space c = true -> c = 32%N) w) as Hw'.
  { eapply Forall_impl; [exact Hw|]. cbn. intros c Hc. by rewrite Hc. }
  destruct ws as [|w2 ws].
  - cbn. split; [done|]. by rewrite filter_space_clean.
  - change (join [32%N] (w :: w2 :: ws))
      with (w ++ [32%N] ++ join [32%N] (w2 :: ws)).
    split.
    + apply Forall_app; split; [done|]. apply Forall_app; split; [|done].
      by repeat constructor.
    + rewrite !filter_app, !length_app, filter_space_clean by done.
      rewrite IH2. done.
Qed.

(** X28.  The summary of a page is white-space normalised and bounded
    in words.  In what [getInfoForTab] returns, the only white space of
    [summary] is the single U+0020 between two words, and there are
    fewer than 200 of them: the summary holds at most 200 words of the
    page text, however the text was laid out.  (The length of a word is
    not bounded.)  When [getTabText] rejects, the summary is empty. *)
Theorem getInfoForTab_summary tab :
  let s := summary (getInfoForTab tab) in
  Forall (fun c => is_space c = true -> c = 32%N) s /\
  length (filter (fun c => is_space c = true) s) < 200 /\
  (forall e, tab_text tab = Throws e -> s = []).
Proof.
  cbv zeta. unfold getInfoForTab. cbn [summary].
  destruct (tab_text tab) as [text|e]; [|split_and!; [done|cbn; lia|done]].
  change (lit " ") with [32%N].
  assert (Forall (Forall (fun c => is_space c = false)) (slice0 200 (split_ws text)))
    as Hclean by apply Forall_take, split_ws_go_clean.
  destruct (join_space_clean _ Hclean) as [H1 H2].
  split_and!; [done| |done].
  rewrite H2. unfold slice0. rewrite length_take.
  pose proof (split_ws_go_clean false text) as Hne. unfold split_ws. lia.
Qed.

End PageMore.

(** ** The page context of the on-device prompt *)

Module PromptMore.
Import JS Orch PromptBuilder.

Lemma trimStart_nil s :
  trimStart s = [] <-> Forall (fun c => is_space c = true) s.
Proof.
  induction s as [|c s IH]; cbn; [done|].
  destruct (is_space c) eqn:Hc.
  - rewrite IH. split; [by constructor|by intros [_ ?]%Forall_cons].
  - split; [done|]. intros [? _]%Forall_cons. congruence.
Qed.

Lemma trimStart_spaces_or_kept s :
  Forall (fun c => is_space c = true) (trimStart s) -> trimStart s = [].
Proof.
  induction s as [|c s IH]; cbn; [done|].
  destruct (is_space c) eqn:Hc; [done|].
  intros [? _]%Forall_cons. congruence.
Qed.

Lemma trim_nil s : trim s = [] <-> Forall (fun c => is_space c = true) s.
Proof.
  unfold trim. split.
  - intros H. apply (f_equal (@rev N)) in H. rewrite rev_involutive in H. cbn in H.
    apply trimStart_nil, Forall_rev in H. rewrite rev_involutive in H.
    by apply trimStart_nil, trimStart_spaces_or_kept.
  - intros H. apply trimStart_nil in H. by rewrite H.
Qed.

Lemma collapse_ws_spaces b s :
  Forall (fun c => is_space c = true) (collapse_ws_go b s)
  <-> Forall (fun c => is_space c = true) s.
Proof.
  revert b. induction s as [|c s IH]; intros b; cbn; [done|].
  destruct (is_space c) eqn:Hc.
  - destruct b.
    + rewrite IH. split; [by constructor|by intros [_ ?]%Forall_cons].
    + rewrite !Forall_cons, IH. by split; intros [_ ?].
  - rewrite !Forall_cons, IH. done.
Qed.

Lemma truncate_nil s n : truncate s n = [] <-> s = [].
Proof.
  unfold truncate. destruct (length s <=? n) eqn:Hn; [done|].
  split; [|by intros ->].
  intros H. apply app_eq_nil in H as [_ H]. by vm_compute in H.
Qed.

Lemma truncate_length s n : length (truncate s n) <= n + 3.
Proof.
  unfold truncate. destruct (Nat.leb_spec (length s) n); [lia|].
  rewrite length_app, length_take. change (length (lit "...")) with 3. lia.
Qed.

Lemma excerpt_of_nil s :
  excerpt_of s = [] <-> Forall (fun c => is_space c = true) s.
Proof.
  unfold excerpt_of, collapse_ws. cbv zeta.
  by rewrite truncate_nil, trim_nil, collapse_ws_spaces.
Qed.

(** X29.  When the on-device prompt carries a page context.
    [buildAppleContext] returns [null] exactly when there is nothing to
    say: the URL and the title are [null] or empty, and the page text is
    [null], empty or white space only.  Otherwise it returns a message
    of role [assistant].  The excerpt taken from a page text never
    exceeds 803 code units (800 and the three dots). *)
Theorem buildAppleContext_spec url title pageText :
  (buildAppleContext url title pageText = None
   <-> default [] url = [] /\ default [] title = [] /\
       Forall (fun c => is_space c = true) (default [] pageText)) /\
  (forall m, buildAppleContext url title pageText = Some m -> role m = assistant) /\
  length (excerpt_of (default [] pageText)) <= 803.
Proof.
  split_and!.
  - unfold buildAppleContext. cbv zeta.
    destruct url as [[|c u]|]; cbn [default app]; try (split; [done|by intros (? & _)]).
    all: destruct title as [[|d t]|]; cbn [default app];
      try (split; [done|by intros (_ & ? & _)]).
    all: destruct pageText as [[|x p]|]; cbn [default app]; try done.
    all: pose proof (excerpt_of_nil (x :: p)) as Hx.
    all: destruct (excerpt_of (x :: p)) as [|y q]; cbn [nonempty].
    all: try (split; [intros _; split_and!; [done|done|by apply Hx]|done]).
    all: split; [done|]; intros (_ & _ & H); by apply Hx in H.
  - intros m. unfold buildAppleContext. cbv zeta.
    destruct (_ ++ _ ++ _); [done|]. by intros [= <-].
  - apply (truncate_length _ 800).
Qed.

End PromptMore.
